(** * ChatKit (TypeScript): widget diffing, widget streaming and the
      thread event coordinator

    A shallow embedding of [src/helpers/server.helper.ts] (the widget diff
    engine and the streaming widget emitter) and of [src/server.ts] (the
    request router and the event coordinator of [ChatKitServer]), with the
    store interface of [src/store.ts] and the in-memory store of the example
    application as its reference instance. *)

From Stdlib Require Import List String Ascii Bool Arith ZArith NArith Lia.
Import ListNotations.
Open Scope string_scope.
Open Scope list_scope.

Set Implicit Arguments.

(** ** Results of fallible code *)

(** What a [throw] carries.  [TypeError] is raised by the JavaScript runtime
    itself (a property read on [null], a [for ... of] over a value that is
    not iterable); the other constructors are the [Error]s the source
    constructs, named after their messages. *)
Inductive exn : Type :=
| TypeError
| NodeNotPresent (id : string)      (* "Node ${id} was not present when the widget was initially rendered..." *)
| NotCumulative (id : string)       (* "Node ${id} was updated with a new value that is not a prefix..." *)
| NotFoundError (what : string)     (* store.ts: class NotFoundError *)
| PlainError (message : string)     (* any other [new Error(message)] *)
| StreamError (allowRetry : bool)   (* errors.ts: class StreamError *)
| CustomStreamError (message : string) (allowRetry : bool).

Inductive result (A : Type) : Type :=
| Ok (a : A)
| Err (e : exn).
Arguments Ok {A} a.
Arguments Err {A} e.

(** ** Strings as JavaScript uses them

    A string is the sequence of its code units; the strings of the model
    are those whose code units are below 256. *)

Module JSString.

(** [s.startsWith(p)] *)
Definition startsWith (s p : string) : bool := String.prefix p s.

(** [s.slice(n)] for [0 <= n]: the string without its first [n] units. *)
Fixpoint slice (s : string) (n : nat) {struct n} : string :=
  match n, s with
  | O, _ => s
  | S n', String _ s' => slice s' n'
  | S _, EmptyString => EmptyString
  end.

(** White space removed by [String.prototype.trim], among the code units a
    Rocq [ascii] can hold: TAB, LF, VT, FF, CR, SPACE and NBSP. *)
Definition is_white_space (c : ascii) : bool :=
  let n := nat_of_ascii c in
  ((n =? 9) || (n =? 10) || (n =? 11) || (n =? 12) || (n =? 13)
   || (n =? 32) || (n =? 160))%nat.

Fixpoint trimStart (s : string) : string :=
  match s with
  | String c s' => if is_white_space c then trimStart s' else s
  | EmptyString => EmptyString
  end.

Fixpoint rev_string (s acc : string) : string :=
  match s with
  | EmptyString => acc
  | String c s' => rev_string s' (String c acc)
  end.

Definition trimEnd (s : string) : string :=
  rev_string (trimStart (rev_string s EmptyString)) EmptyString.

(** [s.trim()] *)
Definition trim (s : string) : string := trimEnd (trimStart s).

(** Truthiness of a string: only the empty string is falsy. *)
Definition truthy (s : string) : bool :=
  match s with
  | EmptyString => false
  | String _ _ => true
  end.

Definition hex_digit (n : N) : ascii :=
  match n with
  | 0%N => "0" | 1%N => "1" | 2%N => "2" | 3%N => "3" | 4%N => "4"
  | 5%N => "5" | 6%N => "6" | 7%N => "7" | 8%N => "8" | 9%N => "9"
  | 10%N => "a" | 11%N => "b" | 12%N => "c" | 13%N => "d" | 14%N => "e"
  | _ => "f"
  end%char.

Fixpoint hex_pos (fuel : nat) (n : N) (acc : string) : string :=
  match fuel with
  | O => acc
  | S fuel' =>
      let acc' := String (hex_digit (N.modulo n 16)) acc in
      if (N.div n 16 =? 0)%N then acc' else hex_pos fuel' (N.div n 16) acc'
  end.

(** [n.toString(16)] for a non-negative integer. *)
Definition toString16 (n : N) : string :=
  hex_pos (S (N.to_nat (N.log2 n))) n EmptyString.

End JSString.

(** ** Plain JavaScript objects used as string-keyed maps

    [Record<string, T>] as the source uses it for [components] (in
    [findAllStreamingTextComponents]) and for [pendingItems] (in
    [processEvents]): assignment, [delete], lookup, and enumeration with
    [Object.entries] / [Object.values].  Enumeration order is the order of
    own property keys: canonical array indices first, in ascending numeric
    order, then the other keys in the order they were first assigned.  A
    record is kept as the list of its own entries in that order.  What the
    names of [Object.prototype] do as keys (an assignment to "__proto__"
    replaces the prototype, and a lookup that misses the own properties
    continues along the prototype chain) is modelled where a property
    depends on it, in [Widget.components]; for [pendingItems], whose keys
    are the ids of thread items, those names are not taken to be ids. *)

Module JSObject.

Definition record (A : Type) : Type := list (string * A).

Definition is_digit (c : ascii) : bool :=
  let n := nat_of_ascii c in ((48 <=? n) && (n <=? 57))%nat.

Fixpoint digits_value (s : string) (acc : N) : option N :=
  match s with
  | EmptyString => Some acc
  | String c s' =>
      if is_digit c
      then digits_value s' (acc * 10 + N.of_nat (nat_of_ascii c - 48))%N
      else None
  end.

(** A key is an array index when it is the canonical decimal form of an
    integer below 2^32 - 1. *)
Definition array_index (k : string) : option N :=
  match k with
  | EmptyString => None
  | String c rest =>
      if (nat_of_ascii c =? 48)%nat && negb (String.eqb rest EmptyString) then None
      else match digits_value k 0%N with
           | Some n => if (n <? 4294967295)%N then Some n else None
           | None => None
           end
  end.

Section Ops.
Context {A : Type}.

Fixpoint get (r : record A) (k : string) : option A :=
  match r with
  | [] => None
  | (k', v) :: r' => if String.eqb k' k then Some v else get r' k
  end.

Definition has (r : record A) (k : string) : bool :=
  match get r k with Some _ => true | None => false end.

Fixpoint replace (r : record A) (k : string) (v : A) : record A :=
  match r with
  | [] => []
  | (k', v') :: r' =>
      if String.eqb k' k then (k', v) :: r' else (k', v') :: replace r' k v
  end.

(** Position of a new array-index key: before the first entry whose key
    is not an array index or is a larger one. *)
Fixpoint insert_index (r : record A) (n : N) (k : string) (v : A) : record A :=
  match r with
  | [] => [(k, v)]
  | (k', v') :: r' =>
      match array_index k' with
      | Some n' =>
          if (n' <? n)%N then (k', v') :: insert_index r' n k v
          else (k, v) :: r
      | None => (k, v) :: r
      end
  end.

(** [r[k] = v] *)
Definition set (r : record A) (k : string) (v : A) : record A :=
  if has r k then replace r k v
  else match array_index k with
       | Some n => insert_index r n k v
       | None => r ++ [(k, v)]
       end.

(** [delete r[k]] *)
Fixpoint delete (r : record A) (k : string) : record A :=
  match r with
  | [] => []
  | (k', v') :: r' =>
      if String.eqb k' k then delete r' k else (k', v') :: delete r' k
  end.

(** [Object.entries(r)], [Object.keys(r)], [Object.values(r)] *)
Definition entries (r : record A) : list (string * A) := r.
Definition keys (r : record A) : list string := map fst r.
Definition values (r : record A) : list A := map snd r.

End Ops.

Definition empty {A : Type} : record A := [].

(** Two records with the same keys in the same order whose values are
    related, key by key. *)
Definition rel {A B : Type} (R : string -> A -> B -> Prop)
    (r1 : record A) (r2 : record B) : Prop :=
  Forall2 (fun x y => fst x = fst y /\ R (fst x) (snd x) (snd y)) r1 r2.

End JSObject.

(** ** Widget snapshots

    A widget is a JSON-shaped tree of JavaScript values.  [fullReplace]
    compares values with [!==], which on objects and arrays is reference
    identity, so every array and object carries the reference [ref] it lives
    at; two snapshots may share sub-objects.  An object is a plain object:
    its prototype is [Object.prototype] and its properties are data.  A
    number is kept as the string JavaScript prints for it, which tells two
    numbers apart exactly when [!==] does (both zeros print as "0"); NaN,
    the one number that is [!==] to itself, is not represented. *)

Module Widget.

Unset Elimination Schemes.
Inductive value : Type :=
| VUndefined
| VNull
| VBool (b : bool)
| VNum (printed : string)
| VStr (s : string)
| VArr (ref : nat) (elems : list value)
| VObj (ref : nat) (fields : list (string * value)).
Set Elimination Schemes.

(** Induction over a value, with the hypothesis for every element of an
    array and every field value of an object. *)
Section ValueInd.
Variable P : value -> Prop.
Hypothesis Hundef : P VUndefined.
Hypothesis Hnull : P VNull.
Hypothesis Hbool : forall b, P (VBool b).
Hypothesis Hnum : forall n, P (VNum n).
Hypothesis Hstr : forall s, P (VStr s).
Hypothesis Harr : forall r elems, Forall P elems -> P (VArr r elems).
Hypothesis Hobj : forall r fs, Forall (fun kv => P (snd kv)) fs -> P (VObj r fs).

Fixpoint value_ind (v : value) : P v :=
  match v with
  | VUndefined => Hundef
  | VNull => Hnull
  | VBool b => Hbool b
  | VNum n => Hnum n
  | VStr s => Hstr s
  | VArr r elems =>
      Harr r ((fix all (l : list value) : Forall P l :=
                 match l with
                 | [] => Forall_nil _
                 | x :: l' => Forall_cons x (value_ind x) (all l')
                 end) elems)
  | VObj r fs =>
      Hobj r ((fix all (l : list (string * value)) : Forall (fun kv => P (snd kv)) l :=
                 match l with
                 | [] => Forall_nil _
                 | kv :: l' => Forall_cons kv (value_ind (snd kv)) (all l')
                 end) fs)
  end.
End ValueInd.

Definition fields_of (v : value) : list (string * value) :=
  match v with
  | VObj _ fs => fs
  | _ => []
  end.

(** [fs[k]] on the own properties of an object: [undefined] when absent. *)
Fixpoint field (fs : list (string * value)) (k : string) : value :=
  match fs with
  | [] => VUndefined
  | (k', v) :: fs' => if String.eqb k' k then v else field fs' k
  end.

(** [k in obj] on the own properties of an object. *)
Fixpoint has_field (fs : list (string * value)) (k : string) : bool :=
  match fs with
  | [] => false
  | (k', _) :: fs' => String.eqb k' k || has_field fs' k
  end.

(** The names of the properties of [Object.prototype], which every plain
    object inherits. *)
Definition Object_prototype : list string :=
  ["constructor"; "__defineGetter__"; "__defineSetter__"; "hasOwnProperty";
   "__lookupGetter__"; "__lookupSetter__"; "isPrototypeOf"; "propertyIsEnumerable";
   "toString"; "valueOf"; "__proto__"; "toLocaleString"].

Definition builtin_name (k : string) : bool := existsb (String.eqb k) Object_prototype.

(** [obj[k]] is inherited: [k] names a property of [Object.prototype] that
    the object does not own, and the read gives a built-in function or
    object, which is no value of a widget. *)
Definition inherited (fs : list (string * value)) (k : string) : bool :=
  negb (has_field fs k) && builtin_name k.

(** [v.k] for one of the names the code reads by name ([type], [id], [key],
    [value], [streaming], [children]) on a value that is not [null] or
    [undefined]: none of them is a built-in property of an object, an array
    or a primitive, so the read gives the own property or [undefined]. *)
Definition prop (v : value) (k : string) : value := field (fields_of v) k.

Definition is_nullish (v : value) : bool :=
  match v with
  | VUndefined | VNull => true
  | _ => false
  end.

(** [typeof v === "object" && v] *)
Definition is_object (v : value) : bool :=
  match v with
  | VArr _ _ | VObj _ _ => true
  | _ => false
  end.

Definition is_string (v : value) : bool :=
  match v with
  | VStr _ => true
  | _ => false
  end.

(** Truthiness, as [!v], [a && b] and [if (v)] test it. *)
Definition truthy (v : value) : bool :=
  match v with
  | VUndefined | VNull => false
  | VBool b => b
  | VNum printed => negb (String.eqb printed "0")
  | VStr s => JSString.truthy s
  | VArr _ _ | VObj _ _ => true
  end.

(** [x === y]: by value on primitives, by reference on arrays and objects. *)
Definition strict_eq (x y : value) : bool :=
  match x, y with
  | VUndefined, VUndefined => true
  | VNull, VNull => true
  | VBool a, VBool b => Bool.eqb a b
  | VNum a, VNum b => String.eqb a b
  | VStr a, VStr b => String.eqb a b
  | VArr r _, VArr r' _ => (r =? r')%nat
  | VObj r _, VObj r' _ => (r =? r')%nat
  | _, _ => false
  end.

Definition strict_neq (x y : value) : bool := negb (strict_eq x y).

(** [String(v)] where [v] is the [value] of a node that passed
    [isStreamingText], which is a string already. *)
Definition asString (v : value) : string :=
  match v with
  | VStr s => s
  | _ => EmptyString
  end.

(** [String(v)], and the property key [v] stands for in [record[v]].  An
    array is joined with commas, [null] and [undefined] elements giving
    the empty string; an object prints as "[object Object]" through the
    [toString] it inherits, and cannot be converted when it owns a
    [toString] property, which is data and not callable. *)
Fixpoint toString (v : value) {struct v} : result string :=
  match v with
  | VUndefined => Ok "undefined"
  | VNull => Ok "null"
  | VBool b => Ok (if b then "true" else "false")
  | VNum printed => Ok printed
  | VStr s => Ok s
  | VArr _ elems =>
      (fix join (elems : list value) (sep : string) {struct elems} : result string :=
         match elems with
         | [] => Ok ""
         | x :: rest =>
             match (match x with
                    | VUndefined | VNull => Ok ""
                    | _ => toString x
                    end) with
             | Err e => Err e
             | Ok s =>
                 match join rest "," with
                 | Err e => Err e
                 | Ok t => Ok (sep ++ s ++ t)%string
                 end
             end
         end) elems ""
  | VObj _ fs => if has_field fs "toString" then Err TypeError else Ok "[object Object]"
  end.

(** [v ?? d] *)
Definition coalesce (v d : value) : value := if is_nullish v then d else v.

(** [isStreamingText]: a component of type "Text" whose [value] is a
    string. *)
Definition isStreamingText (component : value) : bool :=
  strict_eq (prop component "type") (VStr "Text")
  && is_string (prop component "value").

(** The two [continue] guards of the field loop of [fullReplace]. *)
Definition exempt (before after : value) (fld : string) : bool :=
  isStreamingText before && isStreamingText after
  && ((String.eqb fld "value"
       && JSString.startsWith (asString (prop after "value"))
                              (asString (prop before "value")))
      || String.eqb fld "streaming").

(** [fullReplaceValue(undefined, afterValue)]: what a field that only
    [after] has is compared with. *)
Definition fullReplaceMissing (afterValue : value) : bool :=
  strict_neq VUndefined afterValue.

(** The body of [fullReplace], over the function [rec] it uses to compare
    two field values.  The loop over [fields], the set of the keys of
    [before] followed by the new keys of [after], is a disjunction with no
    other effect, written as the fields of [before] (given as
    [beforeEntries], on which the comparison recurses) followed by the
    fields only [after] has.  A field one record owns and the other
    inherits is compared with a built-in, which is [!==] to it and has no
    [type]: a replace trigger. *)
Definition fullReplaceBody (rec : value -> value -> bool)
    (before : value) (beforeEntries : list (string * value)) (after : value) : bool :=
  if strict_neq (prop before "type") (prop after "type")
     || strict_neq (prop before "id") (prop after "id")
     || strict_neq (prop before "key") (prop after "key")
  then true
  else
    existsb (fun kv => let '(k, beforeValue) := kv in
               negb (exempt before after k)
               && (inherited (fields_of after) k || rec beforeValue (prop after k)))
            beforeEntries
    || existsb (fun kv => let '(k, afterValue) := kv in
                  negb (has_field beforeEntries k)
                  && negb (exempt before after k)
                  && (inherited beforeEntries k || fullReplaceMissing afterValue))
               (fields_of after).

(** [fullReplaceValue], the closure of [fullReplace]. *)
Fixpoint fullReplaceValue (beforeValue afterValue : value) {struct beforeValue} : bool :=
  match beforeValue with
  | VArr _ bs =>
      match afterValue with
      | VArr _ as_ =>
          if negb (List.length bs =? List.length as_)%nat then true
          else
            (fix each (bs as_ : list value) {struct bs} : bool :=
               match bs, as_ with
               | b :: bs', a :: as' => fullReplaceValue b a || each bs' as'
               | _, _ => false
               end) bs as_
      | _ => true   (* an array is never [===] a value that is not one, and has no "type" *)
      end
  | VObj _ fb =>
      if strict_neq beforeValue afterValue then
        if is_object afterValue
           && has_field fb "type" && has_field (fields_of afterValue) "type"
        then fullReplaceBody fullReplaceValue beforeValue fb afterValue
        else true
      else false
  | _ => strict_neq beforeValue afterValue
  end.

(** [fullReplace(before, after)] on two objects. *)
Definition fullReplace (before after : value) : bool :=
  fullReplaceBody fullReplaceValue before (fields_of before) after.

(** *** Updates *)

Inductive WidgetUpdate : Type :=
| WidgetStreamingTextValueDelta (component_id : string) (delta : string) (done : bool)
| WidgetRootUpdated (widget : value).

(** The object [components] of [findAllStreamingTextComponents]: its own
    properties and, once an assignment to the key "__proto__" has replaced
    it, its prototype. *)
Record components : Type := {
  proto : option value;
  own : JSObject.record value
}.

(** [{}] *)
Definition noComponents : components := {| proto := None; own := JSObject.empty |}.

(** [components[id] = comp] for an object [comp]: the key "__proto__" runs
    the setter that [Object.prototype] provides, which makes [comp] the
    prototype and adds no property; any other key becomes, or stays, an own
    property. *)
Definition assign (acc : components) (id : string) (comp : value) : components :=
  if String.eqb id "__proto__" then {| proto := Some comp; own := own acc |}
  else {| proto := proto acc; own := JSObject.set (own acc) id comp |}.

(** What [recurse] does with the node itself: register it under its id
    when it is a streaming text with a truthy id.  The id is turned into a
    property key, which fails on an object that cannot be converted. *)
Definition register (comp : value) (acc : components) : result components :=
  if isStreamingText comp && truthy (prop comp "id") then
    match toString (prop comp "id") with
    | Ok id => Ok (assign acc id comp)
    | Err e => Err e
    end
  else Ok acc.

(** [recurse] of [findAllStreamingTextComponents], with the [components]
    object it fills passed along.  [comp.type] on [null] or [undefined]
    raises; [comp.children ?? []] is then iterated with [for ... of]:
    an array yields its elements, a string its characters (on which
    [recurse] finds nothing), and any other value is not iterable. *)
Fixpoint recurse (comp : value) (acc : components) {struct comp} : result components :=
  match comp with
  | VUndefined | VNull => Err TypeError
  | VObj _ fs =>
      match register comp acc with
      | Err e => Err e
      | Ok acc0 =>
          (fix find (fs : list (string * value)) {struct fs} : result components :=
             match fs with
             | [] => Ok acc0
             | (k, children) :: fs' =>
                 if String.eqb k "children" then
                   match children with
                   | VUndefined | VNull => Ok acc0
                   | VStr _ => Ok acc0
                   | VArr _ cs =>
                       (fix each (cs : list value) (acc : components) {struct cs}
                          : result components :=
                          match cs with
                          | [] => Ok acc
                          | child :: cs' =>
                              match recurse child acc with
                              | Ok acc' => each cs' acc'
                              | Err e => Err e
                              end
                          end) cs acc0
                   | VBool _ | VNum _ | VObj _ _ => Err TypeError
                   end
                 else find fs'
             end) fs
      end
  | VBool _ | VNum _ | VStr _ | VArr _ _ => Ok acc
  end.

Definition findAllStreamingTextComponents (component : value) : result components :=
  recurse component noComponents.

(** What [beforeNodes[id]] evaluates to: a value of the widget, or a
    built-in function or object. *)
Inductive looked_up : Type :=
| Data (v : value)
| Builtin.

(** [nodes[id]]: the own property; failing that, the property of the
    prototype that an assignment to "__proto__" installed, the prototype
    itself under the name "__proto__", or a property of
    [Object.prototype]; [undefined] when there is none. *)
Definition lookup (nodes : components) (id : string) : looked_up :=
  match JSObject.get (own nodes) id with
  | Some node => Data node
  | None =>
      match proto nodes with
      | Some p =>
          if has_field (fields_of p) id then Data (field (fields_of p) id)
          else if String.eqb id "__proto__" then Data p
          else if builtin_name id then Builtin else Data VUndefined
      | None => if builtin_name id then Builtin else Data VUndefined
      end
  end.

(** [!beforeNode] and [beforeNode.value] *)
Definition absent (node : looked_up) : bool :=
  match node with
  | Data v => negb (truthy v)
  | Builtin => false
  end.

Definition valueOf (node : looked_up) : value :=
  match node with
  | Data v => prop v "value"
  | Builtin => VUndefined
  end.

(** The loop of [diffWidget] over [Object.entries(afterNodes)], with the
    [deltas] pushed so far. *)
Fixpoint diffNodes (beforeNodes : components) (afterEntries : list (string * value))
    (deltas : list WidgetUpdate) : result (list WidgetUpdate) :=
  match afterEntries with
  | [] => Ok deltas
  | (id, afterNode) :: rest =>
      let beforeNode := lookup beforeNodes id in
      if absent beforeNode then Err (NodeNotPresent id)
      else
        match toString (coalesce (valueOf beforeNode) (VStr "")) with
        | Err e => Err e
        | Ok beforeValue =>
            match toString (coalesce (prop afterNode "value") (VStr "")) with
            | Err e => Err e
            | Ok afterValue =>
                if negb (String.eqb beforeValue afterValue) then
                  if negb (JSString.startsWith afterValue beforeValue)
                  then Err (NotCumulative id)
                  else
                    let done := negb (truthy (prop afterNode "streaming")) in
                    diffNodes beforeNodes rest
                      (deltas ++ [WidgetStreamingTextValueDelta id
                                    (JSString.slice afterValue (String.length beforeValue))
                                    done])
                else diffNodes beforeNodes rest deltas
            end
        end
  end.

(** [diffWidget(before, after)] on two widget roots, which are objects. *)
Definition diffWidget (before after : value) : result (list WidgetUpdate) :=
  if is_nullish before || is_nullish after then Err TypeError
  else if fullReplace before after then Ok [WidgetRootUpdated after]
  else
    match findAllStreamingTextComponents before with
    | Err e => Err e
    | Ok beforeNodes =>
        match findAllStreamingTextComponents after with
        | Err e => Err e
        | Ok afterNodes => diffNodes beforeNodes (JSObject.entries (own afterNodes)) []
        end
    end.

(** *** Relating two snapshots

    The vocabulary in which the properties of [diffWidget] are stated;
    none of it is used by the functions above. *)

(** Identity of two values: same shape, same content, same references. *)
Fixpoint value_eqb (x y : value) {struct x} : bool :=
  match x, y with
  | VUndefined, VUndefined => true
  | VNull, VNull => true
  | VBool a, VBool b => Bool.eqb a b
  | VNum a, VNum b => String.eqb a b
  | VStr a, VStr b => String.eqb a b
  | VArr r xs, VArr r' ys =>
      (r =? r')%nat
      && (fix all (xs ys : list value) {struct xs} : bool :=
            match xs, ys with
            | [], [] => true
            | x :: xs', y :: ys' => value_eqb x y && all xs' ys'
            | _, _ => false
            end) xs ys
  | VObj r fx, VObj r' fy =>
      (r =? r')%nat
      && (fix all (fx fy : list (string * value)) {struct fx} : bool :=
            match fx, fy with
            | [], [] => true
            | (k, x) :: fx', (k', y) :: fy' =>
                String.eqb k k' && value_eqb x y && all fx' fy'
            | _, _ => false
            end) fx fy
  | _, _ => false
  end.

(** [type], [id] and [key] are [===] on both sides. *)
Definition same_header (b a : value) : bool :=
  strict_eq (prop b "type") (prop a "type")
  && strict_eq (prop b "id") (prop a "id")
  && strict_eq (prop b "key") (prop a "key").

(** Two objects own the same names among those of [Object.prototype]. *)
Definition same_builtins (fb fa : list (string * value)) : bool :=
  forallb (fun k => Bool.eqb (has_field fb k) (has_field fa k)) Object_prototype.

(** A value is unchanged from [b] to [a] when it is the very same value,
    or an array rebuilt from unchanged elements, or a component (an object
    with a [type]) rebuilt with the same header and unchanged fields, a
    field that only one of the two owns being [undefined].  An object
    without a [type] is unchanged only when it is the same object. *)
Fixpoint unchanged (b a : value) {struct b} : bool :=
  value_eqb b a
  || match b, a with
     | VArr _ bs, VArr _ as_ =>
         (fix all (bs as_ : list value) {struct bs} : bool :=
            match bs, as_ with
            | [], [] => true
            | x :: bs', y :: as' => unchanged x y && all bs' as'
            | _, _ => false
            end) bs as_
     | VObj _ fb, VObj _ fa =>
         has_field fb "type" && has_field fa "type"
         && same_header b a
         && (fix all (fb : list (string * value)) {struct fb} : bool :=
               match fb with
               | [] => true
               | (k, x) :: fb' => unchanged x (field fa k) && all fb'
               end) fb
         && forallb (fun kv => has_field fb (fst kv) || negb (strict_neq VUndefined (snd kv))) fa
         && same_builtins fb fa
     | _, _ => false
     end.

Definition ref_of (v : value) : option nat :=
  match v with
  | VArr r _ | VObj r _ => Some r
  | _ => None
  end.

Definition distinct_refs (b a : value) : bool :=
  match ref_of b, ref_of a with
  | Some r, Some r' => negb (r =? r')%nat
  | _, _ => true
  end.

(** The keys under which [recurse] registers the nodes of a tree, in the
    order it meets them. *)
Definition own_id (comp : value) : list string :=
  if isStreamingText comp && truthy (prop comp "id") then
    match toString (prop comp "id") with
    | Ok id => [id]
    | Err _ => []
    end
  else [].

Fixpoint textIds (comp : value) {struct comp} : list string :=
  match comp with
  | VObj _ fs =>
      own_id comp
      ++ (fix find (fs : list (string * value)) {struct fs} : list string :=
            match fs with
            | [] => []
            | (k, children) :: fs' =>
                if String.eqb k "children" then
                  match children with
                  | VArr _ cs =>
                      (fix each (cs : list value) {struct cs} : list string :=
                         match cs with
                         | [] => []
                         | child :: cs' => textIds child ++ each cs'
                         end) cs
                  | _ => []
                  end
                else find fs'
            end) fs
  | _ => []
  end.

(** The id of a node can be turned into the key it is registered under. *)
Definition registrable (comp : value) : bool :=
  match register comp noComponents with
  | Ok _ => true
  | Err _ => false
  end.

(** A tree that [recurse] can walk: no node is [null] or [undefined], every
    node is registrable, and a [children] field, when present, is [null],
    [undefined], a string, or an array of such trees. *)
Fixpoint iterable (comp : value) {struct comp} : bool :=
  match comp with
  | VUndefined | VNull => false
  | VObj _ fs =>
      registrable comp &&
      (fix find (fs : list (string * value)) {struct fs} : bool :=
         match fs with
         | [] => true
         | (k, children) :: fs' =>
             if String.eqb k "children" then
               match children with
               | VUndefined | VNull | VStr _ => true
               | VArr _ cs =>
                   (fix each (cs : list value) {struct cs} : bool :=
                      match cs with
                      | [] => true
                      | child :: cs' => iterable child && each cs'
                      end) cs
               | VBool _ | VNum _ | VObj _ _ => false
               end
             else find fs'
         end) fs
  | VBool _ | VNum _ | VStr _ | VArr _ _ => true
  end.

Section Edit.
(** [target b a] singles out the pair of a node and the node that
    replaces it. *)
Variable target : value -> value -> bool.

(** [a] is [b] with one node replaced as [target] allows: the node
    itself, or exactly one element of its [children], recursively; the
    components on the way are rebuilt (they are new objects with the same
    header), and everything off the way is unchanged. *)
Fixpoint edited (b a : value) {struct b} : bool :=
  match b, a with
  | VObj _ fb, VObj _ fa =>
      distinct_refs b a
      && (target b a
          || (has_field fb "type" && has_field fa "type"
              && same_header b a
              && has_field fb "children"
              && (fix all (fb : list (string * value)) {struct fb} : bool :=
                    match fb with
                    | [] => true
                    | (k, x) :: fb' =>
                        (if String.eqb k "children" then
                           match x, field fa k with
                           | VArr _ bs, VArr _ as_ =>
                               (fix one (bs as_ : list value) {struct bs} : bool :=
                                  match bs, as_ with
                                  | x :: bs', y :: as' =>
                                      (edited x y
                                       && (fix rest (bs as_ : list value) {struct bs} : bool :=
                                             match bs, as_ with
                                             | [], [] => true
                                             | x :: bs', y :: as' => unchanged x y && rest bs' as'
                                             | _, _ => false
                                             end) bs' as')
                                      || (unchanged x y && one bs' as')
                                  | _, _ => false
                                  end) bs as_
                           | _, _ => false
                           end
                         else unchanged x (field fa k))
                        && all fb'
                    end) fb
              && forallb (fun kv => has_field fb (fst kv)
                                    || negb (strict_neq VUndefined (snd kv))) fa
              && same_builtins fb fa))
  | _, _ => false
  end.
End Edit.

(** The replacement of a streaming text node by one with the same [id]
    field, whose [value] is the old value [v] followed by [suffix] and
    whose [streaming] field is [streaming]; all fields other than [value]
    and [streaming] are unchanged. *)
Definition textEdit (id : value) (v suffix : string) (streaming : value)
    (b a : value) : bool :=
  isStreamingText b && isStreamingText a
  && value_eqb (prop b "id") id && value_eqb (prop a "id") id
  && strict_eq (prop b "key") (prop a "key")
  && value_eqb (prop b "value") (VStr v)
  && value_eqb (prop a "value") (VStr (v ++ suffix))
  && value_eqb (prop a "streaming") streaming
  && forallb (fun kv => String.eqb (fst kv) "value" || String.eqb (fst kv) "streaming"
                        || unchanged (snd kv) (prop a (fst kv)))
             (fields_of b)
  && forallb (fun kv => String.eqb (fst kv) "value" || String.eqb (fst kv) "streaming"
                        || has_field (fields_of b) (fst kv)
                        || negb (strict_neq VUndefined (snd kv)))
             (fields_of a)
  && same_builtins (fields_of b) (fields_of a).

(** The replacement of a streaming text node with id [tid] by one with the
    same id whose [value] does not start with the old value. *)
Definition textRegress (tid : string) (b a : value) : bool :=
  isStreamingText b && isStreamingText a
  && JSString.truthy tid
  && value_eqb (prop b "id") (VStr tid) && value_eqb (prop a "id") (VStr tid)
  && negb (JSString.startsWith (asString (prop a "value")) (asString (prop b "value"))).

Section Located.
Variable target : value -> value -> bool.

(** Some node of [b] and the node at the same place of [a] (the roots,
    or the same element of their [children], recursively) are a pair
    that [target] singles out; the components on the way are different
    objects in [b] and [a], and nothing is asked of the rest. *)
Fixpoint located (b a : value) {struct b} : bool :=
  match b, a with
  | VObj _ fb, VObj _ fa =>
      distinct_refs b a
      && (target b a
          || (fix find (fb : list (string * value)) {struct fb} : bool :=
                match fb with
                | [] => false
                | (k, x) :: fb' =>
                    if String.eqb k "children" then
                      match x, field fa k with
                      | VArr _ bs, VArr _ as_ =>
                          (fix some (bs as_ : list value) {struct bs} : bool :=
                             match bs, as_ with
                             | x :: bs', y :: as' => located x y || some bs' as'
                             | _, _ => false
                             end) bs as_
                      | _, _ => false
                      end
                    else find fb'
                end) fb)
  | _, _ => false
  end.
End Located.

End Widget.

(** * Threads, items and events ([src/types.ts]) *)

Module Types.
Import Widget.

Inductive ThreadStatus : Type :=
| Active
| Locked (reason : option string)
| Closed (reason : option string).

(** Dates are instants, kept as integers. *)
Module ThreadMetadata.
Record t : Type := mk {
  id : string;
  title : option string;
  created_at : Z;
  status : option ThreadStatus;
  metadata : option value
}.
End ThreadMetadata.

Module Page.
Record t (A : Type) : Type := mk {
  data : list A;
  has_more : bool;
  after : option string
}.
Arguments mk {A}.
Arguments data {A}.
Arguments has_more {A}.
Arguments after {A}.
End Page.

Record AssistantMessageContent : Type := {   (* type: "output_text" *)
  text : string;
  annotations : list value
}.

Inductive AssistantMessageUpdate : Type :=
| ContentPartAdded (content_index : nat) (content : AssistantMessageContent)
| ContentPartTextDelta (content_index : nat) (delta : string)
| ContentPartAnnotationAdded (content_index : nat) (annotation_index : nat) (annotation : value)
| ContentPartDone (content_index : nat) (content : AssistantMessageContent).

Inductive AttachmentType : Type := FileAttachment | ImageAttachment.

Record Attachment : Type := {
  attachment_id : string;
  attachment_type : AttachmentType;
  mime_type : string;
  name : string;
  upload_url : option string;
  preview_url : option string
}.

Inductive ToolCallStatus : Type := Pending | Completed.

(** What every stored item starts with. *)
Record ItemHeader : Type := {
  id : string;
  thread_id : string;
  created_at : Z
}.

(** The union [ThreadItem], one constructor per [type] tag. *)
Inductive ThreadItem : Type :=
| AssistantMessageItem (h : ItemHeader) (content : list AssistantMessageContent)
| WidgetItem (h : ItemHeader) (widget : value) (copy_text : option string)
| ClientToolCallItem (h : ItemHeader) (call_id name : string)
    (arguments output : value) (status : ToolCallStatus)
| HiddenContextItem (h : ItemHeader) (content : string)
| SDKHiddenContextItem (h : ItemHeader) (content : string)
| WorkflowItem (h : ItemHeader) (workflow : value)
| TaskItem (h : ItemHeader) (task : value)
| UserMessageItem (h : ItemHeader) (content : list value) (attachments : list Attachment)
    (quoted_text : option string) (inference_options : value)
| AttachmentItem (a : Attachment).

(** [item.id] *)
Definition item_id (item : ThreadItem) : string :=
  match item with
  | AssistantMessageItem h _ | WidgetItem h _ _ | ClientToolCallItem h _ _ _ _ _
  | HiddenContextItem h _ | SDKHiddenContextItem h _ | WorkflowItem h _ | TaskItem h _
  | UserMessageItem h _ _ _ _ => id h
  | AttachmentItem a => attachment_id a
  end.

(** [item.type] *)
Definition item_type (item : ThreadItem) : string :=
  match item with
  | AssistantMessageItem _ _ => "assistant_message"
  | WidgetItem _ _ _ => "widget"
  | ClientToolCallItem _ _ _ _ _ _ => "client_tool_call"
  | HiddenContextItem _ _ => "hidden_context"
  | SDKHiddenContextItem _ _ => "sdk_hidden_context"
  | WorkflowItem _ _ => "workflow"
  | TaskItem _ _ => "task"
  | UserMessageItem _ _ _ _ _ => "user_message"
  | AttachmentItem a =>
      match attachment_type a with
      | FileAttachment => "file"
      | ImageAttachment => "image"
      end
  end.

Module Thread.
Record t : Type := mk {
  meta : ThreadMetadata.t;
  items : Page.t ThreadItem
}.
End Thread.

Record StreamOptions : Type := { allow_cancel : bool }.

Inductive ErrorCode : Type := stream_error | custom.

Inductive ItemUpdate : Type :=
| WidgetUpdated (update : WidgetUpdate)
| AssistantMessageUpdated (update : AssistantMessageUpdate).

(** The union [ThreadStreamEvent]. *)
Inductive ThreadStreamEvent : Type :=
| ThreadCreatedEvent (thread : Thread.t)
| ThreadUpdatedEvent (thread : Thread.t)
| ThreadItemAddedEvent (item : ThreadItem)
| ThreadItemUpdatedEvent (item_id : string) (update : ItemUpdate)
| ThreadItemDoneEvent (item : ThreadItem)
| ThreadItemRemovedEvent (item_id : string)
| ThreadItemReplacedEvent (item : ThreadItem)
| StreamOptionsEvent (stream_options : StreamOptions)
| ProgressUpdateEvent (text : string)
| ClientEffectEvent (name : string) (data : option value)
| ErrorEvent (code : ErrorCode) (message : option string) (allowRetry : option bool).

End Types.

(** * The streaming widget emitter ([streamWidget]) *)

Module Emitter.
Import Widget Types.

(** What the [widget] argument of [streamWidget] is: one widget, or an
    async generator, given by the values its [next()] resolves to before
    it is done. *)
Inductive WidgetSource : Type :=
| Single (widget : value)
| Generator (states : list value).

(** A generator's output: the events yielded, and how it ended. *)
Record emission : Type := {
  events : list ThreadStreamEvent;
  ended : result unit
}.

(** The [while (true)] loop: [next()] until the generator is done or
    resolves to a falsy value; the updates of every step are yielded in
    order; a throw of [diffWidget] ends the emitter after the events
    already yielded. *)
Fixpoint streamUpdates (itemId : string) (lastState : value) (states : list value)
    : list ThreadStreamEvent * result value :=
  match states with
  | [] => ([], Ok lastState)
  | nextState :: rest =>
      if negb (truthy nextState) then ([], Ok lastState)
      else
        match diffWidget lastState nextState with
        | Err e => ([], Err e)
        | Ok updates =>
            let yielded :=
              map (fun update => ThreadItemUpdatedEvent itemId (WidgetUpdated update)) updates in
            let (more, final) := streamUpdates itemId nextState rest in
            (yielded ++ more, final)
        end
  end.

(** [streamWidget(thread, widget, copyText, generateId)], with the id
    [itemId] that [generateId("message")] returned and the instant [now]
    that [new Date()] returned. *)
Definition streamWidget (thread : ThreadMetadata.t) (widget : WidgetSource)
    (copyText : option string) (itemId : string) (now : Z) : emission :=
  let header := {| id := itemId; thread_id := ThreadMetadata.id thread; created_at := now |} in
  match widget with
  | Single w =>
      {| events := [ThreadItemDoneEvent (WidgetItem header w copyText)]; ended := Ok tt |}
  | Generator [] => {| events := []; ended := Ok tt |}
  | Generator (initialState :: rest) =>
      if negb (truthy initialState) then {| events := []; ended := Ok tt |}
      else
        let item := WidgetItem header initialState copyText in
        let (updates, final) := streamUpdates itemId initialState rest in
        match final with
        | Err e => {| events := ThreadItemAddedEvent item :: updates; ended := Err e |}
        | Ok lastState =>
            {| events := ThreadItemAddedEvent item :: updates
                         ++ [ThreadItemDoneEvent (WidgetItem header lastState copyText)];
               ended := Ok tt |}
        end
  end.

End Emitter.

(** * The store interface ([src/store.ts]) *)

Module Store.
Import Types.

Inductive StoreItemType : Type :=
| thread | message | tool_call | task | workflow | attachment | sdk_hidden_context.

Definition ID_PREFIXES (itemType : StoreItemType) : string :=
  match itemType with
  | thread => "thr"
  | message => "msg"
  | tool_call => "tc"
  | workflow => "wf"
  | task => "tsk"
  | attachment => "atc"
  | sdk_hidden_context => "shcx"
  end.

(** What a store method can read and write: the state [S] of the store
    itself and the globals of the process, the module-level [idCounter]
    and the clock that [new Date()] reads (a request is taken to run
    within one reading of the clock). *)
Record World (S : Type) : Type := {
  store : S;
  idCounter : N;
  now : Z
}.
Arguments store {S}.
Arguments idCounter {S}.
Arguments now {S}.

Definition with_store {S : Type} (w : World S) (s : S) : World S :=
  {| store := s; idCounter := idCounter w; now := now w |}.

(** [idCounter += 1] on a counter that started at 0: the sum is exact up
    to 2^53, and rounds back to 2^53 from there. *)
Definition increment (n : N) : N :=
  if (n <? 9007199254740992)%N then (n + 1)%N else n.

(** [defaultGenerateId] *)
Definition defaultGenerateId {S : Type} (itemType : StoreItemType) (w : World S)
    : string * World S :=
  let n := increment (idCounter w) in
  ((ID_PREFIXES itemType ++ "_" ++ JSString.toString16 n)%string,
   {| store := store w; idCounter := n; now := now w |}).

Inductive Order : Type := asc | desc.

(** The abstract class [Store], without its attachment methods; the
    opaque [context] every method receives is passed through unchanged
    and left out. *)
Class Store (S : Type) : Type := {
  generateThreadId : World S -> string * World S;
  generateItemId : StoreItemType -> ThreadMetadata.t -> World S -> string * World S;
  loadThread : string -> World S -> result ThreadMetadata.t * World S;
  saveThread : ThreadMetadata.t -> World S -> result unit * World S;
  loadThreadItems : string -> option string -> nat -> Order -> World S
                    -> result (Page.t ThreadItem) * World S;
  addThreadItem : string -> ThreadItem -> World S -> result unit * World S;
  saveItem : string -> ThreadItem -> World S -> result unit * World S;
  loadItem : string -> string -> World S -> result ThreadItem * World S;
  deleteThread : string -> World S -> result unit * World S;
  deleteThreadItem : string -> string -> World S -> result unit * World S
}.

End Store.

(** * The in-memory store of the example application

    [class InMemoryStore extends Store]: a [Map] from thread id to the
    thread's metadata and the array of its items, oldest first. *)

Module InMemoryStore.
Import Types Store.

Record StoredThread : Type := {
  thr : ThreadMetadata.t;
  items : list ThreadItem
}.

(** A [Map<string, _>], as the list of its entries in insertion order. *)
Definition threads : Type := list (string * StoredThread).

Fixpoint get (m : threads) (k : string) : option StoredThread :=
  match m with
  | [] => None
  | (k', v) :: m' => if String.eqb k' k then Some v else get m' k
  end.

(** [m.set(k, v)]: an existing key keeps its place. *)
Fixpoint set (m : threads) (k : string) (v : StoredThread) : threads :=
  match m with
  | [] => [(k, v)]
  | (k', v') :: m' =>
      if String.eqb k' k then (k', v) :: m' else (k', v') :: set m' k v
  end.

Fixpoint delete (m : threads) (k : string) : threads :=
  match m with
  | [] => []
  | (k', v') :: m' =>
      if String.eqb k' k then m' else (k', v') :: delete m' k
  end.

(** [all.findIndex(i => i.id === id)] *)
Fixpoint findIndex (all : list ThreadItem) (id : string) : option nat :=
  match all with
  | [] => None
  | i :: rest =>
      if String.eqb (item_id i) id then Some 0
      else match findIndex rest id with
           | Some n => Some (S n)
           | None => None
           end
  end.

(** [all.slice(start, start + limit)] *)
Definition slice (all : list ThreadItem) (start limit : nat) : list ThreadItem :=
  firstn limit (skipn start all).

Definition mem_loadThread (threadId : string) (w : World threads)
    : result ThreadMetadata.t * World threads :=
  match get (store w) threadId with
  | None =>
      (* lazily create the thread *)
      let created := ThreadMetadata.mk threadId None (now w) None None in
      (Ok created, with_store w (set (store w) threadId {| thr := created; items := [] |}))
  | Some t => (Ok (thr t), w)
  end.

Definition mem_saveThread (thread : ThreadMetadata.t) (w : World threads)
    : result unit * World threads :=
  let items :=
    match get (store w) (ThreadMetadata.id thread) with
    | Some existing => items existing
    | None => []
    end in
  (Ok tt, with_store w (set (store w) (ThreadMetadata.id thread)
                            {| thr := thread; items := items |})).

Definition mem_loadThreadItems (threadId : string) (after : option string) (limit : nat)
    (order : Order) (w : World threads) : result (Page.t ThreadItem) * World threads :=
  let stored :=
    match get (store w) threadId with
    | Some t => items t
    | None => []
    end in
  let all := match order with desc => rev stored | asc => stored end in
  let startIndex :=
    match after with
    | Some a =>
        if JSString.truthy a then
          match findIndex all a with
          | Some idx => idx + 1
          | None => 0
          end
        else 0
    | None => 0
    end in
  let slice := slice all startIndex limit in
  (Ok (Page.mk slice
               (startIndex + limit <? List.length all)%nat
               (match last (map Some slice) None with
                | Some l => Some (item_id l)
                | None => None
                end)),
   w).

Definition mem_addThreadItem (threadId : string) (item : ThreadItem) (w : World threads)
    : result unit * World threads :=
  match get (store w) threadId with
  | None => (Err (PlainError ("Thread " ++ threadId ++ " not found")), w)
  | Some t =>
      (Ok tt, with_store w (set (store w) threadId
                                {| thr := thr t; items := items t ++ [item] |}))
  end.

Fixpoint replaceItem (all : list ThreadItem) (item : ThreadItem) : option (list ThreadItem) :=
  match all with
  | [] => None
  | i :: rest =>
      if String.eqb (item_id i) (item_id item) then Some (item :: rest)
      else match replaceItem rest item with
           | Some rest' => Some (i :: rest')
           | None => None
           end
  end.

Definition mem_saveItem (threadId : string) (item : ThreadItem) (w : World threads)
    : result unit * World threads :=
  match get (store w) threadId with
  | None => (Err (PlainError ("Thread " ++ threadId ++ " not found")), w)
  | Some t =>
      let items' :=
        match replaceItem (items t) item with
        | Some l => l
        | None => items t ++ [item]
        end in
      (Ok tt, with_store w (set (store w) threadId {| thr := thr t; items := items' |}))
  end.

Definition mem_loadItem (threadId itemId : string) (w : World threads)
    : result ThreadItem * World threads :=
  match get (store w) threadId with
  | None => (Err (PlainError ("Thread " ++ threadId ++ " not found")), w)
  | Some t =>
      match find (fun i => String.eqb (item_id i) itemId) (items t) with
      | Some item => (Ok item, w)
      | None =>
          (Err (PlainError ("Item " ++ itemId ++ " not found in thread " ++ threadId)), w)
      end
  end.

Definition mem_deleteThread (threadId : string) (w : World threads)
    : result unit * World threads :=
  (Ok tt, with_store w (delete (store w) threadId)).

Definition mem_deleteThreadItem (threadId itemId : string) (w : World threads)
    : result unit * World threads :=
  match get (store w) threadId with
  | None => (Ok tt, w)
  | Some t =>
      (Ok tt, with_store w
                (set (store w) threadId
                     {| thr := thr t;
                        items := filter (fun i => negb (String.eqb (item_id i) itemId))
                                        (items t) |}))
  end.

#[export] Instance InMemoryStore : Store threads := {
  generateThreadId := defaultGenerateId thread;
  generateItemId := fun itemType _ => defaultGenerateId itemType;
  loadThread := mem_loadThread;
  saveThread := mem_saveThread;
  loadThreadItems := mem_loadThreadItems;
  addThreadItem := mem_addThreadItem;
  saveItem := mem_saveItem;
  loadItem := mem_loadItem;
  deleteThread := mem_deleteThread;
  deleteThreadItem := mem_deleteThreadItem
}.

End InMemoryStore.

(** * The server ([src/server.ts]) *)

Module Server.
Import Widget Types Store.

Definition DEFAULT_PAGE_SIZE : nat := 20.
Definition DEFAULT_ERROR_MESSAGE : string :=
  "An error occurred when generating a response.".

(** ** Async generators

    An async generator that runs in a state [St] yields events, and ends
    by returning, by throwing, or not at all within the fuel a loop was
    given. *)

Inductive completion (A : Type) : Type :=
| Returned (a : A)
| Threw (e : exn)
| OutOfFuel.
Arguments Returned {A} a.
Arguments Threw {A} e.
Arguments OutOfFuel {A}.

Record run (St A : Type) : Type := {
  emitted : list ThreadStreamEvent;
  completed : completion A;
  final : St
}.
Arguments emitted {St A}.
Arguments completed {St A}.
Arguments final {St A}.

Definition Gen (St A : Type) : Type := St -> run St A.

Definition ret {St A} (a : A) : Gen St A :=
  fun st => {| emitted := []; completed := Returned a; final := st |}.

Definition bind {St A B} (m : Gen St A) (k : A -> Gen St B) : Gen St B :=
  fun st =>
    let r := m st in
    match completed r with
    | Returned a =>
        let r' := k a (final r) in
        {| emitted := emitted r ++ emitted r'; completed := completed r'; final := final r' |}
    | Threw e => {| emitted := emitted r; completed := Threw e; final := final r |}
    | OutOfFuel => {| emitted := emitted r; completed := OutOfFuel; final := final r |}
    end.

(** [yield event] *)
Definition yield {St} (event : ThreadStreamEvent) : Gen St unit :=
  fun st => {| emitted := [event]; completed := Returned tt; final := st |}.

(** [throw e] *)
Definition throw {St A} (e : exn) : Gen St A :=
  fun st => {| emitted := []; completed := Threw e; final := st |}.

Definition timeout {St A} : Gen St A :=
  fun st => {| emitted := []; completed := OutOfFuel; final := st |}.

(** [try { m } catch (error) { handler error }] *)
Definition try_catch {St A} (m : Gen St A) (handler : exn -> Gen St A) : Gen St A :=
  fun st =>
    let r := m st in
    match completed r with
    | Threw e =>
        let r' := handler e (final r) in
        {| emitted := emitted r ++ emitted r'; completed := completed r'; final := final r' |}
    | _ => r
    end.

Definition gets {St A} (f : St -> A) : Gen St A :=
  fun st => {| emitted := []; completed := Returned (f st); final := st |}.

Definition modify {St} (f : St -> St) : Gen St unit :=
  fun st => {| emitted := []; completed := Returned tt; final := f st |}.

Declare Scope gen_scope.
Delimit Scope gen_scope with gen.
Notation "x <- m ;; k" := (bind m (fun x => k))
  (at level 61, m at next level, right associativity) : gen_scope.
Notation "m ;; k" := (bind m (fun _ => k))
  (at level 61, right associativity) : gen_scope.
Open Scope gen_scope.

(** ** Turn sources

    What [respond] / [action] return: an async iterable that, each time it
    is resumed, may read and write the world (it shares the store with the
    server), and then yields an event, returns, or throws. *)
Inductive TurnSource (S : Type) : Type :=
| SReturn
| SThrow (e : exn)
| SYield (event : ThreadStreamEvent) (rest : TurnSource S)
| SRun (effect : World S -> World S) (rest : World S -> TurnSource S).
Arguments SReturn {S}.
Arguments SThrow {S} e.
Arguments SYield {S} event rest.
Arguments SRun {S} effect rest.

(** A source that throws [e] before it yields anything, leaving the world
    [w']. *)
Fixpoint throws_first {S} (source : TurnSource S) (w : World S) : option (exn * World S) :=
  match source with
  | SThrow e => Some (e, w)
  | SRun effect rest => throws_first (rest (effect w)) (effect w)
  | SReturn | SYield _ _ => None
  end.

(** ** Pure helpers *)

Definition isHidden (item : ThreadItem) : bool :=
  String.eqb (item_type item) "hidden_context"
  || String.eqb (item_type item) "sdk_hidden_context".

(** [toThreadResponse], on a thread with its items and on bare metadata. *)
Definition toThreadResponse (thread : Thread.t) : Thread.t :=
  let items := Thread.items thread in
  Thread.mk (Thread.meta thread)
    (Page.mk (filter (fun item => negb (isHidden item)) (Page.data items))
             (Page.has_more items) (Page.after items)).

Definition toThreadResponseMetadata (thread : ThreadMetadata.t) : Thread.t :=
  toThreadResponse (Thread.mk thread (Page.mk [] false None)).

Definition emptyPart : AssistantMessageContent := {| text := ""; annotations := [] |}.

(** [while (content.length <= content_index) content.push(empty part)] *)
Definition padContent (content : list AssistantMessageContent) (content_index : nat)
    : list AssistantMessageContent :=
  content ++ repeat emptyPart (S content_index - List.length content).

(** [content[i] = part] on an index within the array *)
Fixpoint setPart (content : list AssistantMessageContent) (i : nat)
    (part : AssistantMessageContent -> AssistantMessageContent)
    : list AssistantMessageContent :=
  match content, i with
  | [], _ => []
  | c :: rest, O => part c :: rest
  | c :: rest, S i' => c :: setPart rest i' part
  end.

(** [annotations.splice(i, 0, a)] for [i <= length], [push] otherwise *)
Definition insertAnnotation (annotations : list value) (i : nat) (a : value) : list value :=
  if (i <=? List.length annotations)%nat
  then firstn i annotations ++ a :: skipn i annotations
  else annotations ++ [a].

Definition applyAssistantMessageUpdate (content : list AssistantMessageContent)
    (update : AssistantMessageUpdate) : list AssistantMessageContent :=
  match update with
  | ContentPartAdded i part => setPart (padContent content i) i (fun _ => part)
  | ContentPartTextDelta i delta =>
      setPart (padContent content i) i
        (fun c => {| text := (text c ++ delta)%string; annotations := annotations c |})
  | ContentPartAnnotationAdded i j a =>
      setPart (padContent content i) i
        (fun c => {| text := text c; annotations := insertAnnotation (annotations c) j a |})
  | ContentPartDone i part => setPart (padContent content i) i (fun _ => part)
  end.

(** The case ["thread.item.updated"] of [processEvents], on the pending
    item the update names: only a pending assistant message changes, and
    only by an assistant-message update (on a widget update
    [applyAssistantMessageUpdate] returns a copy). *)
Definition applyUpdate (pending : ThreadItem) (update : ItemUpdate) : ThreadItem :=
  match pending, update with
  | AssistantMessageItem h content, AssistantMessageUpdated u =>
      AssistantMessageItem h (applyAssistantMessageUpdate content u)
  | _, _ => pending
  end.

(** ** The class [ChatKitServer] *)

Section WithStore.
Context {S : Type} `{Store S}.

(** The methods a subclass provides or overrides. *)
Record ChatKitServer : Type := {
  respond : ThreadMetadata.t -> option ThreadItem -> TurnSource S;
  getStreamOptions : ThreadMetadata.t -> StreamOptions
}.

(** The default [getStreamOptions]. *)
Definition defaultStreamOptions (_ : ThreadMetadata.t) : StreamOptions :=
  {| allow_cancel := true |}.

(** [await this.store.method(...)] *)
Definition call {A} (method : World S -> result A * World S) : Gen (World S) A :=
  fun w =>
    let (r, w') := method w in
    {| emitted := [];
       completed := match r with Ok a => Returned a | Err e => Threw e end;
       final := w' |}.

(** [new Date()] *)
Definition newDate : Gen (World S) Z := gets now.

(** [loadFullThread] *)
Definition loadFullThread (threadId : string) : Gen (World S) Thread.t :=
  threadMeta <- call (loadThread threadId) ;;
  threadItems <- call (loadThreadItems threadId None DEFAULT_PAGE_SIZE asc) ;;
  ret (Thread.mk threadMeta threadItems).

(** *** [handleStreamCancelled] *)

(** [item.content.length === 0 || item.content.every(c => !c.text?.trim())] *)
Definition isEmpty (content : list AssistantMessageContent) : bool :=
  (List.length content =? 0)%nat
  || forallb (fun c => negb (JSString.truthy (JSString.trim (text c)))) content.

Fixpoint persistPending (threadId : string) (pendingAssistantMessages : list ThreadItem)
    : Gen (World S) unit :=
  match pendingAssistantMessages with
  | [] => ret tt
  | item :: rest =>
      (match item with
       | AssistantMessageItem _ content =>
           if negb (isEmpty content) then call (addThreadItem threadId item) else ret tt
       | _ => ret tt
       end) ;;
      persistPending threadId rest
  end.

Definition handleStreamCancelled (thread : ThreadMetadata.t)
    (pendingItems : list ThreadItem) : Gen (World S) unit :=
  let pendingAssistantMessages :=
    filter (fun item => String.eqb (item_type item) "assistant_message") pendingItems in
  persistPending (ThreadMetadata.id thread) pendingAssistantMessages ;;
  created_at <- newDate ;;
  id <- call (fun w => let (id, w') := generateItemId sdk_hidden_context thread w in
                       (Ok id, w')) ;;
  let hiddenContextItem :=
    SDKHiddenContextItem
      {| id := id; thread_id := ThreadMetadata.id thread; created_at := created_at |}
      "The user cancelled the stream. Stop responding to the prior request." in
  call (addThreadItem (ThreadMetadata.id thread) hiddenContextItem).

(** *** [processEvents] *)

(** The state of one run of [processEvents]: the world, and the local
    [pendingItems]. *)
Record Turn : Type := {
  world : World S;
  pendingItems : JSObject.record ThreadItem
}.

Definition inWorld {A} (m : Gen (World S) A) : Gen Turn A :=
  fun t =>
    let r := m (world t) in
    {| emitted := emitted r; completed := completed r;
       final := {| world := final r; pendingItems := pendingItems t |} |}.

Definition setPending (id : string) (item : ThreadItem) : Gen Turn unit :=
  modify (fun t => {| world := world t;
                      pendingItems := JSObject.set (pendingItems t) id item |}).

Definition deletePending (id : string) : Gen Turn unit :=
  modify (fun t => {| world := world t;
                      pendingItems := JSObject.delete (pendingItems t) id |}).

Definition buildThreadResponseWithPending (thread : ThreadMetadata.t) : Gen Turn Thread.t :=
  fullThread <- inWorld (loadFullThread (ThreadMetadata.id thread)) ;;
  pending <- gets pendingItems ;;
  let seen := map item_id (Page.data (Thread.items fullThread)) in
  let pendingList :=
    filter (fun item => negb (existsb (String.eqb (item_id item)) seen))
           (JSObject.values pending) in
  let mergedItems :=
    Page.mk (Page.data (Thread.items fullThread) ++ pendingList)
            (Page.has_more (Thread.items fullThread))
            (Page.after (Thread.items fullThread)) in
  ret (toThreadResponse (Thread.mk (Thread.meta fullThread) mergedItems)).

(** [thread !== lastThread]: [lastThread] is initialised to [thread],
    and neither variable is assigned again before the tests, which
    compare one reference with itself. *)
Definition threadReplaced : bool := false.

Definition shouldSwallowEvent (event : ThreadStreamEvent) : bool :=
  match event with
  | ThreadItemDoneEvent item =>
      String.eqb (item_type item) "hidden_context"
      || String.eqb (item_type item) "sdk_hidden_context"
  | _ => false
  end.

(** The body of the [for await] loop, for one event of the stream. *)
Definition processEvent (thread : ThreadMetadata.t) (event : ThreadStreamEvent)
    : Gen Turn unit :=
  (match event with
   | ThreadItemAddedEvent item => setPending (item_id item) item
   | _ => ret tt
   end) ;;
  emitThreadUpdate <-
    (match event with
     | ThreadItemDoneEvent item =>
         inWorld (call (addThreadItem (ThreadMetadata.id thread) item)) ;;
         deletePending (item_id item) ;;
         ret true
     | ThreadItemRemovedEvent item_id =>
         inWorld (call (deleteThreadItem (ThreadMetadata.id thread) item_id)) ;;
         deletePending item_id ;;
         ret true
     | ThreadItemReplacedEvent item =>
         inWorld (call (saveItem (ThreadMetadata.id thread) item)) ;;
         deletePending (item_id item) ;;
         ret true
     | ThreadItemAddedEvent _ => ret true
     | ThreadItemUpdatedEvent item_id update =>
         pending <- gets (fun t => JSObject.get (pendingItems t) item_id) ;;
         (match pending with
          | Some (AssistantMessageItem h content) =>
              setPending (id h) (applyUpdate (AssistantMessageItem h content) update)
          | _ => ret tt
          end) ;;
         ret false
     | _ => ret false
     end) ;;
  (if negb (shouldSwallowEvent event) then yield event else ret tt) ;;
  if emitThreadUpdate || threadReplaced then
    (if threadReplaced then inWorld (call (saveThread thread)) else ret tt) ;;
    fullThread <- buildThreadResponseWithPending thread ;;
    yield (ThreadUpdatedEvent fullThread)
  else ret tt.

(** [for await (const event of stream()) { ... }] *)
Fixpoint forAwait (thread : ThreadMetadata.t) (stream : TurnSource S) : Gen Turn unit :=
  match stream with
  | SReturn => ret tt
  | SThrow e => throw e
  | SYield event rest => processEvent thread event ;; forAwait thread rest
  | SRun effect rest =>
      fun t =>
        let w := effect (world t) in
        forAwait thread (rest w) {| world := w; pendingItems := pendingItems t |}
  end.

Definition errorEventOf (error : exn) : ThreadStreamEvent :=
  match error with
  | CustomStreamError msg allowRetry => ErrorEvent custom (Some msg) (Some allowRetry)
  | StreamError allowRetry => ErrorEvent stream_error None (Some allowRetry)
  | _ => ErrorEvent stream_error (Some DEFAULT_ERROR_MESSAGE) (Some true)
  end.

Definition processEvents (server : ChatKitServer) (thread : ThreadMetadata.t)
    (stream : TurnSource S) : Gen (World S) unit :=
  yield (StreamOptionsEvent (getStreamOptions server thread)) ;;
  fun w =>
    let r :=
      try_catch
        (forAwait thread stream ;;
         fullThreadAtEnd <- buildThreadResponseWithPending thread ;;
         yield (ThreadUpdatedEvent fullThreadAtEnd))
        (fun error =>
           yield (errorEventOf error) ;;
           (if threadReplaced then inWorld (call (saveThread thread)) else ret tt) ;;
           fullThread <- buildThreadResponseWithPending thread ;;
           yield (ThreadUpdatedEvent fullThread))
        {| world := w; pendingItems := JSObject.empty |} in
    {| emitted := emitted r; completed := completed r; final := world (final r) |}.

(** *** ["items.list"] of [processNonStreaming] *)

Definition itemsList (thread_id : string) (after : option string) (limit : option nat)
    (order : option Order) : Gen (World S) (Page.t ThreadItem) :=
  items <- call (loadThreadItems thread_id after
                   (match limit with Some l => l | None => DEFAULT_PAGE_SIZE end)
                   (match order with Some o => o | None => asc end)) ;;
  ret (Page.mk
         (filter (fun item => negb (String.eqb (item_type item) "hidden_context")
                              && negb (String.eqb (item_type item) "sdk_hidden_context"))
                 (Page.data items))
         (Page.has_more items) (Page.after items)).

(** *** ["threads.retry_after_item"] of [processStreamingImpl] *)

(** What the loop over one page of [paginateThreadItemsReverse] leaves:
    the user message found, or the items to remove collected so far. *)
Fixpoint scanPage (item_id_param : string) (data : list ThreadItem)
    (itemsToRemove : list ThreadItem)
    : result (option ThreadItem * list ThreadItem) :=
  match data with
  | [] => Ok (None, itemsToRemove)
  | item :: rest =>
      if String.eqb (item_id item) item_id_param then
        if String.eqb (item_type item) "user_message"
        then Ok (Some item, itemsToRemove)
        else Err (PlainError ("Item " ++ item_id_param ++ " is not a user message"))
      else scanPage item_id_param rest (itemsToRemove ++ [item])
  end.

(** The [for await] loop over [paginateThreadItemsReverse(thread_id)]:
    the generator loads a page (in ["asc"] order), yields its items to
    the loop body, and loads the next page after [items.after] while
    [has_more]; the [break] of the body ends it.  [fuel] bounds the
    number of pages. *)
Fixpoint paginateThreadItemsReverse (fuel : nat) (thread_id item_id_param : string)
    (after : option string) (itemsToRemove : list ThreadItem)
    : Gen (World S) (option ThreadItem * list ThreadItem) :=
  match fuel with
  | O => timeout
  | Datatypes.S fuel' =>
      items <- call (loadThreadItems thread_id after DEFAULT_PAGE_SIZE asc) ;;
      match scanPage item_id_param (Page.data items) itemsToRemove with
      | Err e => throw e
      | Ok (Some userMessageItem, itemsToRemove') =>
          ret (Some userMessageItem, itemsToRemove')
      | Ok (None, itemsToRemove') =>
          if negb (Page.has_more items) then ret (None, itemsToRemove')
          else paginateThreadItemsReverse fuel' thread_id item_id_param
                 (Page.after items) itemsToRemove'
      end
  end.

Fixpoint deleteItems (thread_id : string) (itemsToRemove : list ThreadItem)
    : Gen (World S) unit :=
  match itemsToRemove with
  | [] => ret tt
  | item :: rest =>
      call (deleteThreadItem thread_id (item_id item)) ;;
      deleteItems thread_id rest
  end.

Definition retryAfterItem (fuel : nat) (server : ChatKitServer)
    (thread_id item_id_param : string) : Gen (World S) unit :=
  threadMetadata <- call (loadThread thread_id) ;;
  found <- paginateThreadItemsReverse fuel thread_id item_id_param None [] ;;
  match found with
  | (Some userMessageItem, itemsToRemove) =>
      deleteItems thread_id itemsToRemove ;;
      processEvents server threadMetadata
        (respond server threadMetadata (Some userMessageItem))
  | (None, _) => ret tt
  end.

End WithStore.

End Server.

(** * Auxiliary definitions for the diff engine

    The functions in which the recursive functions of [Widget] unfold, and
    the relations the lemmas about the traversal are stated with. *)

Module WidgetSpec.
Import Widget.

Fixpoint any2 {A B : Type} (f : A -> B -> bool) (xs : list A) (ys : list B) : bool :=
  match xs, ys with
  | x :: xs', y :: ys' => f x y || any2 f xs' ys'
  | _, _ => false
  end.

Fixpoint all2 {A B : Type} (f : A -> B -> bool) (xs : list A) (ys : list B) : bool :=
  match xs, ys with
  | [], [] => true
  | x :: xs', y :: ys' => f x y && all2 f xs' ys'
  | _, _ => false
  end.

Fixpoint foldM {A S : Type} (f : A -> S -> result S) (xs : list A) (s : S) : result S :=
  match xs with
  | [] => Ok s
  | x :: xs' =>
      match f x s with
      | Ok s' => foldM f xs' s'
      | Err e => Err e
      end
  end.

Definition andThen {A B : Type} (r : result A) (f : A -> result B) : result B :=
  match r with
  | Ok a => f a
  | Err e => Err e
  end.

(** [for (const child of comp.children ?? [])] *)
Definition forChildren (children : value) (acc : components) : result components :=
  match children with
  | VUndefined | VNull | VStr _ => Ok acc
  | VArr _ cs => foldM recurse cs acc
  | VBool _ | VNum _ | VObj _ _ => Err TypeError
  end.

(** What an element of an array contributes to [Array.prototype.join]. *)
Definition elemString (x : value) : result string :=
  match x with
  | VUndefined | VNull => Ok ""
  | _ => toString x
  end.

Fixpoint join (elems : list value) (sep : string) : result string :=
  match elems with
  | [] => Ok ""
  | x :: rest =>
      match elemString x with
      | Err e => Err e
      | Ok s =>
          match join rest "," with
          | Err e => Err e
          | Ok t => Ok (sep ++ s ++ t)%string
          end
      end
  end.

Definition children_elems (children : value) : list value :=
  match children with
  | VArr _ cs => cs
  | _ => []
  end.

Definition fields_unchanged (fb fa : list (string * value)) : bool :=
  forallb (fun kv => unchanged (snd kv) (field fa (fst kv))) fb
  && forallb (fun kv => has_field fb (fst kv) || negb (strict_neq VUndefined (snd kv))) fa
  && same_builtins fb fa.

Fixpoint one_edited (E U : value -> value -> bool) (bs as_ : list value) : bool :=
  match bs, as_ with
  | x :: bs', y :: as' => (E x y && all2 U bs' as') || (U x y && one_edited E U bs' as')
  | _, _ => false
  end.

Definition edited_children (target : value -> value -> bool) (x y : value) : bool :=
  match x, y with
  | VArr _ bs, VArr _ as_ => one_edited (edited target) unchanged bs as_
  | _, _ => false
  end.

Definition path_fields (target : value -> value -> bool)
    (fb fa : list (string * value)) : bool :=
  forallb (fun kv => if String.eqb (fst kv) "children"
                     then edited_children target (snd kv) (field fa (fst kv))
                     else unchanged (snd kv) (field fa (fst kv))) fb
  && forallb (fun kv => has_field fb (fst kv) || negb (strict_neq VUndefined (snd kv))) fa
  && same_builtins fb fa.

(** [edited], read on the value of a [children] field as well. *)
Definition edited_any (target : value -> value -> bool) (v a : value) : bool :=
  match v with
  | VArr _ _ => edited_children target v a
  | _ => edited target v a
  end.

Definition located_children (target : value -> value -> bool) (x y : value) : bool :=
  match x, y with
  | VArr _ bs, VArr _ as_ => any2 (located target) bs as_
  | _, _ => false
  end.

Definition located_any (target : value -> value -> bool) (v a : value) : bool :=
  match v with
  | VArr _ _ => located_children target v a
  | _ => located target v a
  end.

Definition iterable_children (children : value) : bool :=
  match children with
  | VUndefined | VNull | VStr _ => true
  | VArr _ cs => forallb iterable cs
  | VBool _ | VNum _ | VObj _ _ => false
  end.

Definition count (ids : list string) (k : string) : nat := count_occ string_dec ids k.

(** The ids a value holds for the traversal: those of the tree, or those
    of the elements when the value is the array of a [children] field. *)
Definition ids_any (x : value) : list string :=
  match x with
  | VArr _ cs => flat_map textIds cs
  | _ => textIds x
  end.

(** The own properties of two [components] are related by [R]. *)
Definition crel (R : string -> value -> value -> Prop) (c1 c2 : components) : Prop :=
  JSObject.rel R (own c1) (own c2).

(** Two traversals ended alike: both threw, or both returned records
    related by [R]. *)
Definition relres (R : string -> value -> value -> Prop)
    (r1 r2 : result components) : Prop :=
  match r1, r2 with
  | Ok c1, Ok c2 => crel R c1 c2
  | Err _, Err _ => True
  | _, _ => False
  end.

(** The second record owns the id [tid], unless [lax] holds. *)
Definition holds (tid : string) (lax : Prop) (c : components) : Prop :=
  JSObject.has (own c) tid = true \/ lax.

(** Two traversals ended alike, and the record of the second holds the id
    [tid]. *)
Definition relres_has (tid : string) (lax : Prop) (R : string -> value -> value -> Prop)
    (r1 r2 : result components) : Prop :=
  match r1, r2 with
  | Ok c1, Ok c2 => crel R c1 c2 /\ holds tid lax c2
  | Err _, Err _ => True
  | _, _ => False
  end.

(** None of the ids is [tid], unless [lax] holds. *)
Definition avoids (tid : string) (lax : Prop) (ids : list string) : Prop :=
  forall k, In k ids -> k <> tid \/ lax.

(** Exactly one of the ids is [tid], unless [lax] holds. *)
Definition cond (tid : string) (lax : Prop) (ids : list string) : Prop :=
  count ids tid = 1 \/ lax.

(** How the nodes registered under the id [k] by the traversals of the
    two snapshots of an edit are related: both are streaming texts; under
    [tid], the value [v] was extended by [suffix] and the new [streaming]
    field is [s]; under any other id (and under [tid] as well when the
    suffix is empty) the value is the same. *)
Definition Redit (tid v suffix : string) (s : value) (k : string) (nb na : value) : Prop :=
  isStreamingText nb = true /\ isStreamingText na = true
  /\ ((k = tid /\ asString (prop nb "value") = v
       /\ asString (prop na "value") = (v ++ suffix)%string
       /\ prop na "streaming" = s)
      \/ (asString (prop nb "value") = asString (prop na "value")
          /\ (k <> tid \/ suffix = EmptyString))).

End WidgetSpec.

(** * Auxiliary definitions for the server *)

Module ServerSpec.
Import Widget Types Store Server InMemoryStore.

Definition emits_only {St A} (P : ThreadStreamEvent -> Prop) (m : Gen St A) : Prop :=
  forall st e, In e (emitted (m st)) -> P e.

Definition noHidden (thread : Thread.t) : bool :=
  forallb (fun item => negb (isHidden item)) (Page.data (Thread.items thread)).

(** An event that shows no hidden item: not the "done" of one, and not a
    snapshot that lists one. *)
Definition clean (event : ThreadStreamEvent) : bool :=
  match event with
  | ThreadItemDoneEvent item => negb (isHidden item)
  | ThreadUpdatedEvent snapshot => noHidden snapshot
  | _ => true
  end.

(** The events a turn source yields, in some world. *)
Fixpoint yields {S} (stream : TurnSource S) (event : ThreadStreamEvent) : Prop :=
  match stream with
  | SYield e rest => e = event \/ yields rest event
  | SRun _ rest => exists w, yields (rest w) event
  | SReturn | SThrow _ => False
  end.

(** What [processEvent] may emit for [event]: an event that shows no
    hidden item, or [event] itself when it is a [thread.updated]. *)
Definition passes (event : ThreadStreamEvent) (e : ThreadStreamEvent) : Prop :=
  clean e = true \/ ((exists t, e = ThreadUpdatedEvent t) /\ e = event).

(** What [processEvents] may emit over [stream]: an event that shows no
    hidden item, or a [thread.updated] that the stream itself yields. *)
Definition allowed {S : Type} (stream : TurnSource S) (e : ThreadStreamEvent) : Prop :=
  clean e = true \/ ((exists t, e = ThreadUpdatedEvent t) /\ yields stream e).

Fixpoint blank (s : string) : bool :=
  match s with
  | EmptyString => true
  | String c s' => JSString.is_white_space c && blank s'
  end.

(** A pending item that cancellation persists: an assistant message some
    part of which has text that is not blank. *)
Definition persistable (item : ThreadItem) : bool :=
  match item with
  | AssistantMessageItem _ content => existsb (fun c => negb (blank (text c))) content
  | _ => false
  end.

Section Cancellation.
Context {S : Type} `{Store S}.

(** [addThreadItem] on each of the items, in order. *)
Fixpoint persistAll (threadId : string) (items : list ThreadItem) : Gen (World S) unit :=
  match items with
  | [] => ret tt
  | item :: rest => call (addThreadItem threadId item) ;; persistAll threadId rest
  end.

(** Cancellation as the specification words it: every pending item that is
    an assistant message with text that is not blank is persisted as it
    is, and one new hidden-context item is appended. *)
Definition cancellation (thread : ThreadMetadata.t) (pendingItems : list ThreadItem)
    : Gen (World S) unit :=
  persistAll (ThreadMetadata.id thread) (filter persistable pendingItems) ;;
  created_at <- newDate ;;
  id <- call (fun w => let (id, w') := generateItemId sdk_hidden_context thread w in
                       (Ok id, w')) ;;
  call (addThreadItem (ThreadMetadata.id thread)
          (SDKHiddenContextItem
             {| id := id; thread_id := ThreadMetadata.id thread; created_at := created_at |}
             "The user cancelled the stream. Stop responding to the prior request.")).
End Cancellation.

Definition appended (w : World threads) (threadId : string) (stored : StoredThread)
    (added : list ThreadItem) : World threads :=
  with_store w (set (store w) threadId
                    {| thr := thr stored; items := items stored ++ added |}).

(** The hidden item that cancellation appends, with the id the default
    generator makes in the world [w]. *)
Definition cancelledItem (thread : ThreadMetadata.t) (w : World threads) : ThreadItem :=
  SDKHiddenContextItem
    {| id := ("shcx_" ++ JSString.toString16 (increment (idCounter w)))%string;
       thread_id := ThreadMetadata.id thread;
       created_at := now w |}
    "The user cancelled the stream. Stop responding to the prior request.".

(** The cursor after which the page at [start] begins. *)
Definition cursor (all : list ThreadItem) (start : nat) (d : ThreadItem) : option string :=
  match start with
  | O => None
  | Datatypes.S n => Some (item_id (nth n all d))
  end.

Definition startIndexOf (all : list ThreadItem) (after : option string) : nat :=
  match after with
  | Some a =>
      if JSString.truthy a then
        match findIndex all a with
        | Some idx => idx + 1
        | None => 0
        end
      else 0
  | None => 0
  end.

Definition eventItemId (event : ThreadStreamEvent) : option string :=
  match event with
  | ThreadItemAddedEvent item | ThreadItemDoneEvent item | ThreadItemReplacedEvent item =>
      Some (item_id item)
  | ThreadItemUpdatedEvent id _ | ThreadItemRemovedEvent id => Some id
  | _ => None
  end.

End ServerSpec.

(** * Sample data *)

Module Samples.
Import Widget Types Store Server InMemoryStore.

Definition textNode (ref : nat) (id text : string) (streaming : bool) : value :=
  VObj ref [("type", VStr "Text"); ("id", VStr id); ("value", VStr text);
            ("streaming", VBool streaming)].

Definition markdownNode (ref : nat) (id text : string) (streaming : bool) : value :=
  VObj ref [("type", VStr "Markdown"); ("id", VStr id); ("value", VStr text);
            ("streaming", VBool streaming)].

Definition cardOf (ref refChildren : nat) (children : list value) : value :=
  VObj ref [("type", VStr "Card"); ("children", VArr refChildren children)].

(** A Transition, whose [children] is one component and not an array. *)
Definition transitionOf (ref : nat) (child : value) : value :=
  VObj ref [("type", VStr "Transition"); ("children", child)].

(** The two snapshots of the emitter example. *)
Definition emptyText (ref : nat) : value :=
  VObj ref [("type", VStr "Text"); ("id", VStr "t"); ("value", VStr "")].

Definition helloText (ref : nat) : value :=
  VObj ref [("type", VStr "Text"); ("id", VStr "t"); ("value", VStr "Hello, world");
            ("streaming", VBool false)].

Definition testThread : ThreadMetadata.t :=
  ThreadMetadata.mk "thr_test" (Some "Test") 0 None None.

Definition header (id : string) : ItemHeader :=
  {| id := id; thread_id := "thr_test"; created_at := 0 |}.

Definition userMessage : ThreadItem :=
  UserMessageItem (header "msg_1")
    [VObj 1 [("type", VStr "input_text"); ("text", VStr "Hello")]] [] None VUndefined.

Definition widget1 : ThreadItem :=
  WidgetItem (header "widget_1") (VObj 2 [("type", VStr "Text"); ("value", VStr "Response")]) None.

Definition widget2 : ThreadItem :=
  WidgetItem (header "widget_2") (VObj 3 [("type", VStr "Text"); ("value", VStr "More")]) None.

Definition assistant (content : string) : ThreadItem :=
  AssistantMessageItem (header "msg_2") [{| text := content; annotations := [] |}].

Definition hiddenItem : ThreadItem :=
  HiddenContextItem (header "hc_1") "remember this".

Definition worldOf (items : list ThreadItem) : World threads :=
  {| store := [("thr_test", {| thr := testThread; items := items |})];
     idCounter := 0;
     now := 0 |}.

Definition items_of (w : World threads) : list ThreadItem :=
  match get (store w) "thr_test" with
  | Some t => items t
  | None => []
  end.

(** A server whose [respond] yields nothing. *)
Definition quietServer : ChatKitServer (S := threads) :=
  {| respond := fun _ _ => SReturn; getStreamOptions := defaultStreamOptions |}.

End Samples.

(** * Auxiliary definitions for further properties of the diff engine *)

Module DiffSpec.
Import Widget WidgetSpec.

(** The objects and arrays that the comparison of [b] with [a] brings
    face to face, place by place, are the same value whenever they carry
    the same reference: what holds of any two values of one heap. *)
Fixpoint coherent (b a : value) {struct b} : bool :=
  match b, a with
  | VArr r bs, VArr r' as_ =>
      if (r =? r')%nat then value_eqb b a
      else
        (fix all (bs as_ : list value) {struct bs} : bool :=
           match bs, as_ with
           | x :: bs', y :: as' => coherent x y && all bs' as'
           | _, _ => true
           end) bs as_
  | VObj r fb, VObj r' fa =>
      if (r =? r')%nat then value_eqb b a
      else
        (fix all (fb : list (string * value)) {struct fb} : bool :=
           match fb with
           | [] => true
           | (k, x) :: fb' => coherent x (field fa k) && all fb'
           end) fb
  | _, _ => true
  end.

Fixpoint coherent_list (bs as_ : list value) : bool :=
  match bs, as_ with
  | x :: bs', y :: as' => coherent x y && coherent_list bs' as'
  | _, _ => true
  end.

Definition coherent_fields (fb fa : list (string * value)) : bool :=
  forallb (fun kv => coherent (snd kv) (field fa (fst kv))) fb.

(** A streaming-text delta that carries some text. *)
Definition carriesText (update : WidgetUpdate) : bool :=
  match update with
  | WidgetStreamingTextValueDelta _ delta _ => JSString.truthy delta
  | WidgetRootUpdated _ => false
  end.

Definition delta_id (update : WidgetUpdate) : option string :=
  match update with
  | WidgetStreamingTextValueDelta id _ _ => Some id
  | WidgetRootUpdated _ => None
  end.

(** The [children] arrays of two components differ in length: a child was
    added or removed. *)
Definition childrenResized (b a : value) : bool :=
  match prop b "children", prop a "children" with
  | VArr _ bs, VArr _ as_ => negb (List.length bs =? List.length as_)%nat
  | _, _ => false
  end.

(** How the nodes registered under one id by the traversals of two
    snapshots are related when the first needs no full replace: both are
    streaming texts, and the value of the second starts with the value of
    the first. *)
Definition Rprefix (k : string) (nb na : value) : Prop :=
  isStreamingText nb = true /\ isStreamingText na = true
  /\ JSString.startsWith (asString (prop na "value")) (asString (prop nb "value")) = true.

(** Two streaming texts with the same value. *)
Definition Rsame (k : string) (nb na : value) : Prop :=
  isStreamingText nb = true /\ isStreamingText na = true
  /\ asString (prop nb "value") = asString (prop na "value").

End DiffSpec.

(** * Auxiliary definitions for the emitter and for message updates *)

Module EmitterSpec.
Import Widget Types Emitter Server.

(** The snapshot a producer leaves behind: the last one it gave before it
    was done or resolved to a falsy value. *)
Fixpoint lastSnapshot (lastState : value) (states : list value) : value :=
  match states with
  | [] => lastState
  | nextState :: rest =>
      if truthy nextState then lastSnapshot nextState rest else lastState
  end.

Definition isDone (event : ThreadStreamEvent) : bool :=
  match event with
  | ThreadItemDoneEvent _ => true
  | _ => false
  end.

(** [update.content_index] *)
Definition content_index (update : AssistantMessageUpdate) : nat :=
  match update with
  | ContentPartAdded i _ | ContentPartTextDelta i _
  | ContentPartAnnotationAdded i _ _ | ContentPartDone i _ => i
  end.

(** [content[i]], or the empty part the padding puts there. *)
Definition partAt (content : list AssistantMessageContent) (i : nat)
    : AssistantMessageContent :=
  nth i content emptyPart.

End EmitterSpec.

(** * The widget emitter on a producer that can fail

    [streamWidget] on an async generator whose [next()] may reject: the
    rejection leaves [streamWidget] at the [await], after the events
    already yielded. *)

Module Producer.
Import Widget Types Emitter.

(** An async generator as [streamWidget] drives it: each [next()]
    resolves to a value, finds the generator done, or rejects. *)
Inductive t : Type :=
| Finished
| Rejects (error : exn)
| Resolves (state : value) (rest : t).

(** The producer that resolves to the values of a list and then goes on
    as [ending]. *)
Fixpoint resolves (states : list value) (ending : t) : t :=
  match states with
  | [] => ending
  | state :: rest => Resolves state (resolves rest ending)
  end.

(** The [while (true)] loop. *)
Fixpoint streamUpdates (itemId : string) (lastState : value) (producer : t)
    : list ThreadStreamEvent * result value :=
  match producer with
  | Finished => ([], Ok lastState)
  | Rejects error => ([], Err error)
  | Resolves nextState rest =>
      if negb (truthy nextState) then ([], Ok lastState)
      else
        match diffWidget lastState nextState with
        | Err e => ([], Err e)
        | Ok updates =>
            let yielded :=
              map (fun update => ThreadItemUpdatedEvent itemId (WidgetUpdated update)) updates in
            let (more, final) := streamUpdates itemId nextState rest in
            (yielded ++ more, final)
        end
  end.

(** [streamWidget(thread, widget, copyText, generateId)] when [widget] is
    an async generator. *)
Definition streamWidget (thread : ThreadMetadata.t) (producer : t)
    (copyText : option string) (itemId : string) (now : Z) : emission :=
  let header := {| id := itemId; thread_id := ThreadMetadata.id thread; created_at := now |} in
  match producer with
  | Finished => {| events := []; ended := Ok tt |}
  | Rejects error => {| events := []; ended := Err error |}
  | Resolves initialState rest =>
      if negb (truthy initialState) then {| events := []; ended := Ok tt |}
      else
        let item := WidgetItem header initialState copyText in
        let (updates, final) := streamUpdates itemId initialState rest in
        match final with
        | Err e => {| events := ThreadItemAddedEvent item :: updates; ended := Err e |}
        | Ok lastState =>
            {| events := ThreadItemAddedEvent item :: updates
                         ++ [ThreadItemDoneEvent (WidgetItem header lastState copyText)];
               ended := Ok tt |}
        end
  end.

End Producer.

(** * Stream errors ([src/errors.ts]) *)

Module Errors.

(** [enum ErrorCode]: the codes a [StreamError] is built with; its one
    member has the value "stream.error". *)
Inductive ErrorCode : Type :=
| STREAM_ERROR.

Definition ErrorCode_value (code : ErrorCode) : string :=
  match code with
  | STREAM_ERROR => "stream.error"
  end.

(** The own properties of the object [DEFAULT_ALLOW_RETRY]. *)
Definition DEFAULT_ALLOW_RETRY : JSObject.record bool :=
  [(ErrorCode_value STREAM_ERROR, true)].

(** [new StreamError(code, options)], with [options?.allowRetry] when it
    is neither [null] nor [undefined], and [DEFAULT_ALLOW_RETRY[code] ??
    false] when it is; the key of every code is an own property of the
    table. *)
Definition newStreamError (code : ErrorCode) (allowRetry : option bool) : exn :=
  StreamError
    (match allowRetry with
     | Some b => b
     | None =>
         match JSObject.get DEFAULT_ALLOW_RETRY (ErrorCode_value code) with
         | Some b => b
         | None => false
         end
     end).

(** [new CustomStreamError(message, options)] *)
Definition newCustomStreamError (message : string) (allowRetry : option bool) : exn :=
  CustomStreamError message
    (match allowRetry with
     | Some b => b
     | None => false
     end).

End Errors.

(** * Auxiliary definitions for further properties of the server *)

Module CoordinatorSpec.
Import Widget Types Store Server ServerSpec.

(** A generator that ends, by returning or by throwing. *)
Definition finishes {St A} (m : Gen St A) : Prop :=
  forall st, completed (m st) <> OutOfFuel.

Section WithStore.
Context {S : Type} `{Store S}.

(** The store can load the thread and the first page of its items, in
    whatever world it is asked. *)
Definition loadable (thread : ThreadMetadata.t) : Prop :=
  forall w, exists meta w1 page w2,
    loadThread (ThreadMetadata.id thread) w = (Ok meta, w1)
    /\ loadThreadItems (ThreadMetadata.id thread) None DEFAULT_PAGE_SIZE asc w1
       = (Ok page, w2).

(** The [try] ... [catch] of [processEvents] with its loop at [stream]:
    what the coordinator does with the rest of a turn. *)
Definition remainder (thread : ThreadMetadata.t) (stream : TurnSource S) : Gen Turn unit :=
  try_catch
    (forAwait thread stream ;;
     fullThreadAtEnd <- buildThreadResponseWithPending thread ;;
     yield (ThreadUpdatedEvent fullThreadAtEnd))
    (fun error =>
       yield (errorEventOf error) ;;
       (if threadReplaced then inWorld (call (saveThread thread)) else ret tt) ;;
       fullThread <- buildThreadResponseWithPending thread ;;
       yield (ThreadUpdatedEvent fullThread)).

End WithStore.

End CoordinatorSpec.

(** * Request handlers of [processStreamingImpl] and [processNonStreaming]

    The cases of the two [switch]es that use only the methods of [Store]
    above, each as a function of the parameters of its request. *)

Module Requests.
Import Widget Types Store Server.

(** [item.status], which only a client tool call has. *)
Definition item_status (item : ThreadItem) : option ToolCallStatus :=
  match item with
  | ClientToolCallItem _ _ _ _ _ status => Some status
  | _ => None
  end.

(** [item.type === "client_tool_call" && item.status === "pending"] *)
Definition isPendingClientToolCall (item : ThreadItem) : bool :=
  String.eqb (item_type item) "client_tool_call"
  && match item_status item with
     | Some Pending => true
     | _ => false
     end.

(** [item.widget === undefined] *)
Definition widgetUndefined (item : ThreadItem) : bool :=
  match item with
  | WidgetItem _ widget _ => strict_eq widget VUndefined
  | _ => true
  end.

Section WithStore.
Context {S : Type} `{Store S}.

(** The method [action] of the server, which a subclass overrides. *)
Definition Action : Type := ThreadMetadata.t -> value -> option ThreadItem -> TurnSource S.

(** The [action] of [ChatKitServer] itself, which throws when called. *)
Definition defaultAction : Action :=
  fun _ _ _ =>
    SThrow (PlainError "The action() method must be overridden to react to actions.").

(** The loop of [cleanupPendingClientToolCall] over the page it loaded. *)
Fixpoint cleanupItems (thread_id : string) (data : list ThreadItem) : Gen (World S) unit :=
  match data with
  | [] => ret tt
  | toolCall :: rest =>
      (if negb (String.eqb (item_type toolCall) "client_tool_call") then ret tt
       else
         match item_status toolCall with
         | Some Pending => call (deleteThreadItem thread_id (item_id toolCall))
         | _ => ret tt
         end) ;;
      cleanupItems thread_id rest
  end.

Definition cleanupPendingClientToolCall (thread : ThreadMetadata.t) : Gen (World S) unit :=
  items <- call (loadThreadItems (ThreadMetadata.id thread) None DEFAULT_PAGE_SIZE desc) ;;
  cleanupItems (ThreadMetadata.id thread) (Page.data items).

Definition processNewThreadItemRespond (server : ChatKitServer) (thread : ThreadMetadata.t)
    (item : ThreadItem) : Gen (World S) unit :=
  call (addThreadItem (ThreadMetadata.id thread) item) ;;
  cleanupPendingClientToolCall thread ;;
  yield (ThreadItemDoneEvent item) ;;
  processEvents server thread (respond server thread (Some item)).

(** The case ["threads.custom_action"], with the [thread_id], [item_id]
    and [action] of [request.params]. *)
Definition customAction (server : ChatKitServer) (action : Action)
    (thread_id : string) (item_id_param : option string) (action_param : value)
    : Gen (World S) unit :=
  threadMetadata <- call (loadThread thread_id) ;;
  item <- (match item_id_param with
           | Some id =>
               if JSString.truthy id
               then (loaded <- call (loadItem thread_id id) ;; ret (Some loaded))
               else ret None
           | None => ret None
           end) ;;
  match item with
  | Some sender =>
      if widgetUndefined sender
      then yield (ErrorEvent stream_error None (Some false))
      else processEvents server threadMetadata (action threadMetadata action_param item)
  | None => processEvents server threadMetadata (action threadMetadata action_param None)
  end.

(** The case ["threads.update"], which returns the thread it serializes. *)
Definition threadsUpdate (thread_id : string) (title : option string)
    : Gen (World S) Thread.t :=
  thread <- call (loadThread thread_id) ;;
  let thread :=
    ThreadMetadata.mk (ThreadMetadata.id thread) title (ThreadMetadata.created_at thread)
      (ThreadMetadata.status thread) (ThreadMetadata.metadata thread) in
  call (saveThread thread) ;;
  ret (toThreadResponseMetadata thread).

(** The case ["threads.get_by_id"] *)
Definition threadsGetById (thread_id : string) : Gen (World S) Thread.t :=
  thread <- loadFullThread thread_id ;;
  ret (toThreadResponse thread).

(** The case ["threads.delete"] *)
Definition threadsDelete (thread_id : string) : Gen (World S) unit :=
  call (deleteThread thread_id).

End WithStore.

End Requests.

(** * ["threads.add_client_tool_output"], over the in-memory store

    The page that the in-memory store returns holds the stored objects
    themselves: the item found in the page of one item, in descending
    order, is the last stored item of the thread, and the two assignments
    to it change the store before [saveItem] is called. *)

Module ToolOutput.
Import Widget Types Store Server InMemoryStore Requests.

(** [toolCall.output = result; toolCall.status = "completed"] *)
Definition completeToolCall (toolCall : ThreadItem) (result : value) : ThreadItem :=
  match toolCall with
  | ClientToolCallItem h call_id name arguments _ _ =>
      ClientToolCallItem h call_id name arguments result Completed
  | other => other
  end.

(** What the assignments do to the store: the last item of the thread is
    now [item]. *)
Definition assignLast (threadId : string) (item : ThreadItem)
    (w : World threads) : World threads :=
  match get (store w) threadId with
  | Some t =>
      with_store w
        (set (store w) threadId
           {| thr := thr t;
              items := removelast (items t) ++ [item] |})
  | None => w
  end.

Definition addClientToolOutput (server : ChatKitServer (S := threads))
    (thread_id : string) (result : value) : Gen (World threads) unit :=
  thread <- call (loadThread thread_id) ;;
  items <- call (loadThreadItems (ThreadMetadata.id thread) None 1 desc) ;;
  match find isPendingClientToolCall (Page.data items) with
  | None =>
      throw (PlainError ("Last thread item in " ++ ThreadMetadata.id thread
                         ++ " was not a ClientToolCallItem"))
  | Some toolCall =>
      let toolCall := completeToolCall toolCall result in
      modify (assignLast (ThreadMetadata.id thread) toolCall) ;;
      call (saveItem (ThreadMetadata.id thread) toolCall) ;;
      cleanupPendingClientToolCall thread ;;
      processEvents server thread (respond server thread None)
  end.

End ToolOutput.

(** * Auxiliary definitions for the stores *)

Module StoreSpec.
Import Types Store InMemoryStore Requests.

(** The ids that [defaultGenerateId] returns when it is called once for
    each of [itemTypes], in order. *)
Fixpoint generateIds {S : Type} (itemTypes : list StoreItemType) (w : World S)
    : list string * World S :=
  match itemTypes with
  | [] => ([], w)
  | itemType :: rest =>
      let (id, w1) := defaultGenerateId itemType w in
      let (ids, w2) := generateIds rest w1 in
      (id :: ids, w2)
  end.

(** Reading an id back: the part after the first underscore, and the
    number its hexadecimal digits write. *)
Fixpoint afterUnderscore (s : string) : string :=
  match s with
  | EmptyString => EmptyString
  | String c s' => if Ascii.eqb c "_" then s' else afterUnderscore s'
  end.

Definition hex_digit_value (c : ascii) : N :=
  let n := N_of_ascii c in
  if (n <? 58)%N then (n - 48)%N else (n - 87)%N.

Fixpoint hex_value (acc : N) (s : string) : N :=
  match s with
  | EmptyString => acc
  | String c s' => hex_value (acc * 16 + hex_digit_value c)%N s'
  end.

(** The items of a stored thread, none when the thread is not stored. *)
Definition itemsOf (w : World threads) (threadId : string) : list ThreadItem :=
  match get (store w) threadId with
  | Some t => items t
  | None => []
  end.

(** The ids of the pending client tool calls among the most recent items
    of a thread, as many as a page holds. *)
Definition recentPending (all : list ThreadItem) : list string :=
  map item_id (filter isPendingClientToolCall (firstn Server.DEFAULT_PAGE_SIZE (rev all))).

(** The items that do not carry one of [ids]. *)
Definition without (ids : list string) (all : list ThreadItem) : list ThreadItem :=
  filter (fun i => negb (existsb (String.eqb (item_id i)) ids)) all.

(** The thread [threadId] with the items [all], in the store of [w]. *)
Definition withItems (w : World threads) (threadId : string) (stored : StoredThread)
    (all : list ThreadItem) : World threads :=
  with_store w (set (store w) threadId {| thr := thr stored; items := all |}).

(** A turn source that yields the events of a list and returns. *)
Fixpoint yieldAll {S : Type} (events : list ThreadStreamEvent) : Server.TurnSource S :=
  match events with
  | [] => Server.SReturn
  | event :: rest => Server.SYield event (yieldAll rest)
  end.

(** A turn source that yields the events of a list and then goes on as
    [ending]. *)
Fixpoint yieldThen {S : Type} (events : list ThreadStreamEvent)
    (ending : Server.TurnSource S) : Server.TurnSource S :=
  match events with
  | [] => ending
  | event :: rest => Server.SYield event (yieldThen rest ending)
  end.

(** The source is at its end: it returns, or it throws. *)
Definition isEnding {S : Type} (source : Server.TurnSource S) : bool :=
  match source with
  | Server.SReturn | Server.SThrow _ => true
  | _ => false
  end.

(** What an event of the turn source asks of the stored items of the
    thread: a done item is appended, a removed item is dropped, a replaced
    item takes the place of the item with its id or is appended; no other
    event changes them. *)
Definition storedAfter (all : list ThreadItem) (event : ThreadStreamEvent)
    : list ThreadItem :=
  match event with
  | ThreadItemDoneEvent item => all ++ [item]
  | ThreadItemRemovedEvent id => filter (fun i => negb (String.eqb (item_id i) id)) all
  | ThreadItemReplacedEvent item =>
      match replaceItem all item with
      | Some l => l
      | None => all ++ [item]
      end
  | _ => all
  end.

End StoreSpec.

(** * Further sample data *)

Module RequestSamples.
Import Widget Types Store Server InMemoryStore Samples.

Definition toolCall (id : string) (status : ToolCallStatus) : ThreadItem :=
  ClientToolCallItem (header id) ("call_" ++ id) "lookup" VNull VUndefined status.

Definition renamed (title : string) : ThreadMetadata.t :=
  ThreadMetadata.mk "thr_test" (Some title) 0 None None.

End RequestSamples.

(** * The event queue ([src/helpers/async-queue.ts])

    [class AsyncQueue<T>]: the items waiting for a consumer, the resolvers
    of the promises waiting for an item, and the completion flag.  The
    promises that [next()] returns are named by the order of the calls: the
    resolver that a call pushes resolves the promise of that call. *)

Module AsyncQueue.

(** What a promise of [next()] resolves to: [{ value, done: false }] or
    [{ value: undefined, done: true }]. *)
Inductive IteratorResult (T : Type) : Type :=
| Value (value : T)
| Finished.
Arguments Value {T} value.
Arguments Finished {T}.

Record t (T : Type) : Type := {
  items : list T;
  resolvers : list nat;
  done : bool
}.
Arguments items {T}.
Arguments resolvers {T}.
Arguments done {T}.

Section Queue.
Context {T : Type}.

Definition empty : t T := {| items := []; resolvers := []; done := false |}.

(** [enqueue(item)], with the promises it resolves. *)
Definition enqueue (item : T) (q : t T) : t T * list (nat * IteratorResult T) :=
  if done q then (q, [])
  else
    match resolvers q with
    | resolver :: rest =>
        ({| items := items q; resolvers := rest; done := done q |}, [(resolver, Value item)])
    | [] => ({| items := items q ++ [item]; resolvers := []; done := done q |}, [])
    end.

(** [complete()] *)
Definition complete (q : t T) : t T * list (nat * IteratorResult T) :=
  if done q then (q, [])
  else ({| items := items q; resolvers := []; done := true |},
        map (fun r => (r, Finished)) (resolvers q)).

(** [next()] of the iterator, called for the promise [promise]. *)
Definition next (promise : nat) (q : t T) : t T * list (nat * IteratorResult T) :=
  match items q with
  | value :: rest =>
      ({| items := rest; resolvers := resolvers q; done := done q |}, [(promise, Value value)])
  | [] =>
      if done q then (q, [(promise, Finished)])
      else ({| items := []; resolvers := resolvers q ++ [promise]; done := done q |}, [])
  end.

(** The calls a producer and its consumers make. *)
Inductive operation : Type :=
| Enqueue (item : T)
| Complete
| Next.

(** The state of a run: the queue, the number of [next()] calls made,
    and the promises resolved so far. *)
Record trace : Type := {
  queue : t T;
  calls : nat;
  resolved : list (nat * IteratorResult T)
}.

Definition step (st : trace) (op : operation) : trace :=
  match op with
  | Enqueue item =>
      let (q, rs) := enqueue item (queue st) in
      {| queue := q; calls := calls st; resolved := resolved st ++ rs |}
  | Complete =>
      let (q, rs) := complete (queue st) in
      {| queue := q; calls := calls st; resolved := resolved st ++ rs |}
  | Next =>
      let (q, rs) := next (calls st) (queue st) in
      {| queue := q; calls := S (calls st); resolved := resolved st ++ rs |}
  end.

(** The calls [ops], in order, on a new queue. *)
Definition run (ops : list operation) : trace :=
  fold_left step ops {| queue := empty; calls := 0; resolved := [] |}.

(** The items enqueued before the queue was completed. *)
Fixpoint accepted (ops : list operation) : list T :=
  match ops with
  | [] => []
  | Enqueue item :: rest => item :: accepted rest
  | Complete :: _ => []
  | Next :: rest => accepted rest
  end.

Definition isComplete (op : operation) : bool :=
  match op with
  | Complete => true
  | _ => false
  end.

Definition isNext (op : operation) : bool :=
  match op with
  | Next => true
  | _ => false
  end.

(** What the promise [p] is resolved with, when the items [acc] were
    accepted: the item at its position, or the end once the queue is
    completed. *)
Definition expected (acc : list T) (completed : bool) (p : nat) (r : IteratorResult T)
    : Prop :=
  match nth_error acc p with
  | Some item => r = Value item
  | None => completed = true /\ r = Finished
  end.

(** The state of a run in which the items [acc] were accepted and
    [next()] was called [n] times. *)
Definition consistent (acc : list T) (n : nat) (completed : bool) (st : trace) : Prop :=
  calls st = n
  /\ done (queue st) = completed
  /\ items (queue st) = skipn n acc
  /\ resolvers (queue st)
     = (if completed then [] else seq (List.length acc) (n - List.length acc))
  /\ NoDup (map fst (resolved st))
  /\ forall p r, In (p, r) (resolved st) <-> p < n /\ expected acc completed p r.

End Queue.

End AsyncQueue.

(** * Properties of strings *)

Module JSStringFacts.
Import JSString.

Lemma startsWith_app (a b : string) : startsWith (a ++ b) a = true.
Proof.
  unfold startsWith. induction a as [|c a IH]; simpl.
  - destruct b; reflexivity.
  - destruct (Ascii.ascii_dec c c) as [_|ne]; [exact IH | now elim ne].
Qed.

Lemma startsWith_refl (a : string) : startsWith a a = true.
Proof.
  unfold startsWith. induction a as [|c a IH]; simpl; [reflexivity|].
  destruct (Ascii.ascii_dec c c) as [_|ne]; [exact IH | now elim ne].
Qed.

Lemma slice_app (a b : string) : slice (a ++ b) (String.length a) = b.
Proof. induction a as [|c a IH]; simpl; [reflexivity | exact IH]. Qed.

Lemma startsWith_split (s p : string) :
  startsWith s p = true -> s = (p ++ slice s (String.length p))%string.
Proof.
  unfold startsWith. revert s. induction p as [|c p IH]; intros s H.
  - reflexivity.
  - destruct s as [|d s]; simpl in H; [discriminate H|].
    destruct (Ascii.ascii_dec c d) as [e|ne]; [subst d|discriminate H].
    simpl. f_equal. now apply IH.
Qed.

End JSStringFacts.

(** * Properties of records *)

Module JSObjectFacts.
Import JSObject.

Section One.
Context {A : Type}.
Implicit Types (r : record A) (k : string) (v : A).

Lemma has_in_keys r k : has r k = true <-> In k (keys r).
Proof.
  unfold has, keys. induction r as [|[k' v'] r IH]; simpl; [split; [discriminate | tauto]|].
  destruct (String.eqb k' k) eqn:E.
  - apply String.eqb_eq in E. subst. split; auto.
  - apply String.eqb_neq in E. rewrite IH. split; [now right | intros [?|?]; [contradiction | assumption]].
Qed.

Lemma keys_replace r k v : keys (replace r k v) = keys r.
Proof.
  unfold keys. induction r as [|[k' v'] r IH]; simpl; [reflexivity|].
  destruct (String.eqb k' k); simpl; [reflexivity | now rewrite IH].
Qed.

Lemma in_keys_insert_index r n k v k' :
  In k' (keys (insert_index r n k v)) <-> k' = k \/ In k' (keys r).
Proof.
  unfold keys. induction r as [|[k0 v0] r IH]; simpl; [intuition|].
  destruct (array_index k0) as [n0|]; [destruct (n0 <? n)%N|]; simpl; rewrite ?IH; intuition.
Qed.

Lemma NoDup_insert_index r n k v :
  ~ In k (keys r) -> NoDup (keys r) -> NoDup (keys (insert_index r n k v)).
Proof.
  unfold keys. induction r as [|[k0 v0] r IH]; simpl; intros Hk Hn.
  - constructor; [tauto | constructor].
  - assert (Hcons : NoDup (k :: k0 :: map fst r)) by (constructor; simpl; tauto).
    destruct (array_index k0) as [n0|]; [destruct (n0 <? n)%N|]; simpl; try exact Hcons.
    inversion Hn; subst. constructor.
    + change (~ In k0 (keys (insert_index r n k v))). rewrite in_keys_insert_index.
      intros [->|?]; tauto.
    + apply IH; tauto.
Qed.

Lemma in_keys_set r k v k' : In k' (keys (set r k v)) <-> k' = k \/ In k' (keys r).
Proof.
  unfold set. destruct (has r k) eqn:E.
  - rewrite keys_replace. apply has_in_keys in E. split; [tauto | intros [->|?]; assumption].
  - destruct (array_index k) as [n|].
    + apply in_keys_insert_index.
    + unfold keys. rewrite map_app, in_app_iff. simpl. intuition congruence.
Qed.

Lemma NoDup_keys_set r k v : NoDup (keys r) -> NoDup (keys (set r k v)).
Proof.
  intros Hn. unfold set. destruct (has r k) eqn:E.
  - now rewrite keys_replace.
  - assert (Hk : ~ In k (keys r)).
    { intros Hin. apply has_in_keys in Hin. congruence. }
    destruct (array_index k) as [n|].
    + now apply NoDup_insert_index.
    + unfold keys in *. rewrite map_app. simpl.
      apply NoDup_app; [assumption | constructor; [tauto | constructor] |].
      intros x Hx [<-|[]]. contradiction.
Qed.

Lemma has_set_same r k v : has (set r k v) k = true.
Proof. apply has_in_keys, in_keys_set. now left. Qed.

Lemma has_set_keeps r k v k' : has r k' = true -> has (set r k v) k' = true.
Proof. rewrite !has_in_keys, in_keys_set. tauto. Qed.

Lemma get_in_NoDup r k v : NoDup (keys r) -> In (k, v) r -> get r k = Some v.
Proof.
  unfold keys. induction r as [|[k' v'] r IH]; simpl; [tauto|].
  intros Hn [H|H].
  - inversion H; subst. now rewrite String.eqb_refl.
  - inversion Hn; subst.
    destruct (String.eqb k' k) eqn:E; [|now apply IH].
    apply String.eqb_eq in E. subst k'. exfalso.
    match goal with Hnot : ~ In k _ |- _ => apply Hnot end.
    change k with (fst (k, v)). now apply in_map.
Qed.
End One.

Section Two.
Context {A B : Type}.
Variable R : string -> A -> B -> Prop.

Lemma rel_empty : rel R empty empty.
Proof. constructor. Qed.

Lemma rel_keys r1 r2 : rel R r1 r2 -> keys r1 = keys r2.
Proof. unfold keys. induction 1 as [|[k a] [k' b] r1 r2 [E _] _ IH]; simpl in *; congruence. Qed.

Lemma rel_has r1 r2 k : rel R r1 r2 -> has r1 k = has r2 k.
Proof.
  intros H. apply rel_keys in H.
  destruct (has r1 k) eqn:E1, (has r2 k) eqn:E2; try reflexivity.
  - apply has_in_keys in E1. rewrite H in E1. apply has_in_keys in E1. congruence.
  - apply has_in_keys in E2. rewrite <- H in E2. apply has_in_keys in E2. congruence.
Qed.

Lemma rel_get r1 r2 k b :
  rel R r1 r2 -> get r2 k = Some b -> exists a, get r1 k = Some a /\ R k a b.
Proof.
  induction 1 as [|[k1 a1] [k2 b2] r1 r2 [E HR] _ IH]; simpl in *; [discriminate|].
  subst k2. destruct (String.eqb k1 k) eqn:Ek.
  - apply String.eqb_eq in Ek. subst. intros [= <-]. eauto.
  - exact IH.
Qed.

Lemma rel_replace r1 r2 k a b :
  rel R r1 r2 -> R k a b -> rel R (replace r1 k a) (replace r2 k b).
Proof.
  intros H HR. induction H as [|[k1 a1] [k2 b2] r1 r2 [E HR'] H IH]; simpl in *;
    [constructor|].
  subst k2. destruct (String.eqb k1 k) eqn:Ek.
  - apply String.eqb_eq in Ek. subst. constructor; [split; auto | exact H].
  - constructor; [split; auto | exact IH].
Qed.

Lemma rel_insert_index r1 r2 n k a b :
  rel R r1 r2 -> R k a b -> rel R (insert_index r1 n k a) (insert_index r2 n k b).
Proof.
  intros H HR. induction H as [|[k1 a1] [k2 b2] r1 r2 [E HR'] H IH]; simpl in *.
  - constructor; [split; auto | constructor].
  - subst k2.
    assert (Hcons : rel R ((k, a) :: (k1, a1) :: r1) ((k, b) :: (k1, b2) :: r2)).
    { constructor; [split; auto|]. constructor; [split; auto | exact H]. }
    destruct (array_index k1) as [n1|]; [destruct (n1 <? n)%N|]; try exact Hcons.
    constructor; [split; auto | exact IH].
Qed.

Lemma rel_set r1 r2 k a b :
  rel R r1 r2 -> R k a b -> rel R (set r1 k a) (set r2 k b).
Proof.
  intros H HR. unfold set. rewrite <- (rel_has k H).
  destruct (has r1 k).
  - now apply rel_replace.
  - destruct (array_index k) as [n|].
    + now apply rel_insert_index.
    + apply Forall2_app; [exact H|]. constructor; [split; auto | constructor].
Qed.

Lemma rel_entries r1 r2 :
  rel R r1 r2 -> NoDup (keys r2) ->
  Forall (fun kb => exists a, get r1 (fst kb) = Some a /\ R (fst kb) a (snd kb)) r2.
Proof.
  intros H Hn. apply Forall_forall. intros [k b] Hin.
  apply (rel_get k H). now apply get_in_NoDup.
Qed.
End Two.

End JSObjectFacts.

(** * Properties of the diff engine *)

Module WidgetFacts.
Import Widget WidgetSpec JSStringFacts.

(** ** The recursive functions, one level unfolded *)

Lemma fullReplaceValue_arr r bs r' as_ :
  fullReplaceValue (VArr r bs) (VArr r' as_) =
  negb (List.length bs =? List.length as_)%nat || any2 fullReplaceValue bs as_.
Proof.
  simpl. destruct (List.length bs =? List.length as_)%nat; simpl; [|reflexivity].
  revert as_. induction bs as [|b bs IH]; intros [|a as_]; simpl; try reflexivity.
  now rewrite IH.
Qed.

Lemma fullReplaceValue_obj r fb a :
  fullReplaceValue (VObj r fb) a =
  if strict_neq (VObj r fb) a then
    if is_object a && has_field fb "type" && has_field (fields_of a) "type"
    then fullReplaceBody fullReplaceValue (VObj r fb) fb a
    else true
  else false.
Proof. reflexivity. Qed.

Lemma fullReplaceValue_missing a :
  fullReplaceValue VUndefined a = fullReplaceMissing a.
Proof. reflexivity. Qed.

Lemma recurse_obj r fs acc :
  recurse (VObj r fs) acc =
  andThen (register (VObj r fs) acc) (forChildren (field fs "children")).
Proof.
  cbn [recurse]. destruct (register (VObj r fs) acc) as [acc0|e]; [|reflexivity].
  cbn [andThen].
  induction fs as [|[k c] fs IH]; simpl; [reflexivity|].
  destruct (String.eqb k "children"); [|exact IH].
  destruct c; try reflexivity.
  simpl. generalize acc0. induction elems as [|x xs IHx]; intros acc1; simpl; [reflexivity|].
  destruct (recurse x acc1); [apply IHx | reflexivity].
Qed.

Lemma textIds_obj r fs :
  textIds (VObj r fs) =
  own_id (VObj r fs) ++ flat_map textIds (children_elems (field fs "children")).
Proof.
  simpl. f_equal.
  induction fs as [|[k c] fs IH]; simpl; [reflexivity|].
  destruct (String.eqb k "children"); [|exact IH].
  destruct c; reflexivity.
Qed.

Lemma unchanged_arr r bs r' as_ :
  unchanged (VArr r bs) (VArr r' as_) =
  value_eqb (VArr r bs) (VArr r' as_) || all2 unchanged bs as_.
Proof.
  cbn [unchanged]. f_equal.
  revert as_. induction bs as [|b bs IH]; intros [|a as_]; simpl; try reflexivity.
  now rewrite IH.
Qed.

Lemma unchanged_obj r fb r' fa :
  unchanged (VObj r fb) (VObj r' fa) =
  value_eqb (VObj r fb) (VObj r' fa)
  || (has_field fb "type" && has_field fa "type"
      && same_header (VObj r fb) (VObj r' fa)
      && fields_unchanged fb fa).
Proof.
  cbn [unchanged]. f_equal. unfold fields_unchanged.
  rewrite !andb_assoc. f_equal. f_equal. f_equal.
  induction fb as [|[k x] fb IH]; simpl; [reflexivity | now rewrite IH].
Qed.

(** ** Identity and strict equality *)

Lemma strict_eq_refl v : strict_eq v v = true.
Proof.
  destruct v; simpl; auto using Bool.eqb_reflx, String.eqb_refl, Nat.eqb_refl.
Qed.

Lemma value_eqb_eq x : forall y, value_eqb x y = true -> x = y.
Proof.
  induction x as [| |b|n|s|r elems IH|r fs IH] using value_ind;
    intros [| |b'|n'|s'|r' elems'|r' fs']; simpl; try discriminate; try reflexivity.
  - intros H. apply Bool.eqb_prop in H. now subst.
  - intros H. apply String.eqb_eq in H. now subst.
  - intros H. apply String.eqb_eq in H. now subst.
  - intros H. apply andb_true_iff in H as [Hr H]. apply Nat.eqb_eq in Hr. subst r'.
    f_equal. revert elems' H.
    induction IH as [|x xs Hx _ IHxs]; intros [|y ys] H; try discriminate; [reflexivity|].
    apply andb_true_iff in H as [H1 H2]. f_equal; auto.
  - intros H. apply andb_true_iff in H as [Hr H]. apply Nat.eqb_eq in Hr. subst r'.
    f_equal. revert fs' H.
    induction IH as [|[k x] xs Hx _ IHxs]; intros [|[k' y] ys] H; try discriminate; [reflexivity|].
    apply andb_true_iff in H as [H1 H3]. apply andb_true_iff in H1 as [H1 H2].
    apply String.eqb_eq in H1. subst k'. simpl in Hx. f_equal; [f_equal|]; auto.
Qed.

Lemma value_eqb_refl x : value_eqb x x = true.
Proof.
  induction x as [| |b|n|s|r elems IH|r fs IH] using value_ind; simpl;
    auto using Bool.eqb_reflx, String.eqb_refl.
  - rewrite Nat.eqb_refl. simpl.
    induction IH as [|x xs Hx _ IHxs]; [reflexivity|]. now rewrite Hx, IHxs.
  - rewrite Nat.eqb_refl. simpl.
    induction IH as [|[k x] xs Hx _ IHxs]; [reflexivity|].
    simpl in Hx. now rewrite String.eqb_refl, Hx, IHxs.
Qed.

Lemma field_has fs k : has_field fs k = false -> field fs k = VUndefined.
Proof.
  induction fs as [|[k' v] fs IH]; simpl; [reflexivity|].
  destruct (String.eqb k' k); simpl; [discriminate | exact IH].
Qed.

Lemma field_in fs k : has_field fs k = true -> In (k, field fs k) fs.
Proof.
  induction fs as [|[k' v] fs IH]; simpl; [discriminate|].
  destruct (String.eqb k' k) eqn:E; simpl.
  - apply String.eqb_eq in E. subst. now left.
  - intros H. right. now apply IH.
Qed.

Lemma in_has_field fs k v : In (k, v) fs -> has_field fs k = true.
Proof.
  induction fs as [|[k' v'] fs IH]; simpl; [tauto|].
  intros [H|H].
  - inversion H; subst. now rewrite String.eqb_refl.
  - rewrite (IH H). apply orb_true_r.
Qed.

Lemma field_defined fs k : field fs k <> VUndefined -> has_field fs k = true.
Proof.
  intros H. destruct (has_field fs k) eqn:E; [reflexivity|].
  now apply field_has in E.
Qed.

Lemma isStreamingText_obj v :
  isStreamingText v = true ->
  exists r fs s, v = VObj r fs /\ field fs "type" = VStr "Text" /\ field fs "value" = VStr s.
Proof.
  unfold isStreamingText, prop. intros H. apply andb_true_iff in H as [H1 H2].
  destruct v as [| | | | | |r fs]; simpl in *; try discriminate H1.
  destruct (field fs "type") eqn:Et; simpl in H1; try discriminate H1.
  apply String.eqb_eq in H1. subst.
  destruct (field fs "value") eqn:Ev; simpl in H2; try discriminate H2.
  exists r, fs, s. auto.
Qed.

(** ** Comparing a value with itself, and with an unchanged one *)

Lemma any2_false {A B} (f : A -> B -> bool) xs ys :
  Forall2 (fun x y => f x y = false) xs ys -> any2 f xs ys = false.
Proof. induction 1 as [|x y xs ys H _ IH]; simpl; [reflexivity | now rewrite H, IH]. Qed.

Lemma all2_Forall2 {A B} (f : A -> B -> bool) xs ys :
  all2 f xs ys = true <-> Forall2 (fun x y => f x y = true) xs ys.
Proof.
  split.
  - revert ys. induction xs as [|x xs IH]; intros [|y ys] H; simpl in H;
      try discriminate; constructor.
    + now apply andb_true_iff in H.
    + apply IH. now apply andb_true_iff in H.
  - induction 1 as [|x y xs ys H _ IH]; simpl; [reflexivity | now rewrite H, IH].
Qed.

Lemma Forall2_length_eqb {A B} (P : A -> B -> Prop) xs ys :
  Forall2 P xs ys -> (List.length xs =? List.length ys)%nat = true.
Proof. intros H. apply Nat.eqb_eq. induction H; simpl; congruence. Qed.

Lemma fullReplaceValue_refl v : fullReplaceValue v v = false.
Proof.
  induction v as [| |b|n|s|r elems IH|r fs IH] using value_ind;
    try (simpl; unfold strict_neq; now rewrite strict_eq_refl).
  rewrite fullReplaceValue_arr, Nat.eqb_refl. simpl.
  apply any2_false. induction IH; constructor; auto.
Qed.

Lemma same_builtins_inherited fb fa k :
  same_builtins fb fa = true ->
  (has_field fb k = true -> inherited fa k = false)
  /\ (has_field fa k = true -> inherited fb k = false).
Proof.
  intros H. unfold same_builtins in H. rewrite forallb_forall in H.
  unfold inherited, builtin_name.
  destruct (existsb (String.eqb k) Object_prototype) eqn:E;
    [|split; intros _; apply andb_false_r].
  apply existsb_exists in E as (k' & Hin & E). apply String.eqb_eq in E. subst k'.
  specialize (H _ Hin). apply Bool.eqb_prop in H.
  split; intros Hk; [rewrite <- H | rewrite H]; now rewrite Hk.
Qed.

(** The field loop of [fullReplace] finds nothing when every field of
    [before] it does not skip compares without a replace, and every field
    only [after] has is skipped or [undefined]. *)
Lemma fullReplaceBody_false rec before fb after :
  same_header before after = true ->
  same_builtins fb (fields_of after) = true ->
  (forall k x, In (k, x) fb ->
               exempt before after k = true \/ rec x (prop after k) = false) ->
  (forall k y, In (k, y) (fields_of after) ->
               has_field fb k = true \/ exempt before after k = true
               \/ y = VUndefined) ->
  fullReplaceBody rec before fb after = false.
Proof.
  intros Hh Hsb Hb Ha. unfold fullReplaceBody, same_header, strict_neq in *.
  apply andb_true_iff in Hh as [Hh Hkey]. apply andb_true_iff in Hh as [Htype Hid].
  rewrite Htype, Hid, Hkey. simpl.
  apply orb_false_iff. split.
  - apply not_true_is_false. intros H. apply existsb_exists in H as [[k x] [Hin H]].
    apply andb_true_iff in H as [H1 H2].
    rewrite (proj1 (same_builtins_inherited _ _ k Hsb) (in_has_field _ _ _ Hin)) in H2.
    destruct (Hb k x Hin) as [E|E]; [now rewrite E in H1 | simpl in H2; congruence].
  - apply not_true_is_false. intros H. apply existsb_exists in H as [[k y] [Hin H]].
    apply andb_true_iff in H as [H1 H3]. apply andb_true_iff in H1 as [H1 H2].
    rewrite (proj2 (same_builtins_inherited _ _ k Hsb) (in_has_field _ _ _ Hin)) in H3.
    destruct (Ha k y Hin) as [E|[E|E]].
    + now rewrite E in H1.
    + now rewrite E in H2.
    + subst y. discriminate H3.
Qed.

Lemma unchanged_refl v : unchanged v v = true.
Proof.
  assert (H := value_eqb_refl v).
  destruct v; cbn [unchanged]; rewrite H; reflexivity.
Qed.

Lemma missing_undefined y : negb (strict_neq VUndefined y) = true -> y = VUndefined.
Proof. destruct y; simpl; try discriminate; reflexivity. Qed.

(** An unchanged value is no replace trigger, and an unchanged component
    needs no full replace. *)
Lemma unchanged_no_replace b :
  forall a, unchanged b a = true -> fullReplaceValue b a = false.
Proof.
  induction b as [| |b|n|s|r elems IH|r fs IH] using value_ind; intros a H.
  1-5: (apply orb_true_iff in H as [H|H];
        [apply value_eqb_eq in H; subst a; apply fullReplaceValue_refl
        | destruct a; discriminate H]).
  - destruct a as [| | | | |r' as_|]; try (simpl in H; discriminate H).
    rewrite unchanged_arr in H. apply orb_true_iff in H as [H|H].
    { apply value_eqb_eq in H. rewrite <- H. apply fullReplaceValue_refl. }
    apply all2_Forall2 in H. rewrite fullReplaceValue_arr.
    rewrite (Forall2_length_eqb H). simpl.
    apply any2_false. clear r r'.
    induction H as [|x y xs ys Hxy _ IHxs]; constructor.
    + inversion IH; subst. auto.
    + inversion IH; subst. auto.
  - destruct a as [| | | | | |r' fa]; try (simpl in H; discriminate H).
    rewrite unchanged_obj in H. apply orb_true_iff in H as [H|H].
    { apply value_eqb_eq in H. rewrite <- H. apply fullReplaceValue_refl. }
    apply andb_true_iff in H as [H Hf]. apply andb_true_iff in H as [H Hh].
    apply andb_true_iff in H as [Htb Hta].
    rewrite fullReplaceValue_obj.
    destruct (strict_neq (VObj r fs) (VObj r' fa)); [|reflexivity].
    cbn [is_object fields_of]. rewrite Htb, Hta. cbn [andb].
    unfold fields_unchanged in Hf. apply andb_true_iff in Hf as [Hf Hsb].
    apply andb_true_iff in Hf as [Hf1 Hf2].
    rewrite forallb_forall in Hf1, Hf2. rewrite Forall_forall in IH.
    apply fullReplaceBody_false; [exact Hh | exact Hsb | |].
    + intros k x Hin. right. apply (IH _ Hin). apply (Hf1 _ Hin).
    + intros k y Hin. specialize (Hf2 _ Hin). cbn [fst snd] in Hf2.
      apply orb_true_iff in Hf2 as [E|E]; [now left|].
      right; right. now apply missing_undefined.
Qed.

(** ** Edits that do not trigger a full replace *)

Lemma edited_obj target r fb r' fa :
  edited target (VObj r fb) (VObj r' fa) =
  distinct_refs (VObj r fb) (VObj r' fa)
  && (target (VObj r fb) (VObj r' fa)
      || (has_field fb "type" && has_field fa "type"
          && same_header (VObj r fb) (VObj r' fa)
          && has_field fb "children"
          && path_fields target fb fa)).
Proof.
  cbn [edited]. f_equal. f_equal. unfold path_fields.
  rewrite !andb_assoc. f_equal. f_equal. f_equal.
  induction fb as [|[k x] fb IH]; [reflexivity|].
  cbn [forallb fst snd]. rewrite <- IH. f_equal.
  destruct (String.eqb k "children"); [|reflexivity].
  destruct x; try reflexivity.
  destruct (field fa k); try reflexivity.
  cbn [edited_children].
  generalize elems0 as as_. induction elems as [|b bs IHb]; intros [|a as_]; try reflexivity.
  cbn [one_edited]. rewrite <- IHb. f_equal. f_equal.
  generalize as_ as ys. clear. induction bs as [|b bs IHb]; intros [|y ys]; try reflexivity.
  cbn [all2]. now rewrite <- IHb.
Qed.

Lemma edited_is_any target v a : edited target v a = true -> edited_any target v a = true.
Proof. destruct v; simpl; try discriminate. auto. Qed.

Lemma one_edited_Forall2 (E U : value -> value -> bool) bs as_ :
  one_edited E U bs as_ = true ->
  Forall2 (fun x y => E x y = true \/ U x y = true) bs as_.
Proof.
  revert as_. induction bs as [|b bs IH]; intros [|a as_] H; simpl in H; try discriminate.
  apply orb_true_iff in H as [H|H]; apply andb_true_iff in H as [H1 H2].
  - constructor; [now left|]. apply all2_Forall2 in H2.
    eapply Forall2_impl; [|exact H2]. intros; now right.
  - constructor; [now right | now apply IH].
Qed.

Lemma Forall2_Forall_l {A B} (P : A -> Prop) (Q R : A -> B -> Prop) xs ys :
  Forall P xs -> Forall2 Q xs ys ->
  (forall x y, P x -> Q x y -> R x y) -> Forall2 R xs ys.
Proof.
  intros HP HQ HR. induction HQ; constructor; inversion HP; subst; auto.
Qed.

Section EditedNoReplace.
Variable target : value -> value -> bool.
Hypothesis target_ok : forall b a,
  target b a = true ->
  fullReplace b a = false
  /\ has_field (fields_of b) "type" = true /\ has_field (fields_of a) "type" = true.

Lemma edited_no_replace_aux v :
  forall a, edited_any target v a = true ->
            fullReplaceValue v a = false
            /\ match v with VObj _ _ => fullReplace v a = false | _ => True end.
Proof.
  induction v as [| |b|n|s|r elems IH|r fs IH] using value_ind; intros a H;
    try discriminate H.
  - split; [|exact I].
    destruct a as [| | | | |r' as_|]; try discriminate H.
    cbn [edited_any edited_children] in H.
    apply one_edited_Forall2 in H.
    rewrite fullReplaceValue_arr, (Forall2_length_eqb H). simpl.
    apply any2_false. eapply Forall2_Forall_l; [exact IH | exact H |].
    intros x y Px [E|U].
    + apply edited_is_any in E. now apply Px.
    + now apply unchanged_no_replace.
  - destruct a as [| | | | | |r' fa]; try discriminate H.
    cbn [edited_any] in H. rewrite edited_obj in H.
    apply andb_true_iff in H as [Hd H].
    assert (Hneq : strict_neq (VObj r fs) (VObj r' fa) = true) by exact Hd.
    assert (Hbody : fullReplace (VObj r fs) (VObj r' fa) = false
                    /\ has_field fs "type" = true /\ has_field fa "type" = true).
    { apply orb_true_iff in H as [H|H]; [now apply target_ok|].
      repeat (apply andb_true_iff in H as [H ?]).
      repeat split; try assumption.
      unfold fullReplace. cbn [fields_of].
      match goal with Hp : path_fields _ _ _ = true |- _ =>
        unfold path_fields in Hp; apply andb_true_iff in Hp as [Hf Hsb];
        apply andb_true_iff in Hf as [Hf1 Hf2] end.
      rewrite forallb_forall in Hf1, Hf2. rewrite Forall_forall in IH.
      apply fullReplaceBody_false; [assumption | exact Hsb | |].
      - intros k x Hin. right. specialize (Hf1 _ Hin). cbn [fst snd] in Hf1.
        destruct (String.eqb k "children").
        + apply (IH _ Hin). cbn [snd].
          unfold edited_children in Hf1. destruct x; try discriminate Hf1. exact Hf1.
        + now apply unchanged_no_replace.
      - intros k y Hin. specialize (Hf2 _ Hin). cbn [fst snd] in Hf2.
        apply orb_true_iff in Hf2 as [E|E]; [now left|].
        right; right. now apply missing_undefined. }
    destruct Hbody as (Hb & Htb & Hta). split; [|exact Hb].
    rewrite fullReplaceValue_obj, Hneq. cbn [is_object fields_of].
    rewrite Htb, Hta. exact Hb.
Qed.

(** An edit whose target needs no full replace needs none at the root. *)
Lemma edited_no_replace b a :
  edited target b a = true -> fullReplace b a = false.
Proof.
  intros H. destruct b; try discriminate H.
  apply edited_is_any in H. now apply edited_no_replace_aux in H.
Qed.
End EditedNoReplace.

(** Both exemptions of the field loop: the extended [value] and the
    [streaming] field of a Text node are skipped, and its other fields are
    unchanged. *)
Lemma textEdit_no_replace id v suffix s b a :
  textEdit id v suffix s b a = true ->
  fullReplace b a = false
  /\ has_field (fields_of b) "type" = true /\ has_field (fields_of a) "type" = true.
Proof.
  unfold textEdit. intros H. rewrite !andb_true_iff in H.
  destruct H as [[[[[[[[[[Hb Ha] Hidb] Hida] Hkey] Hvb] Hva] Hs] Hf1] Hf2] Hsb].
  destruct (isStreamingText_obj _ Hb) as (rb & fb & sb & -> & Htb & Hvb').
  destruct (isStreamingText_obj _ Ha) as (ra & fa & sa & -> & Hta & Hva').
  unfold prop in *. cbn [fields_of] in *.
  apply value_eqb_eq in Hidb, Hida, Hvb, Hva, Hs.
  assert (Hexv : exempt (VObj rb fb) (VObj ra fa) "value" = true).
  { unfold exempt, prop. cbn [fields_of].
    rewrite Hb, Ha, Hvb, Hva. cbn [andb String.eqb asString].
    now rewrite JSStringFacts.startsWith_app. }
  assert (Hexs : exempt (VObj rb fb) (VObj ra fa) "streaming" = true).
  { unfold exempt. rewrite Hb, Ha. cbn [andb]. apply orb_true_r. }
  rewrite forallb_forall in Hf1, Hf2.
  repeat split.
  - unfold fullReplace. cbn [fields_of].
    apply fullReplaceBody_false.
    + unfold same_header, prop. cbn [fields_of].
      rewrite Htb, Hta, Hidb, Hida, Hkey, !strict_eq_refl. reflexivity.
    + exact Hsb.
    + intros k x Hin. specialize (Hf1 _ Hin). cbn [fst snd] in Hf1.
      apply orb_true_iff in Hf1 as [Hf1|Hf1];
        [apply orb_true_iff in Hf1 as [Hf1|Hf1]; apply String.eqb_eq in Hf1; subst k; now left|].
      right. now apply unchanged_no_replace.
    + intros k y Hin. specialize (Hf2 _ Hin). cbn [fst snd] in Hf2.
      apply orb_true_iff in Hf2 as [Hf2|Hf2];
        [apply orb_true_iff in Hf2 as [Hf2|Hf2];
         [apply orb_true_iff in Hf2 as [Hf2|Hf2]; apply String.eqb_eq in Hf2; subst k;
          right; now left | now left] |].
      right; right. now apply missing_undefined.
  - apply field_defined. congruence.
  - apply field_defined. congruence.
Qed.

(** ** Changes that force a full replace *)

Lemma located_obj target r fb r' fa :
  located target (VObj r fb) (VObj r' fa) =
  distinct_refs (VObj r fb) (VObj r' fa)
  && (target (VObj r fb) (VObj r' fa)
      || located_children target (field fb "children") (field fa "children")).
Proof.
  cbn [located]. f_equal. f_equal.
  induction fb as [|[k x] fb IH]; [reflexivity|].
  cbn [field]. destruct (String.eqb k "children") eqn:E; [|exact IH].
  apply String.eqb_eq in E. subst k.
  destruct x; try reflexivity.
  destruct (field fa "children"); try reflexivity.
  cbn [located_children].
  generalize elems0 as as_. induction elems as [|b bs IHb]; intros [|a as_]; try reflexivity.
  cbn [any2]. now rewrite <- IHb.
Qed.

Lemma located_is_any target v a : located target v a = true -> located_any target v a = true.
Proof. destruct v; simpl; try discriminate. auto. Qed.

Lemma any2_true {A B} (f g : A -> B -> bool) (P : A -> Prop) xs ys :
  Forall P xs ->
  (forall x y, P x -> f x y = true -> g x y = true) ->
  any2 f xs ys = true -> any2 g xs ys = true.
Proof.
  intros HP Hfg. revert ys.
  induction HP as [|x xs Px _ IH]; intros [|y ys] H; simpl in *; try discriminate.
  apply orb_true_iff in H as [H|H]; apply orb_true_iff; [left | right]; auto.
Qed.

Lemma exempt_children b a : exempt b a "children" = false.
Proof. unfold exempt. cbn. apply andb_false_r. Qed.

Section LocatedReplace.
Variable target : value -> value -> bool.
Hypothesis target_replaces : forall b a, target b a = true -> fullReplace b a = true.

Lemma located_replace_aux v :
  forall a, located_any target v a = true ->
            fullReplaceValue v a = true
            /\ match v with VObj _ _ => fullReplace v a = true | _ => True end.
Proof.
  induction v as [| |b|n|s|r elems IH|r fs IH] using value_ind; intros a H;
    try discriminate H.
  - split; [|exact I].
    destruct a as [| | | | |r' as_|]; try discriminate H.
    cbn [located_any located_children] in H.
    rewrite fullReplaceValue_arr.
    destruct (List.length elems =? List.length as_)%nat; [|reflexivity]. cbn [negb orb].
    eapply any2_true; [exact IH | | exact H].
    intros x y Px L. apply located_is_any in L. now apply Px.
  - destruct a as [| | | | | |r' fa]; try discriminate H.
    cbn [located_any] in H. rewrite located_obj in H.
    apply andb_true_iff in H as [Hd H].
    assert (Hneq : strict_neq (VObj r fs) (VObj r' fa) = true) by exact Hd.
    assert (Hbody : fullReplace (VObj r fs) (VObj r' fa) = true).
    { apply orb_true_iff in H as [H|H]; [now apply target_replaces|].
      unfold located_children in H.
      destruct (field fs "children") as [| | | | |rc bs|] eqn:Eb; try discriminate H.
      destruct (field fa "children") as [| | | | |rc' as_|] eqn:Ea; try discriminate H.
      assert (Hin : In ("children", VArr rc bs) fs).
      { rewrite <- Eb. apply field_in, field_defined. now rewrite Eb. }
      rewrite Forall_forall in IH. specialize (IH _ Hin (VArr rc' as_)).
      cbn [snd located_any located_children] in IH. destruct (IH H) as [IHv _].
      unfold fullReplace, fullReplaceBody. cbn [fields_of].
      match goal with |- (if ?c then _ else _) = _ => destruct c end; [reflexivity|].
      apply orb_true_iff. left. apply existsb_exists.
      exists ("children", VArr rc bs). split; [exact Hin|].
      rewrite exempt_children. unfold prop. cbn [fields_of]. rewrite Ea, IHv.
      now rewrite orb_true_r. }
    split; [|exact Hbody].
    rewrite fullReplaceValue_obj, Hneq.
    match goal with |- (if ?c then _ else _) = _ => destruct c end;
      [exact Hbody | reflexivity].
Qed.

(** A target that needs a full replace forces one at the root, wherever
    it is located. *)
Lemma located_replace b a :
  located target b a = true -> fullReplace b a = true.
Proof.
  intros H. destruct b; try discriminate H.
  apply located_is_any in H. now apply located_replace_aux in H.
Qed.
End LocatedReplace.

Lemma startsWith_neq s p : JSString.startsWith s p = false -> String.eqb p s = false.
Proof.
  intros H. destruct (String.eqb p s) eqn:E; [|reflexivity].
  apply String.eqb_eq in E. subst. now rewrite JSStringFacts.startsWith_refl in H.
Qed.

(** A [value] that does not start with the old one is not exempt, and two
    different strings are a replace trigger. *)
Lemma textRegress_replaces tid b a :
  textRegress tid b a = true -> fullReplace b a = true.
Proof.
  unfold textRegress. intros H. rewrite !andb_true_iff in H.
  destruct H as [[[[[Hb Ha] Ht] Hidb] Hida] Hpre].
  destruct (isStreamingText_obj _ Hb) as (rb & fb & sb & -> & Htb & Hvb).
  destruct (isStreamingText_obj _ Ha) as (ra & fa & sa & -> & Hta & Hva).
  unfold prop in Hpre. cbn [fields_of] in Hpre. rewrite Hvb, Hva in Hpre.
  cbn [asString] in Hpre. apply negb_true_iff in Hpre.
  unfold fullReplace, fullReplaceBody. cbn [fields_of].
  match goal with |- (if ?c then _ else _) = _ => destruct c end; [reflexivity|].
  apply orb_true_iff. left. apply existsb_exists.
  exists ("value", VStr sb). split.
  - rewrite <- Hvb. apply field_in, field_defined. now rewrite Hvb.
  - unfold exempt, prop. cbn [fields_of]. rewrite Hb, Ha, Hvb, Hva.
    cbn [asString andb String.eqb]. rewrite Hpre.
    cbn. unfold strict_neq. cbn. rewrite (startsWith_neq _ _ Hpre).
    now rewrite orb_true_r.
Qed.

(** ** The traversal of [findAllStreamingTextComponents] *)

Lemma field_cases fs k :
  (has_field fs k = false /\ field fs k = VUndefined)
  \/ In (k, field fs k) fs.
Proof.
  destruct (has_field fs k) eqn:E; [right; now apply field_in | left].
  split; [reflexivity | now apply field_has].
Qed.

Section RecurseInv.
Variable Inv : components -> Prop.
Hypothesis Inv_assign : forall acc k v, Inv acc -> Inv (assign acc k v).

Lemma register_inv comp acc acc' : register comp acc = Ok acc' -> Inv acc -> Inv acc'.
Proof.
  unfold register. intros H Hi.
  destruct (isStreamingText comp && truthy (prop comp "id")).
  - destruct (toString (prop comp "id")); inversion H; subst. now apply Inv_assign.
  - now inversion H; subst.
Qed.

Lemma foldM_inv (cs : list value) :
  Forall (fun c => forall acc acc', recurse c acc = Ok acc' -> Inv acc -> Inv acc') cs ->
  forall acc acc', foldM recurse cs acc = Ok acc' -> Inv acc -> Inv acc'.
Proof.
  induction 1 as [|c cs Hc _ IH]; intros acc acc' H Hi; simpl in H.
  - now inversion H; subst.
  - destruct (recurse c acc) as [acc1|] eqn:E; [|discriminate H]. eauto.
Qed.

Lemma recurse_inv_aux v :
  (forall acc acc', recurse v acc = Ok acc' -> Inv acc -> Inv acc')
  /\ (forall acc acc', forChildren v acc = Ok acc' -> Inv acc -> Inv acc').
Proof.
  induction v as [| |b|n|s|r elems IH|r fs IH] using value_ind;
    (split; intros acc acc' H Hi); try discriminate H;
    try (now inversion H; subst).
  - cbn [forChildren] in H. eapply foldM_inv; [|exact H|exact Hi].
    eapply Forall_impl; [|exact IH]. intros c [Hc _]. exact Hc.
  - rewrite recurse_obj in H.
    destruct (register (VObj r fs) acc) as [acc0|] eqn:Er; [|discriminate H].
    cbn [andThen] in H. apply (@register_inv _ _ _ Er) in Hi.
    destruct (field_cases fs "children") as [[_ E]|Hin].
    + rewrite E in H. now inversion H; subst.
    + rewrite Forall_forall in IH. destruct (IH _ Hin) as [_ Hc]. eauto.
Qed.

Lemma recurse_inv v acc acc' : recurse v acc = Ok acc' -> Inv acc -> Inv acc'.
Proof. apply recurse_inv_aux. Qed.

Lemma forChildren_inv v acc acc' : forChildren v acc = Ok acc' -> Inv acc -> Inv acc'.
Proof. apply recurse_inv_aux. Qed.
End RecurseInv.

(** The traversal keeps the keys of [components] distinct. *)
Lemma recurse_NoDup v acc acc' :
  recurse v acc = Ok acc' ->
  NoDup (JSObject.keys (own acc)) -> NoDup (JSObject.keys (own acc')).
Proof.
  apply recurse_inv with (Inv := fun c => NoDup (JSObject.keys (own c))).
  intros c k x H. unfold assign. destruct (String.eqb k "__proto__"); [exact H|].
  now apply JSObjectFacts.NoDup_keys_set.
Qed.

(** *** What an unchanged value is, field by field *)

Lemma unchanged_prim x y :
  unchanged x y = true -> is_object x = false \/ is_object y = false -> x = y.
Proof.
  intros H Hp. destruct x, y; cbn [unchanged] in H;
    apply orb_true_iff in H as [H|H]; try discriminate H;
    try (now apply value_eqb_eq in H);
    destruct Hp as [Hp|Hp]; discriminate Hp.
Qed.

Lemma unchanged_inv_arr r bs a :
  unchanged (VArr r bs) a = true ->
  exists r' as_, a = VArr r' as_ /\ Forall2 (fun x y => unchanged x y = true) bs as_.
Proof.
  intros H. destruct a as [| | | | |r' as_|]; try discriminate H.
  exists r', as_. split; [reflexivity|].
  rewrite unchanged_arr in H. apply orb_true_iff in H as [H|H].
  - apply value_eqb_eq in H. inversion H; subst.
    clear. induction as_; constructor; auto using unchanged_refl.
  - now apply all2_Forall2.
Qed.

Lemma fields_unchanged_field fb fa k :
  fields_unchanged fb fa = true -> unchanged (field fb k) (field fa k) = true.
Proof.
  unfold fields_unchanged. intros H. apply andb_true_iff in H as [H _].
  apply andb_true_iff in H as [H1 H2].
  rewrite forallb_forall in H1, H2.
  destruct (field_cases fb k) as [[Hn E]|Hin].
  - rewrite E. destruct (field_cases fa k) as [[_ E']|Hin'].
    + now rewrite E'.
    + specialize (H2 _ Hin'). cbn [fst snd] in H2. rewrite Hn in H2.
      apply missing_undefined in H2. now rewrite H2.
  - apply (H1 _ Hin).
Qed.

Lemma unchanged_inv_obj r fb a :
  unchanged (VObj r fb) a = true ->
  exists r' fa, a = VObj r' fa
                /\ forall k, unchanged (field fb k) (field fa k) = true.
Proof.
  intros H. destruct a as [| | | | | |r' fa]; try discriminate H.
  exists r', fa. split; [reflexivity|].
  rewrite unchanged_obj in H. apply orb_true_iff in H as [H|H].
  - apply value_eqb_eq in H. inversion H; subst. intros; apply unchanged_refl.
  - apply andb_true_iff in H as [_ H]. intros k. now apply fields_unchanged_field.
Qed.

Lemma unchanged_strict_eq_str x y s :
  unchanged x y = true -> strict_eq x (VStr s) = strict_eq y (VStr s).
Proof.
  intros H. destruct (is_object x) eqn:Ex; [destruct (is_object y) eqn:Ey|].
  - destruct x, y; try discriminate; reflexivity.
  - now rewrite (unchanged_prim _ _ H (or_intror Ey)).
  - now rewrite (unchanged_prim _ _ H (or_introl Ex)).
Qed.

Lemma unchanged_is_string x y :
  unchanged x y = true -> is_string x = true \/ is_string y = true -> x = y.
Proof.
  intros H [Hs|Hs]; apply (unchanged_prim _ _ H); [left | right];
    [destruct x | destruct y]; try discriminate Hs; reflexivity.
Qed.

Lemma unchanged_isStreamingText b a :
  (forall k, unchanged (prop b k) (prop a k) = true) ->
  isStreamingText b = isStreamingText a.
Proof.
  intros H. unfold isStreamingText.
  rewrite (unchanged_strict_eq_str _ _ "Text" (H "type")). f_equal.
  destruct (is_string (prop b "value")) eqn:Eb.
  - now rewrite <- (unchanged_is_string _ _ (H "value") (or_introl Eb)).
  - destruct (is_string (prop a "value")) eqn:Ea; [|reflexivity].
    rewrite (unchanged_is_string _ _ (H "value") (or_intror Ea)) in Eb. congruence.
Qed.

(** *** Conversions of an unchanged value *)

Lemma toString_arr r elems : toString (VArr r elems) = join elems "".
Proof.
  cbn [toString].
  match goal with |- ?f elems ?e = _ =>
    enough (H : forall sep, f elems sep = join elems sep) by apply H end.
  induction elems as [|x xs IH]; intros sep; [reflexivity|].
  cbn [join]. rewrite (IH ","%string). unfold elemString. destruct x; reflexivity.
Qed.

Lemma same_builtins_has fb fa k :
  same_builtins fb fa = true -> In k Object_prototype -> has_field fb k = has_field fa k.
Proof.
  unfold same_builtins. rewrite forallb_forall. intros H Hin.
  now apply Bool.eqb_prop, H.
Qed.

Lemma unchanged_toString x : forall y, unchanged x y = true -> toString x = toString y.
Proof.
  induction x as [| |b|n|s|r elems IH|r fs IH] using value_ind; intros y H.
  1-5: (apply unchanged_prim in H; [now subst y | now left]).
  - apply unchanged_inv_arr in H as (r' & as_ & -> & H).
    rewrite !toString_arr. generalize ""%string as sep.
    induction H as [|x y xs ys Hxy _ IHl]; intros sep; [reflexivity|].
    inversion IH as [|? ? Hx Hxs]; subst. cbn [join].
    assert (E : elemString x = elemString y).
    { destruct (is_object x) eqn:Ex.
      - specialize (Hx _ Hxy).
        destruct x; try discriminate Ex.
        + apply unchanged_inv_arr in Hxy as (? & ? & -> & _). exact Hx.
        + apply unchanged_inv_obj in Hxy as (? & ? & -> & _). exact Hx.
      - apply unchanged_prim in Hxy; [now subst y | now left]. }
    rewrite E, (IHl Hxs). reflexivity.
  - destruct y as [| | | | | |r' fa]; try discriminate H.
    rewrite unchanged_obj in H. apply orb_true_iff in H as [H|H].
    + apply value_eqb_eq in H. now rewrite H.
    + apply andb_true_iff in H as [_ H]. unfold fields_unchanged in H.
      apply andb_true_iff in H as [_ H]. cbn [toString].
      rewrite (@same_builtins_has fs fa "toString" H); [reflexivity|].
      cbn. tauto.
Qed.

Lemma unchanged_truthy x y : unchanged x y = true -> truthy x = truthy y.
Proof.
  intros H. destruct (is_object x) eqn:Ex.
  - destruct x; try discriminate Ex.
    + apply unchanged_inv_arr in H as (? & ? & -> & _). reflexivity.
    + apply unchanged_inv_obj in H as (? & ? & -> & _). reflexivity.
  - apply unchanged_prim in H; [now subst y | now left].
Qed.

(** *** Traversing two snapshots side by side *)

Section Lockstep.
(** [R] relates the nodes the two traversals register under one id.  It
    holds of two streaming texts with the same [value] under every id other
    than [tid], and under [tid] too when [lax] holds. *)
Variable tid : string.
Variable lax : Prop.
Variable R : string -> value -> value -> Prop.
Hypothesis R_same_value : forall k nb na,
  isStreamingText nb = true -> isStreamingText na = true ->
  prop nb "value" = prop na "value" -> k <> tid \/ lax -> R k nb na.

Lemma avoids_app l1 l2 : avoids tid lax (l1 ++ l2) <-> avoids tid lax l1 /\ avoids tid lax l2.
Proof.
  unfold avoids. split.
  - intros H. split; intros k Hk; apply H, in_app_iff; tauto.
  - intros [H1 H2] k Hk. apply in_app_iff in Hk as [Hk|Hk]; auto.
Qed.

Lemma assign_rel cb ca k nb na :
  crel R cb ca -> R k nb na -> crel R (assign cb k nb) (assign ca k na).
Proof.
  unfold crel, assign. intros Hrel HR.
  destruct (String.eqb k "__proto__"); cbn [own]; [exact Hrel|].
  now apply JSObjectFacts.rel_set.
Qed.

Lemma register_rel b a cb ca :
  (forall k, k <> "children" -> unchanged (prop b k) (prop a k) = true) ->
  avoids tid lax (own_id b) ->
  crel R cb ca ->
  relres R (register b cb) (register a ca).
Proof.
  intros Hf Hav Hrel. unfold register.
  assert (Ht : strict_eq (prop b "type") (VStr "Text")
               = strict_eq (prop a "type") (VStr "Text")).
  { apply unchanged_strict_eq_str, Hf. discriminate. }
  assert (Hv : is_string (prop b "value") = true \/ is_string (prop a "value") = true ->
               prop b "value" = prop a "value").
  { apply unchanged_is_string, Hf. discriminate. }
  assert (Hs : isStreamingText b = isStreamingText a).
  { unfold isStreamingText. rewrite Ht. f_equal.
    destruct (is_string (prop b "value")) eqn:Eb.
    - now rewrite <- Hv by now left.
    - destruct (is_string (prop a "value")) eqn:Ea; [|reflexivity].
      rewrite Hv in Eb by now right. congruence. }
  assert (Hid : unchanged (prop b "id") (prop a "id") = true) by (apply Hf; discriminate).
  rewrite <- Hs, <- (unchanged_truthy _ _ Hid), <- (unchanged_toString _ _ Hid).
  unfold own_id in Hav.
  destruct (isStreamingText b) eqn:Eb; [|exact Hrel].
  destruct (truthy (prop b "id")); [|exact Hrel]. cbn [andb] in *.
  destruct (toString (prop b "id")) as [k|]; [|exact I].
  apply assign_rel; [exact Hrel|].
  apply R_same_value; [exact Eb | now rewrite <- Hs | | apply Hav; now left].
  apply Hv. left. unfold isStreamingText in Eb. now apply andb_true_iff in Eb.
Qed.

Lemma foldM_relres bs as_ :
  Forall2 (fun x y => forall cb ca, crel R cb ca ->
                                    relres R (recurse x cb) (recurse y ca)) bs as_ ->
  forall cb ca, crel R cb ca ->
                relres R (foldM recurse bs cb) (foldM recurse as_ ca).
Proof.
  induction 1 as [|x y bs as_ Hxy _ IH]; intros cb ca Hrel; simpl; [exact Hrel|].
  specialize (Hxy cb ca Hrel). unfold relres in Hxy.
  destruct (recurse x cb), (recurse y ca); try contradiction; [now apply IH | exact I].
Qed.

Lemma unchanged_lockstep_aux v :
  forall a, unchanged v a = true ->
    (avoids tid lax (textIds v) ->
     forall cb ca, crel R cb ca -> relres R (recurse v cb) (recurse a ca))
    /\ (avoids tid lax (flat_map textIds (children_elems v)) ->
        forall cb ca, crel R cb ca ->
                      relres R (forChildren v cb) (forChildren a ca)).
Proof.
  induction v as [| |b|n|s|r elems IH|r fs IH] using value_ind; intros a H.
  1-5: (apply unchanged_prim in H; [|now left]; subst a;
        split; intros _ cb ca Hrel; simpl; auto).
  - apply unchanged_inv_arr in H as (r' & as_ & -> & H).
    split; intros Hav cb ca Hrel; [exact Hrel|].
    cbn [forChildren]. apply foldM_relres; [|exact Hrel].
    cbn [children_elems] in Hav. clear cb ca Hrel.
    induction H as [|x y bs as_ Hxy H IHl]; constructor.
    + cbn [flat_map] in Hav. apply avoids_app in Hav as [Hav _].
      inversion IH; subst. match goal with Hx : forall a, _ |- _ => apply (Hx y Hxy), Hav end.
    + cbn [flat_map] in Hav. apply avoids_app in Hav as [_ Hav].
      inversion IH; subst. auto.
  - apply unchanged_inv_obj in H as (r' & fa & -> & H).
    split; intros Hav cb ca Hrel; [|exact I].
    rewrite !recurse_obj. rewrite textIds_obj in Hav. apply avoids_app in Hav as [Hown Hch].
    assert (Hreg : relres R (register (VObj r fs) cb) (register (VObj r' fa) ca)).
    { apply register_rel; [intros k _; apply H | exact Hown | exact Hrel]. }
    unfold relres in Hreg.
    destruct (register (VObj r fs) cb) as [cb0|], (register (VObj r' fa) ca) as [ca0|];
      try contradiction; [|exact I].
    cbn [andThen].
    destruct (field_cases fs "children") as [[_ E]|Hin].
    + specialize (H "children"). rewrite E in H |- *.
      apply unchanged_prim in H; [|now left]. rewrite <- H. exact Hreg.
    + rewrite Forall_forall in IH.
      destruct (IH _ Hin _ (H "children")) as [_ Hc]. now apply Hc.
Qed.

(** The traversals of an unchanged value, started from related records,
    end alike. *)
Lemma unchanged_lockstep b a cb ca :
  unchanged b a = true -> avoids tid lax (textIds b) -> crel R cb ca ->
  relres R (recurse b cb) (recurse a ca).
Proof. intros H Hav Hrel. now apply (proj1 (unchanged_lockstep_aux b a H)). Qed.

Lemma unchanged_lockstep_children b a cb ca :
  unchanged b a = true -> avoids tid lax (flat_map textIds (children_elems b)) ->
  crel R cb ca ->
  relres R (forChildren b cb) (forChildren a ca).
Proof. intros H Hav Hrel. now apply (proj2 (unchanged_lockstep_aux b a H)). Qed.
End Lockstep.

(** *** What an edit is, field by field *)

Lemma textEdit_facts id v suffix s b a :
  textEdit id v suffix s b a = true ->
  exists rb fb ra fa,
    b = VObj rb fb /\ a = VObj ra fa
    /\ isStreamingText b = true /\ isStreamingText a = true
    /\ field fb "id" = id /\ field fa "id" = id
    /\ field fb "value" = VStr v /\ field fa "value" = VStr (v ++ suffix)
    /\ field fa "streaming" = s
    /\ forall k, k <> "value" -> k <> "streaming" ->
                 unchanged (field fb k) (field fa k) = true.
Proof.
  unfold textEdit. intros H. rewrite !andb_true_iff in H.
  destruct H as [[[[[[[[[[Hb Ha] Hidb] Hida] Hkey] Hvb] Hva] Hs] Hf1] Hf2] Hsb].
  destruct (isStreamingText_obj _ Hb) as (rb & fb & sb & -> & Htb & Hvb').
  destruct (isStreamingText_obj _ Ha) as (ra & fa & sa & -> & Hta & Hva').
  unfold prop in *. cbn [fields_of] in *.
  apply value_eqb_eq in Hidb, Hida, Hvb, Hva, Hs.
  exists rb, fb, ra, fa. repeat split; try assumption.
  intros k Hk1 Hk2. apply String.eqb_neq in Hk1, Hk2.
  rewrite forallb_forall in Hf1, Hf2.
  destruct (field_cases fb k) as [[Hn E]|Hin].
  - rewrite E. destruct (field_cases fa k) as [[_ E']|Hin'].
    + now rewrite E'.
    + specialize (Hf2 _ Hin'). cbn [fst snd] in Hf2. rewrite Hk1, Hk2, Hn in Hf2.
      apply missing_undefined in Hf2. now rewrite Hf2.
  - specialize (Hf1 _ Hin). cbn [fst snd] in Hf1. now rewrite Hk1, Hk2 in Hf1.
Qed.

Lemma path_fields_field target fb fa :
  path_fields target fb fa = true ->
  (forall k, k <> "children" -> unchanged (field fb k) (field fa k) = true)
  /\ (has_field fb "children" = true ->
      edited_children target (field fb "children") (field fa "children") = true).
Proof.
  unfold path_fields. intros H. apply andb_true_iff in H as [H _].
  apply andb_true_iff in H as [H1 H2].
  rewrite forallb_forall in H1, H2. split.
  - intros k Hk. apply String.eqb_neq in Hk.
    destruct (field_cases fb k) as [[Hn E]|Hin].
    + rewrite E. destruct (field_cases fa k) as [[_ E']|Hin'].
      * now rewrite E'.
      * specialize (H2 _ Hin'). cbn [fst snd] in H2. rewrite Hn in H2.
        apply missing_undefined in H2. now rewrite H2.
    + specialize (H1 _ Hin). cbn [fst snd] in H1. now rewrite Hk in H1.
  - intros Hc. apply field_in in Hc. apply (H1 _ Hc).
Qed.

Lemma count_avoids tid lax ids : count ids tid = 0 \/ lax -> avoids tid lax ids.
Proof.
  intros [H|H] k Hin; [left | now right].
  intros ->. apply (count_occ_In string_dec) in Hin. unfold count in H. lia.
Qed.

Lemma own_id_text tid b :
  isStreamingText b = true -> prop b "id" = VStr tid -> JSString.truthy tid = true ->
  own_id b = [tid].
Proof. intros Hb Hid Ht. unfold own_id. rewrite Hb, Hid. cbn. now rewrite Ht. Qed.

Lemma register_text tid b acc :
  isStreamingText b = true -> prop b "id" = VStr tid -> JSString.truthy tid = true ->
  register b acc = Ok (assign acc tid b).
Proof. intros Hb Hid Ht. unfold register. rewrite Hb, Hid. cbn. now rewrite Ht. Qed.

Section EditedLockstep.
Variables (tid v suffix : string) (s : value).
Hypothesis tid_truthy : JSString.truthy tid = true.
Variable lax : Prop.
Hypothesis tid_key : tid <> "__proto__" \/ lax.
Variable R : string -> value -> value -> Prop.
Hypothesis R_same_value : forall k nb na,
  isStreamingText nb = true -> isStreamingText na = true ->
  prop nb "value" = prop na "value" -> k <> tid \/ lax -> R k nb na.
Hypothesis R_target : forall nb na,
  textEdit (VStr tid) v suffix s nb na = true -> R tid nb na.

Local Abbreviation target := (textEdit (VStr tid) v suffix s).

Lemma count_app l1 l2 k : count (l1 ++ l2) k = count l1 k + count l2 k.
Proof. apply count_occ_app. Qed.

Lemma count_edited x :
  forall a, edited_any target x a = true -> 1 <= count (ids_any x) tid.
Proof.
  induction x as [| |b|n|s'|r elems IH|r fs IH] using value_ind; intros a H;
    try discriminate H.
  - destruct a as [| | | | |r' as_|]; try discriminate H.
    cbn [edited_any edited_children] in H. cbn [ids_any].
    revert as_ H. induction IH as [|x xs Px _ IHxs]; intros [|y ys] H;
      try discriminate H.
    cbn [one_edited] in H. cbn [flat_map]. rewrite count_app.
    apply orb_true_iff in H as [H|H]; apply andb_true_iff in H as [H1 H2].
    + specialize (Px _ (edited_is_any _ _ _ H1)).
      destruct x; try discriminate H1. cbn [ids_any] in Px. lia.
    + specialize (IHxs _ H2). lia.
  - destruct a as [| | | | | |r' fa]; try discriminate H.
    cbn [edited_any] in H. rewrite edited_obj in H.
    apply andb_true_iff in H as [_ H]. cbn [ids_any]. rewrite textIds_obj, count_app.
    apply orb_true_iff in H as [H|H].
    + apply textEdit_facts in H
        as (rb & fb & ra & fa' & Eb & Ea & Hb & Ha & Hidb & _).
      inversion Eb; subst rb fb.
      rewrite (own_id_text (tid := tid)); auto.
      unfold count. simpl. destruct (string_dec tid tid); [lia | congruence].
    + rewrite !andb_true_iff in H. destruct H as [[_ Hc] Hp].
      destruct (path_fields_field _ _ _ Hp) as [_ Hch]. specialize (Hch Hc).
      rewrite Forall_forall in IH. specialize (IH _ (field_in _ _ Hc) (field fa "children")).
      cbn [snd] in IH. unfold edited_children in Hch.
      destruct (field fs "children") as [| | | | |rc cs|] eqn:E; try discriminate Hch.
      specialize (IH Hch). cbn [ids_any children_elems] in *. lia.
Qed.

Lemma cond_left l1 l2 : cond tid lax (l1 ++ l2) -> 1 <= count l1 tid -> cond tid lax l1 /\ avoids tid lax l2.
Proof.
  unfold cond. rewrite count_app. intros [H|H] Hc.
  - split; [left; lia | apply count_avoids; left; lia].
  - split; [now right | apply count_avoids; now right].
Qed.

Lemma cond_right l1 l2 : cond tid lax (l1 ++ l2) -> 1 <= count l2 tid -> avoids tid lax l1 /\ cond tid lax l2.
Proof.
  unfold cond. rewrite count_app. intros [H|H] Hc.
  - split; [apply count_avoids; left; lia | left; lia].
  - split; [apply count_avoids; now right | now right].
Qed.

Lemma holds_assign c k x : holds tid lax c -> holds tid lax (assign c k x).
Proof.
  unfold holds, assign. intros [H|H]; [left | now right].
  destruct (String.eqb k "__proto__"); cbn [own]; [exact H|].
  now apply JSObjectFacts.has_set_keeps.
Qed.

Lemma has_kept_recurse x c c' :
  recurse x c = Ok c' -> holds tid lax c -> holds tid lax c'.
Proof. apply recurse_inv. intros; now apply holds_assign. Qed.

Lemma has_kept_children x c c' :
  forChildren x c = Ok c' -> holds tid lax c -> holds tid lax c'.
Proof. apply forChildren_inv. intros; now apply holds_assign. Qed.

Lemma relres_keeps r1 r2 (f g : components -> result components) :
  relres_has tid lax R r1 r2 ->
  (forall c1 c2, crel R c1 c2 -> relres R (f c1) (g c2)) ->
  (forall c c', g c = Ok c' -> holds tid lax c -> holds tid lax c') ->
  relres_has tid lax R (andThen r1 f) (andThen r2 g).
Proof.
  intros H Hfg Hg. destruct r1 as [c1|], r2 as [c2|]; try contradiction; [|exact I].
  destruct H as [Hrel Hhas]. specialize (Hfg _ _ Hrel). unfold relres in Hfg.
  unfold relres_has. cbn [andThen].
  destruct (f c1), (g c2) eqn:E; try contradiction; [|exact I].
  split; [exact Hfg | eapply Hg; eauto].
Qed.

Lemma foldM_unchanged bs as_ :
  Forall2 (fun x y => unchanged x y = true) bs as_ ->
  avoids tid lax (flat_map textIds bs) ->
  forall cb ca, crel R cb ca ->
                relres R (foldM recurse bs cb) (foldM recurse as_ ca).
Proof.
  intros H Hav. apply foldM_relres.
  induction H as [|x y bs as_ Hxy _ IH]; constructor;
    cbn [flat_map] in Hav; apply avoids_app in Hav as [Hx Hxs].
  - intros cb ca. now apply unchanged_lockstep with (tid := tid) (lax := lax).
  - now apply IH.
Qed.

Lemma foldM_has bs c c' :
  foldM recurse bs c = Ok c' -> holds tid lax c -> holds tid lax c'.
Proof.
  revert c. induction bs as [|x bs IH]; intros c H Hh; simpl in H.
  - now inversion H; subst.
  - destruct (recurse x c) as [c1|] eqn:E; [|discriminate H].
    eapply IH; [exact H|]. eapply has_kept_recurse; eauto.
Qed.

Lemma edited_lockstep_aux x :
  forall a, edited_any target x a = true -> cond tid lax (ids_any x) ->
  forall cb ca, crel R cb ca ->
  match x with
  | VArr _ _ => relres_has tid lax R (forChildren x cb) (forChildren a ca)
  | _ => relres_has tid lax R (recurse x cb) (recurse a ca)
  end.
Proof.
  induction x as [| |b|n|s'|r elems IH|r fs IH] using value_ind; intros a H;
    try discriminate H.
  - destruct a as [| | | | |r' as_|]; try discriminate H.
    cbn [edited_any edited_children] in H. cbn [ids_any forChildren].
    clear r r'. revert as_ H.
    induction IH as [|x xs Px _ IHxs]; intros [|y ys] H Hc cb ca Hrel;
      try discriminate H.
    cbn [one_edited] in H. cbn [flat_map] in Hc. cbn [foldM].
    apply orb_true_iff in H as [H|H]; apply andb_true_iff in H as [H1 H2].
    + assert (Hany := edited_is_any _ _ _ H1).
      assert (Hcount := count_edited _ _ Hany).
      destruct x as [| | | | | |rx fx]; try discriminate H1. cbn [ids_any] in Hcount.
      destruct (cond_left _ _ Hc Hcount) as [Hcx Hav].
      specialize (Px _ Hany Hcx cb ca Hrel). cbn beta iota in Px.
      apply all2_Forall2 in H2.
      apply (relres_keeps _ _ (foldM recurse xs) (foldM recurse ys) Px).
      * now apply foldM_unchanged.
      * intros c c'. apply foldM_has.
    + assert (Hcount : 1 <= count (flat_map textIds xs) tid).
      { apply (count_edited (VArr 0 xs) (VArr 0 ys)). exact H2. }
      destruct (cond_right _ _ Hc Hcount) as [Hav Hcxs].
      assert (Hx : relres R (recurse x cb) (recurse y ca))
        by (eapply unchanged_lockstep; eauto).
      unfold relres in Hx.
      destruct (recurse x cb) as [cb1|], (recurse y ca) as [ca1|];
        try contradiction; [|exact I].
      now apply IHxs.
  - destruct a as [| | | | | |r' fa]; try discriminate H.
    cbn [edited_any] in H. rewrite edited_obj in H.
    apply andb_true_iff in H as [_ H]. cbn [ids_any]. rewrite textIds_obj.
    intros Hc cb ca Hrel. rewrite !recurse_obj.
    apply orb_true_iff in H as [H|H].
    + assert (HR := R_target _ _ H).
      apply textEdit_facts in H
        as (rb & fb & ra & fa' & Eb & Ea & Hb & Ha & Hidb & Hida & Hvb & Hva & Hs & Hf).
      inversion Eb; subst rb fb. inversion Ea; subst ra fa'.
      rewrite (own_id_text (tid := tid)) in Hc; auto.
      assert (Hav : avoids tid lax
                      (flat_map textIds (children_elems (field fs "children")))).
      { apply count_avoids. destruct Hc as [Hc|Hc]; [left | now right].
        rewrite count_app in Hc. unfold count in Hc at 1. simpl in Hc.
        destruct (string_dec tid tid); [lia | congruence]. }
      assert (Hreg : relres_has tid lax R (register (VObj r fs) cb)
                                (register (VObj r' fa) ca)).
      { rewrite !(register_text (tid := tid)); auto.
        split; [now apply assign_rel|].
        destruct tid_key as [Hk|Hk]; [left | now right].
        apply String.eqb_neq in Hk. unfold assign. rewrite Hk. cbn [own].
        apply JSObjectFacts.has_set_same. }
      apply (relres_keeps _ _ (forChildren (field fs "children"))
               (forChildren (field fa "children")) Hreg).
      * intros c1 c2. apply unchanged_lockstep_children with (tid := tid) (lax := lax); auto.
        apply Hf; discriminate.
      * intros c c'. apply has_kept_children.
    + rewrite !andb_true_iff in H. destruct H as [[_ Hch] Hp].
      destruct (path_fields_field _ _ _ Hp) as [Hf Hedit]. specialize (Hedit Hch).
      assert (Hin := field_in _ _ Hch).
      rewrite Forall_forall in IH. specialize (IH _ Hin (field fa "children")).
      cbn [snd] in IH.
      assert (Hcount := count_edited (field fs "children") (field fa "children")).
      unfold edited_children in Hedit.
      destruct (field fs "children") as [| | | | |rc cs|] eqn:E; try discriminate Hedit.
      cbn [edited_any edited_children ids_any children_elems] in *.
      specialize (Hcount Hedit).
      destruct (cond_right _ _ Hc Hcount) as [Hown Hcc].
      assert (Hreg : relres R (register (VObj r fs) cb) (register (VObj r' fa) ca)).
      { apply register_rel with (tid := tid) (lax := lax); auto. }
      unfold relres in Hreg.
      destruct (register (VObj r fs) cb) as [cb0|], (register (VObj r' fa) ca) as [ca0|];
        try contradiction; [|exact I].
      cbn [andThen]. now apply (IH Hedit Hcc).
Qed.

(** The traversals of the two snapshots of an edit end alike, and the
    edited node is registered. *)
Lemma edited_lockstep b a :
  edited target b a = true -> cond tid lax (textIds b) ->
  relres_has tid lax R (findAllStreamingTextComponents b)
             (findAllStreamingTextComponents a).
Proof.
  intros H Hc. unfold findAllStreamingTextComponents.
  assert (Hany := edited_is_any _ _ _ H).
  destruct b; try discriminate H.
  apply (edited_lockstep_aux _ _ Hany Hc). constructor.
Qed.
End EditedLockstep.

(** *** Trees the traversal accepts *)

Lemma iterable_obj r fs :
  iterable (VObj r fs)
  = registrable (VObj r fs) && iterable_children (field fs "children").
Proof.
  cbn [iterable]. f_equal. induction fs as [|[k c] fs IH]; [reflexivity|].
  cbn [field]. destruct (String.eqb k "children"); [|exact IH].
  destruct c; reflexivity.
Qed.

Lemma registrable_register comp acc :
  registrable comp = true -> exists acc', register comp acc = Ok acc'.
Proof.
  unfold registrable, register.
  destruct (isStreamingText comp && truthy (prop comp "id")); [|eexists; reflexivity].
  destruct (toString (prop comp "id")); [eexists; reflexivity | discriminate].
Qed.

Lemma iterable_recurse_aux v :
  (iterable v = true -> forall acc, exists acc', recurse v acc = Ok acc')
  /\ (iterable_children v = true -> forall acc, exists acc', forChildren v acc = Ok acc').
Proof.
  induction v as [| |b|n|s|r elems IH|r fs IH] using value_ind;
    (split; intros H acc); try discriminate H; try (eexists; reflexivity).
  - cbn [iterable_children] in H. cbn [forChildren]. revert acc.
    induction IH as [|x xs [Px _] _ IHxs]; intros acc; [eexists; reflexivity|].
    cbn [forallb] in H. apply andb_true_iff in H as [Hx Hxs].
    cbn [foldM]. destruct (Px Hx acc) as [acc1 ->]. now apply IHxs.
  - rewrite iterable_obj in H. apply andb_true_iff in H as [Hr H]. rewrite recurse_obj.
    destruct (registrable_register _ acc Hr) as [acc0 ->]. cbn [andThen].
    destruct (field_cases fs "children") as [[_ E]|Hin].
    + rewrite E. eexists; reflexivity.
    + rewrite Forall_forall in IH. destruct (IH _ Hin) as [_ Hc]. now apply Hc.
Qed.

(** On an iterable tree the traversal does not throw. *)
Lemma iterable_findAll v :
  iterable v = true -> exists m, findAllStreamingTextComponents v = Ok m.
Proof. intros H. now apply iterable_recurse_aux. Qed.

(** ** The deltas of an edited snapshot *)

Lemma append_neq (v suffix : string) : suffix <> EmptyString -> String.eqb v (v ++ suffix) = false.
Proof.
  intros Hs. apply String.eqb_neq.
  induction v as [|c v IH]; simpl.
  - intros E. now apply Hs.
  - intros E. apply IH. now inversion E.
Qed.

(** A streaming text is an object, and its [value] converts to itself. *)
Lemma text_value n :
  isStreamingText n = true ->
  truthy n = true
  /\ toString (coalesce (prop n "value") (VStr "")) = Ok (asString (prop n "value")).
Proof.
  intros H. destruct (isStreamingText_obj _ H) as (r & fs & s & -> & _ & Hv).
  unfold prop. cbn [fields_of]. rewrite Hv. split; reflexivity.
Qed.

(** One round of the loop of [diffWidget], on an id that both records
    own. *)
Lemma diffNodes_step (mb : components) k nb na rest acc :
  JSObject.get (own mb) k = Some nb ->
  isStreamingText nb = true -> isStreamingText na = true ->
  diffNodes mb ((k, na) :: rest) acc
  = let beforeValue := asString (prop nb "value") in
    let afterValue := asString (prop na "value") in
    if negb (String.eqb beforeValue afterValue) then
      if negb (JSString.startsWith afterValue beforeValue) then Err (NotCumulative k)
      else diffNodes mb rest
             (acc ++ [WidgetStreamingTextValueDelta k
                        (JSString.slice afterValue (String.length beforeValue))
                        (negb (truthy (prop na "streaming")))])
    else diffNodes mb rest acc.
Proof.
  intros Hg Hb Ha. cbn [diffNodes]. unfold lookup. rewrite Hg.
  cbn [absent valueOf].
  destruct (text_value _ Hb) as [-> ->]. destruct (text_value _ Ha) as [_ ->].
  reflexivity.
Qed.

Lemma diffNodes_none (mb : components) l :
  Forall (fun kb => exists nb,
            JSObject.get (own mb) (fst kb) = Some nb
            /\ isStreamingText nb = true /\ isStreamingText (snd kb) = true
            /\ asString (prop nb "value") = asString (prop (snd kb) "value")) l ->
  forall acc, diffNodes mb l acc = Ok acc.
Proof.
  induction 1 as [|[k na] l (nb & Hg & Hb & Ha & Hv) _ IH]; intros acc; [reflexivity|].
  cbn [fst snd] in *. rewrite (@diffNodes_step mb k nb na l acc Hg Hb Ha). cbn zeta.
  rewrite Hv, String.eqb_refl. cbn [negb]. apply IH.
Qed.

Section DiffEdited.
Variables (tid v suffix : string) (s : value).

Lemma diffNodes_one (mb : components) l :
  suffix <> EmptyString ->
  NoDup (map fst l) -> In tid (map fst l) ->
  Forall (fun kb => exists nb, JSObject.get (own mb) (fst kb) = Some nb
                               /\ Redit tid v suffix s (fst kb) nb (snd kb)) l ->
  forall acc, diffNodes mb l acc
              = Ok (acc ++ [WidgetStreamingTextValueDelta tid suffix (negb (truthy s))]).
Proof.
  intros Hs Hn Hin H. induction H as [|[k na] l (nb & Hg & HR) Hl IH]; intros acc;
    [contradiction|].
  cbn [map fst snd] in *. inversion Hn as [|? ? Hk Hn']; subst.
  destruct HR as (Hb & Ha & HR).
  rewrite (@diffNodes_step mb k nb na l acc Hg Hb Ha). cbn zeta.
  destruct HR as [(-> & Hvb & Hva & Hst)|[Hv [Hne|He]]]; [| |contradiction].
  - rewrite Hvb, Hva, (append_neq v Hs), JSStringFacts.startsWith_app, JSStringFacts.slice_app, Hst.
    cbn [negb]. apply diffNodes_none.
    apply Forall_forall. intros [k' na'] Hin'.
    rewrite Forall_forall in Hl. destruct (Hl _ Hin') as (nb' & Hg' & Hb' & Ha' & HR').
    exists nb'. repeat split; try assumption.
    destruct HR' as [(E & _)|[Hv' _]]; [|exact Hv'].
    cbn [fst] in E. subst k'. exfalso. apply Hk.
    change tid with (fst (tid, na')). now apply in_map.
  - rewrite Hv, String.eqb_refl. cbn [negb].
    apply IH; [exact Hn'|]. destruct Hin as [E|Hin]; [congruence | exact Hin].
Qed.

(** [diffWidget] on the two snapshots of an edit of the text node [tid]:
    one delta with the suffix, or nothing when the suffix is empty. *)
Lemma diff_edited before after :
  edited (textEdit (VStr tid) v suffix s) before after = true ->
  JSString.truthy tid = true ->
  iterable before = true ->
  count (textIds before) tid = 1 \/ suffix = EmptyString ->
  tid <> "__proto__" \/ suffix = EmptyString ->
  diffWidget before after
  = Ok (if String.eqb suffix EmptyString then []
        else [WidgetStreamingTextValueDelta tid suffix (negb (truthy s))]).
Proof.
  intros He Ht Hit Hc Hk.
  assert (Hfr : fullReplace before after = false).
  { eapply edited_no_replace; [|exact He]. intros b a. apply textEdit_no_replace. }
  assert (Hls : relres_has tid (suffix = EmptyString) (Redit tid v suffix s)
                  (findAllStreamingTextComponents before)
                  (findAllStreamingTextComponents after)).
  { eapply edited_lockstep; eauto.
    - intros k nb na Hb Ha Hv Hne. repeat split; try assumption.
      right. split; [now rewrite Hv | exact Hne].
    - intros nb na Hte.
      apply textEdit_facts in Hte
        as (rb & fb & ra & fa & -> & -> & Hb & Ha & _ & _ & Hvb & Hva & Hs & _).
      repeat split; try assumption.
      left. unfold prop. cbn [fields_of]. rewrite Hvb, Hva. auto. }
  unfold diffWidget.
  destruct before as [| | | | | |rb fb]; try discriminate He.
  destruct after as [| | | | | |ra fa]; try discriminate He.
  cbn [is_nullish orb]. rewrite Hfr.
  destruct (iterable_findAll _ Hit) as [mb Emb]. rewrite Emb in Hls |- *.
  unfold relres_has in Hls.
  destruct (findAllStreamingTextComponents (VObj ra fa)) as [ma|] eqn:Ema; [|contradiction].
  destruct Hls as [Hrel Hhas].
  assert (Hnd : NoDup (JSObject.keys (own ma))).
  { eapply recurse_NoDup; [exact Ema | constructor]. }
  assert (Hent := JSObjectFacts.rel_entries Hrel Hnd).
  unfold JSObject.entries.
  destruct (String.eqb suffix EmptyString) eqn:Es.
  - apply String.eqb_eq in Es. apply diffNodes_none.
    eapply Forall_impl; [|exact Hent]. intros [k na] (nb & Hg & Hb & Ha & HR).
    exists nb. repeat split; try assumption.
    destruct HR as [(_ & Hvb & Hva & _)|[Hv _]]; [|exact Hv].
    cbn [snd] in *. rewrite Hvb, Hva, Es. clear. induction v; simpl; congruence.
  - apply String.eqb_neq in Es.
    apply diffNodes_one; [exact Es | exact Hnd | | exact Hent].
    apply JSObjectFacts.has_in_keys. destruct Hhas as [Hhas|Hhas]; [exact Hhas | contradiction].
Qed.
End DiffEdited.

End WidgetFacts.

(** * Properties of the server *)

Module ServerFacts.
Import Widget Types Store Server ServerSpec.

(** ** Blank text *)

Lemma truthy_trimStart s : JSString.truthy (JSString.trimStart s) = negb (blank s).
Proof.
  induction s as [|c s IH]; simpl; [reflexivity|].
  destruct (JSString.is_white_space c); simpl; [exact IH | reflexivity].
Qed.

Lemma blank_trimStart s : blank (JSString.trimStart s) = blank s.
Proof.
  induction s as [|c s IH]; simpl; [reflexivity|].
  destruct (JSString.is_white_space c) eqn:E; simpl; [exact IH | now rewrite E].
Qed.

Lemma blank_rev s acc : blank (JSString.rev_string s acc) = blank s && blank acc.
Proof.
  revert acc. induction s as [|c s IH]; intros acc; simpl; [reflexivity|].
  rewrite IH. simpl. destruct (JSString.is_white_space c), (blank s); reflexivity.
Qed.

Lemma truthy_rev s acc :
  JSString.truthy (JSString.rev_string s acc) = JSString.truthy s || JSString.truthy acc.
Proof.
  revert acc. induction s as [|c s IH]; intros acc; simpl; [reflexivity|].
  rewrite IH. simpl. apply orb_true_r.
Qed.

Lemma truthy_trim s : JSString.truthy (JSString.trim s) = negb (blank s).
Proof.
  unfold JSString.trim, JSString.trimEnd.
  rewrite truthy_rev, truthy_trimStart, blank_rev, blank_trimStart. simpl.
  now rewrite orb_false_r, andb_true_r.
Qed.

(** [isEmpty] holds when no part has text that is not blank. *)
Lemma isEmpty_spec content :
  isEmpty content = negb (existsb (fun c => negb (blank (text c))) content).
Proof.
  unfold isEmpty.
  assert (E : forallb (fun c => negb (JSString.truthy (JSString.trim (text c)))) content
              = negb (existsb (fun c => negb (blank (text c))) content)).
  { induction content as [|c cs IH]; simpl; [reflexivity|].
    rewrite IH, truthy_trim, negb_orb. reflexivity. }
  rewrite E. destruct content; reflexivity.
Qed.

Section Generic.
Context {S : Type} `{Store S}.

Lemma bind_run {St A B} (m : Gen St A) (k : A -> Gen St B) st l a st' :
  m st = {| emitted := l; completed := Returned a; final := st' |} ->
  bind m k st = {| emitted := l ++ emitted (k a st');
                   completed := completed (k a st');
                   final := final (k a st') |}.
Proof. intros E. unfold bind. now rewrite E. Qed.

Lemma bind_run_threw {St A B} (m : Gen St A) (k : A -> Gen St B) st l e st' :
  m st = {| emitted := l; completed := Threw e; final := st' |} ->
  bind m k st = {| emitted := l; completed := Threw e; final := st' |}.
Proof. intros E. unfold bind. now rewrite E. Qed.

Lemma call_ok {A} (method : World S -> result A * World S) w a w' :
  method w = (Ok a, w') ->
  call method w = {| emitted := []; completed := Returned a; final := w' |}.
Proof. intros E. unfold call. now rewrite E. Qed.

(** Over a source that throws first, the loop emits nothing and throws
    the same error. *)
Lemma forAwait_throws_first thread (stream : TurnSource S) :
  forall w e w' pending,
    throws_first stream w = Some (e, w') ->
    forAwait thread stream {| world := w; pendingItems := pending |}
    = {| emitted := []; completed := Threw e;
         final := {| world := w'; pendingItems := pending |} |}.
Proof.
  induction stream as [|e0|ev rest IH|effect rest IH]; intros w e w' pending Hs;
    simpl in Hs; try discriminate Hs.
  - inversion Hs; subst. reflexivity.
  - cbn [forAwait world pendingItems]. now apply IH.
Qed.

Lemma errorEventOf_other e :
  (forall allowRetry, e <> StreamError allowRetry) ->
  (forall msg allowRetry, e <> CustomStreamError msg allowRetry) ->
  errorEventOf e = ErrorEvent stream_error (Some DEFAULT_ERROR_MESSAGE) (Some true).
Proof.
  intros H1 H2. destruct e as [| | | | |b|m b]; try reflexivity.
  - now elim (H1 b).
  - now elim (H2 m b).
Qed.

Lemma buildThreadResponseWithPending_ok thread (w w1 w2 : World S) pending meta page :
  loadThread (ThreadMetadata.id thread) w = (Ok meta, w1) ->
  loadThreadItems (ThreadMetadata.id thread) None DEFAULT_PAGE_SIZE asc w1 = (Ok page, w2) ->
  buildThreadResponseWithPending thread {| world := w; pendingItems := pending |}
  = {| emitted := [];
       completed :=
         Returned
           (toThreadResponse
              (Thread.mk meta
                 (Page.mk
                    (Page.data page
                     ++ filter (fun item =>
                                  negb (existsb (String.eqb (item_id item))
                                                (map item_id (Page.data page))))
                               (JSObject.values pending))
                    (Page.has_more page) (Page.after page))));
       final := {| world := w2; pendingItems := pending |} |}.
Proof.
  intros H1 H2.
  unfold buildThreadResponseWithPending, loadFullThread, inWorld, bind, call, gets, ret.
  cbn [world pendingItems]. rewrite H1. cbn. rewrite H2. reflexivity.
Qed.

Lemma bind_ret_l {St A B} (a : A) (k : A -> Gen St B) st : bind (ret a) k st = k a st.
Proof. unfold bind, ret. cbn. now destruct (k a st). Qed.

Lemma bind_ext_l {St A B} (m m' : Gen St A) (k : A -> Gen St B) st :
  m st = m' st -> bind m k st = bind m' k st.
Proof. intros E. unfold bind. now rewrite E. Qed.

Lemma bind_ext_r {St A B} (m : Gen St A) (k k' : A -> Gen St B) st :
  (forall a st', k a st' = k' a st') -> bind m k st = bind m k' st.
Proof. intros E. unfold bind. destruct (completed (m st)); now rewrite ?E. Qed.

(** The loop of [handleStreamCancelled] persists the persistable pending
    items, in order. *)
Lemma persistPending_persistAll threadId pendingItems w :
  persistPending threadId
    (filter (fun item => String.eqb (item_type item) "assistant_message") pendingItems) w
  = persistAll threadId (filter persistable pendingItems) w.
Proof.
  revert w. induction pendingItems as [|item rest IH]; intros w; [reflexivity|].
  cbn [filter].
  destruct item as [h content| | | | | | | |a];
    try (cbn [item_type String.eqb Ascii.eqb Bool.eqb persistable]; now apply IH).
  2: { cbn [item_type persistable]. destruct (attachment_type a); now apply IH. }
  cbn [item_type persistable]. rewrite String.eqb_refl. cbn [persistPending].
  rewrite isEmpty_spec, negb_involutive.
  destruct (existsb (fun c => negb (blank (text c))) content); cbn [persistAll].
  - apply bind_ext_r. intros _ w'. apply IH.
  - rewrite bind_ret_l. apply IH.
Qed.

(** [handleStreamCancelled] does what the specification words. *)
Lemma handleStreamCancelled_cancellation thread pendingItems w :
  handleStreamCancelled thread pendingItems w = cancellation thread pendingItems w.
Proof.
  unfold handleStreamCancelled, cancellation.
  apply bind_ext_l, persistPending_persistAll.
Qed.
End Generic.

(** ** What a generator can emit *)

Section EmitsOnly.
Context {St : Type} (P : ThreadStreamEvent -> Prop).

Lemma emits_ret {A} (a : A) : emits_only P (ret (St := St) a).
Proof. intros st e []. Qed.

Lemma emits_throw {A} e0 : emits_only P (throw (St := St) (A := A) e0).
Proof. intros st e []. Qed.

Lemma emits_gets {A} (f : St -> A) : emits_only P (gets f).
Proof. intros st e []. Qed.

Lemma emits_modify (f : St -> St) : emits_only P (modify f).
Proof. intros st e []. Qed.

Lemma emits_yield ev : P ev -> emits_only P (yield (St := St) ev).
Proof. intros HP st e [<-|[]]. exact HP. Qed.

Lemma emits_bind {A B} (m : Gen St A) (k : A -> Gen St B) :
  emits_only P m -> (forall a, emits_only P (k a)) -> emits_only P (bind m k).
Proof.
  intros Hm Hk st e. unfold bind.
  destruct (completed (m st)) eqn:E; cbn [emitted]; try apply Hm.
  rewrite in_app_iff. intros [Hin|Hin]; [now apply (Hm st) | now apply (Hk a (final (m st)))].
Qed.

Lemma emits_try_catch {A} (m : Gen St A) (h : exn -> Gen St A) :
  emits_only P m -> (forall e, emits_only P (h e)) -> emits_only P (try_catch m h).
Proof.
  intros Hm Hh st e. unfold try_catch.
  destruct (completed (m st)) eqn:E; cbn [emitted]; try apply Hm.
  rewrite in_app_iff. intros [Hin|Hin]; [now apply (Hm st) | now apply (Hh e0 (final (m st)))].
Qed.
End EmitsOnly.

Lemma emits_only_impl {St A} (P Q : ThreadStreamEvent -> Prop) (m : Gen St A) :
  (forall e, P e -> Q e) -> emits_only P m -> emits_only Q m.
Proof. intros HPQ Hm st e Hin. apply HPQ, (Hm st e Hin). Qed.

(** ** Hidden items never reach the wire *)

Lemma toThreadResponse_noHidden thread : noHidden (toThreadResponse thread) = true.
Proof.
  unfold noHidden, toThreadResponse. cbn [Thread.items Page.data].
  apply forallb_forall. intros item Hin. now apply filter_In in Hin.
Qed.

Section Suppression.
Context {S : Type} `{Store S}.

Lemma emits_inWorld {A} P (m : Gen (World S) A) :
  emits_only P m -> emits_only P (inWorld m).
Proof. intros Hm t e Hin. exact (Hm (world t) e Hin). Qed.

Lemma emits_call {A} P (method : World S -> result A * World S) :
  emits_only P (call method).
Proof. intros w e. unfold call. destruct (method w). intros []. Qed.

Lemma build_emits_nothing P thread : emits_only P (buildThreadResponseWithPending thread).
Proof.
  unfold buildThreadResponseWithPending, loadFullThread.
  repeat first [ apply emits_bind; [|intros ?] | apply emits_inWorld | apply emits_call
               | apply emits_ret | apply emits_gets ].
Qed.

Lemma build_returns_clean thread t ft :
  completed (buildThreadResponseWithPending thread t) = Returned ft -> noHidden ft = true.
Proof.
  unfold buildThreadResponseWithPending, loadFullThread, inWorld, bind, call, gets, ret.
  cbn [world pendingItems emitted completed final].
  destruct (loadThread (ThreadMetadata.id thread) (world t)) as [[meta|e] w1];
    cbn [emitted completed final]; [|discriminate].
  destruct (loadThreadItems (ThreadMetadata.id thread) None DEFAULT_PAGE_SIZE asc w1)
    as [[page|e] w2]; cbn [emitted completed final]; [|discriminate].
  intros [= <-]. apply toThreadResponse_noHidden.
Qed.

(** An item-done event: the item is added to the thread and dropped from
    the pending items, the event is forwarded unless the item is hidden,
    and a snapshot follows. *)
Lemma processEvent_done thread item (t : Turn) (w1 w2 w3 : World S) meta page :
  addThreadItem (ThreadMetadata.id thread) item (world t) = (Ok tt, w1) ->
  loadThread (ThreadMetadata.id thread) w1 = (Ok meta, w2) ->
  loadThreadItems (ThreadMetadata.id thread) None DEFAULT_PAGE_SIZE asc w2 = (Ok page, w3) ->
  exists snapshot,
    processEvent thread (ThreadItemDoneEvent item) t
    = {| emitted := (if isHidden item then [] else [ThreadItemDoneEvent item])
                    ++ [ThreadUpdatedEvent snapshot];
         completed := Returned tt;
         final := {| world := w3;
                     pendingItems := JSObject.delete (pendingItems t) (item_id item) |} |}
    /\ noHidden snapshot = true.
Proof.
  intros Ha Hl Hi. eexists. split; [|apply toThreadResponse_noHidden].
  unfold processEvent.
  erewrite bind_run by reflexivity.
  erewrite bind_run.
  2: { erewrite bind_run.
       2: { unfold inWorld. erewrite call_ok by exact Ha. reflexivity. }
       erewrite bind_run by reflexivity. reflexivity. }
  cbn [app emitted completed final world pendingItems].
  change (shouldSwallowEvent (ThreadItemDoneEvent item)) with (isHidden item).
  unfold threadReplaced. cbn [orb].
  destruct (isHidden item); cbn [negb];
    (erewrite bind_run by reflexivity;
     erewrite bind_run by reflexivity;
     erewrite bind_run by (eapply buildThreadResponseWithPending_ok; eauto);
     reflexivity).
Qed.

(** The snapshot that [processEvents] synthesizes and yields. *)
Lemma snapshot_emits_clean thread :
  emits_only (fun e => clean e = true)
    (fullThread <- buildThreadResponseWithPending thread ;;
     yield (ThreadUpdatedEvent fullThread)).
Proof.
  intros t e. unfold bind at 1.
  assert (Hnone : forall x, In x (emitted (buildThreadResponseWithPending thread t)) -> False).
  { intros x. apply (@build_emits_nothing (fun _ => False) thread t x). }
  destruct (completed (buildThreadResponseWithPending thread t)) as [ft| |] eqn:E;
    cbn [emitted]; try (intros Hin; now apply Hnone in Hin).
  rewrite in_app_iff. intros [Hin|[<-|[]]].
  - now apply Hnone in Hin.
  - cbn [clean]. eapply build_returns_clean; eauto.
Qed.

Lemma processEvent_emits thread event :
  emits_only (passes event) (processEvent thread event).
Proof.
  assert (Hsnap : emits_only (passes event)
                    (fullThread <- buildThreadResponseWithPending thread ;;
                     yield (ThreadUpdatedEvent fullThread))).
  { eapply emits_only_impl; [|apply snapshot_emits_clean]. intros e He. now left. }
  assert (Hfwd : emits_only (passes event)
                   (if negb (shouldSwallowEvent event) then yield event else ret tt
                    : Gen (@Turn S) unit)).
  { destruct (shouldSwallowEvent event) eqn:Es; cbn [negb]; [apply emits_ret|].
    apply emits_yield. destruct event; try (now left).
    - right. split; [eauto | reflexivity].
    - left. cbn [clean]. unfold isHidden. cbn [shouldSwallowEvent] in Es. now rewrite Es. }
  unfold processEvent.
  apply emits_bind.
  { destruct event; try apply emits_ret. apply emits_modify. }
  intros _. apply emits_bind.
  { destruct event;
      repeat first [ apply emits_bind; [|intros ?] | apply emits_inWorld | apply emits_call
                   | apply emits_ret | apply emits_gets | apply emits_modify ].
    destruct a as [[]|]; first [apply emits_modify | apply emits_ret]. }
  intros emitThreadUpdate. apply emits_bind; [exact Hfwd|].
  intros _. destruct (emitThreadUpdate || threadReplaced); [|apply emits_ret].
  apply emits_bind; [|intros _; exact Hsnap].
  unfold threadReplaced. apply emits_ret.
Qed.

Lemma forAwait_emits thread (stream : TurnSource S) :
  emits_only (allowed stream) (forAwait thread stream).
Proof.
  induction stream as [|e0|ev rest IH|effect rest IH]; cbn [forAwait].
  - apply emits_ret.
  - apply emits_throw.
  - apply emits_bind.
    + eapply emits_only_impl; [|apply processEvent_emits].
      intros e [Hc|[Ht ->]]; [now left | right; split; [exact Ht | now left]].
    + intros _. eapply emits_only_impl; [|exact IH].
      intros e [Hc|[Ht Hy]]; [now left | right; split; [exact Ht | now right]].
  - intros t e Hin. apply IH in Hin.
    destruct Hin as [Hc|[Ht Hy]]; [now left | right; split; [exact Ht | eexists; exact Hy]].
Qed.

(** Every event [processEvents] emits shows no hidden item, unless it is
    a [thread.updated] of the stream, passed on. *)
Lemma processEvents_emits server thread (stream : TurnSource S) :
  emits_only (allowed stream) (processEvents server thread stream).
Proof.
  assert (Hsnap : emits_only (allowed stream)
                    (fullThread <- buildThreadResponseWithPending thread ;;
                     yield (ThreadUpdatedEvent fullThread))).
  { eapply emits_only_impl; [|apply snapshot_emits_clean]. intros e He. now left. }
  unfold processEvents. apply emits_bind; [apply emits_yield; now left|].
  intros _ w e Hin. cbn [emitted] in Hin. revert Hin.
  apply emits_try_catch.
  - apply emits_bind; [apply forAwait_emits | intros _; exact Hsnap].
  - intros err. apply emits_bind.
    + apply emits_yield. left. destruct err; reflexivity.
    + intros _. apply emits_bind; [unfold threadReplaced; apply emits_ret|].
      intros _. exact Hsnap.
Qed.

Lemma itemsList_clean thread_id after limit order (w : World S) page :
  completed (itemsList thread_id after limit order w) = Returned page ->
  forallb (fun item => negb (isHidden item)) (Page.data page) = true.
Proof.
  unfold itemsList, bind, call, ret.
  destruct (loadThreadItems thread_id after _ _ w) as [[items|e] w'];
    cbn [emitted completed final]; [|discriminate].
  intros [= <-]. cbn [Page.data]. apply forallb_forall. intros item Hin.
  apply filter_In in Hin as [_ Hin]. unfold isHidden.
  now rewrite negb_orb.
Qed.
End Suppression.

End ServerFacts.

(** * Properties of the in-memory store and of the server over it *)

Module InMemoryFacts.
Import Widget Types Store Server InMemoryStore ServerSpec ServerFacts.

Lemma get_set_same m k v : get (set m k v) k = Some v.
Proof.
  induction m as [|[k' v'] m IH]; simpl.
  - now rewrite String.eqb_refl.
  - destruct (String.eqb k' k) eqn:E; simpl; rewrite E; [reflexivity | exact IH].
Qed.

Lemma set_set m k v v' : set (set m k v) k v' = set m k v'.
Proof.
  induction m as [|[k0 v0] m IH]; simpl.
  - now rewrite String.eqb_refl.
  - destruct (String.eqb k0 k) eqn:E; simpl; rewrite E; [reflexivity | now rewrite IH].
Qed.

Lemma set_get m k v : get m k = Some v -> set m k v = m.
Proof.
  induction m as [|[k0 v0] m IH]; simpl; [discriminate|].
  destruct (String.eqb k0 k) eqn:E.
  - intros [= ->]. reflexivity.
  - intros Hg. now rewrite IH.
Qed.

(** ** Cancellation *)

Lemma appended_nil w threadId stored :
  get (store w) threadId = Some stored -> appended w threadId stored [] = w.
Proof.
  intros Hg. unfold appended, with_store. rewrite app_nil_r.
  destruct stored as [t its]. cbn [thr items]. rewrite (set_get _ _ Hg).
  now destruct w.
Qed.

Lemma appended_get w threadId stored added :
  get (store (appended w threadId stored added)) threadId
  = Some {| thr := thr stored; items := items stored ++ added |}.
Proof. unfold appended, with_store. cbn [store]. apply get_set_same. Qed.

Lemma appended_appended w threadId stored added more :
  appended (appended w threadId stored added) threadId
           {| thr := thr stored; items := items stored ++ added |} more
  = appended w threadId stored (added ++ more).
Proof.
  unfold appended, with_store. cbn [store idCounter now thr items].
  now rewrite set_set, app_assoc.
Qed.

Lemma addThreadItem_appended w threadId stored item :
  get (store w) threadId = Some stored ->
  addThreadItem threadId item w = (Ok tt, appended w threadId stored [item]).
Proof. intros Hg. cbn. unfold mem_addThreadItem. now rewrite Hg. Qed.

Lemma persistPending_appended threadId pendingItems :
  forall w stored,
    get (store w) threadId = Some stored ->
    persistPending threadId
      (filter (fun item => String.eqb (item_type item) "assistant_message") pendingItems) w
    = {| emitted := []; completed := Returned tt;
         final := appended w threadId stored (filter persistable pendingItems) |}.
Proof.
  induction pendingItems as [|item rest IH]; intros w stored Hg.
  - cbn. now rewrite appended_nil.
  - cbn [filter].
    destruct item as [h content| | | | | | | |a];
      try (cbn [item_type String.eqb Ascii.eqb Bool.eqb persistable]; now apply IH).
    2: { cbn [item_type persistable]. destruct (attachment_type a); now apply IH. }
    cbn [item_type persistable]. rewrite String.eqb_refl. cbn [persistPending].
    rewrite isEmpty_spec, negb_involutive.
    destruct (existsb (fun c => negb (blank (text c))) content) eqn:E.
    + unfold bind at 1. unfold call. erewrite addThreadItem_appended by exact Hg.
      cbn [emitted completed final].
      erewrite IH by apply appended_get.
      cbn [emitted completed final app]. now rewrite appended_appended.
    + unfold bind at 1. cbn [ret emitted completed final].
      erewrite IH by exact Hg. reflexivity.
Qed.

(** Cancellation appends the persistable pending items and the hidden
    item to the stored thread. *)
Lemma handleStreamCancelled_appended thread pendingItems w stored :
  get (store w) (ThreadMetadata.id thread) = Some stored ->
  handleStreamCancelled thread pendingItems w
  = {| emitted := []; completed := Returned tt;
       final :=
         {| store := set (store w) (ThreadMetadata.id thread)
                         {| thr := thr stored;
                            items := items stored ++ filter persistable pendingItems
                                     ++ [cancelledItem thread w] |};
            idCounter := increment (idCounter w);
            now := now w |} |}.
Proof.
  intros Hg. unfold handleStreamCancelled.
  erewrite bind_run by (apply persistPending_appended; exact Hg).
  erewrite bind_run by reflexivity.
  erewrite bind_run by (apply call_ok; reflexivity).
  erewrite call_ok
    by (apply addThreadItem_appended; cbn [snd defaultGenerateId store];
        apply appended_get).
  cbn [app emitted completed final].
  unfold appended, with_store, cancelledItem.
  cbn [store idCounter now thr items ID_PREFIXES String.append snd fst defaultGenerateId].
  now rewrite set_set, <- app_assoc.
Qed.

(** ** Loading from the store *)

Lemma loadThread_stored w threadId stored :
  get (store w) threadId = Some stored ->
  loadThread threadId w = (Ok (thr stored), w).
Proof. intros Hg. cbn. unfold mem_loadThread. now rewrite Hg. Qed.

Lemma loadThreadItems_pure threadId after limit order (w : World threads) :
  snd (loadThreadItems threadId after limit order w) = w
  /\ exists page, fst (loadThreadItems threadId after limit order w) = Ok page.
Proof. cbn. unfold mem_loadThreadItems. split; [reflexivity | eexists; reflexivity]. Qed.

(** ** Retrying after an item the thread does not hold *)

Lemma scanPage_none item_id_param data :
  ~ In item_id_param (map item_id data) ->
  forall itemsToRemove,
    scanPage item_id_param data itemsToRemove = Ok (None, itemsToRemove ++ data).
Proof.
  induction data as [|item rest IH]; intros Hn acc; simpl.
  - now rewrite app_nil_r.
  - destruct (String.eqb (item_id item) item_id_param) eqn:E.
    + apply String.eqb_eq in E. elim Hn. now left.
    + rewrite IH by (intros Hin; apply Hn; now right).
      now rewrite <- app_assoc.
Qed.

Lemma findIndex_nth all d :
  NoDup (map item_id all) ->
  forall n, n < List.length all -> findIndex all (item_id (nth n all d)) = Some n.
Proof.
  induction all as [|i rest IH]; intros Hn n Hlt; simpl in *; [lia|].
  inversion Hn as [|? ? Hi Hn']; subst.
  destruct n as [|n].
  - now rewrite String.eqb_refl.
  - destruct (String.eqb (item_id i) (item_id (nth n rest d))) eqn:E.
    + apply String.eqb_eq in E. elim Hi. rewrite E. apply in_map, nth_In. lia.
    + rewrite IH by (auto; lia). reflexivity.
Qed.

Lemma last_map_Some (l : list ThreadItem) d :
  l <> [] -> last (map Some l) None = Some (nth (List.length l - 1) l d).
Proof.
  induction l as [|x l IH]; intros Hne; [congruence|].
  destruct l as [|y l]; [reflexivity|].
  change (last (map Some (x :: y :: l)) None) with (last (map Some (y :: l)) None).
  rewrite IH by discriminate. simpl. now rewrite Nat.sub_0_r.
Qed.

Lemma loadThreadItems_asc w threadId stored after limit :
  get (store w) threadId = Some stored ->
  loadThreadItems threadId after limit asc w
  = (Ok (Page.mk (slice (items stored) (startIndexOf (items stored) after) limit)
                 (startIndexOf (items stored) after + limit <? List.length (items stored))%nat
                 (match last (map Some (slice (items stored)
                                          (startIndexOf (items stored) after) limit)) None with
                  | Some l => Some (item_id l)
                  | None => None
                  end)), w).
Proof. intros Hg. cbn. unfold mem_loadThreadItems. now rewrite Hg. Qed.

Lemma startIndexOf_cursor all d start :
  NoDup (map item_id all) ->
  Forall (fun i => JSString.truthy (item_id i) = true) all ->
  start <= List.length all ->
  startIndexOf all (cursor all start d) = start.
Proof.
  intros Hn Ht Hle. destruct start as [|n]; [reflexivity|]. cbn [cursor startIndexOf].
  rewrite Forall_forall in Ht. rewrite Ht by (apply nth_In; lia).
  rewrite findIndex_nth by (auto; lia). lia.
Qed.

Section Retry.
Variables (threadId item_id_param : string) (stored : StoredThread) (d : ThreadItem).
Hypothesis no_dup : NoDup (map item_id (items stored)).
Hypothesis ids_truthy : Forall (fun i => JSString.truthy (item_id i) = true) (items stored).
Hypothesis absent : ~ In item_id_param (map item_id (items stored)).

Lemma absent_skipn n : ~ In item_id_param (map item_id (skipn n (items stored))).
Proof.
  intros Hin. apply absent. rewrite <- (firstn_skipn n (items stored)), map_app.
  apply in_or_app. now right.
Qed.

(** Paging from position [start] on, when no item has the id sought,
    collects all the remaining items and finds nothing. *)
Lemma paginate_absent fuel :
  forall w start itemsToRemove,
    get (store w) threadId = Some stored ->
    start <= List.length (items stored) ->
    List.length (items stored) - start < fuel ->
    paginateThreadItemsReverse fuel threadId item_id_param
      (cursor (items stored) start d) itemsToRemove w
    = {| emitted := []; completed := Returned (None, itemsToRemove ++ skipn start (items stored));
         final := w |}.
Proof.
  induction fuel as [|fuel IH]; intros w start acc Hg Hle Hf; [lia|].
  cbn [paginateThreadItemsReverse].
  erewrite bind_run by (apply call_ok; apply loadThreadItems_asc; exact Hg).
  rewrite startIndexOf_cursor by auto.
  cbn [Page.data Page.has_more Page.after app].
  unfold slice, DEFAULT_PAGE_SIZE.
  rewrite scanPage_none.
  2: { intros Hin. apply (absent_skipn start).
       rewrite <- (firstn_skipn 20 (skipn start (items stored))), map_app.
       apply in_or_app. now left. }
  destruct (start + 20 <? List.length (items stored))%nat eqn:E; cbn [negb].
  - apply Nat.ltb_lt in E.
    assert (Hlen : List.length (firstn 20 (skipn start (items stored))) = 20).
    { rewrite length_firstn, length_skipn. lia. }
    rewrite (@last_map_Some _ d) by (intros E0; rewrite E0 in Hlen; discriminate).
    rewrite Hlen. cbn [Nat.sub].
    replace (Some (item_id (nth 19 (firstn 20 (skipn start (items stored))) d)))
      with (cursor (items stored) (start + 20) d).
    2: { replace (start + 20) with (Datatypes.S (start + 19)) by lia. cbn [cursor].
         rewrite nth_firstn. cbn. rewrite nth_skipn. reflexivity. }
    rewrite IH by (auto; lia).
    rewrite <- app_assoc. repeat f_equal.
    rewrite <- (firstn_skipn 20 (skipn start (items stored))) at 2.
    now rewrite skipn_skipn, Nat.add_comm.
  - apply Nat.ltb_ge in E. unfold ret.
    rewrite firstn_all2 by (rewrite length_skipn; lia). reflexivity.
Qed.
End Retry.

(** The same when the items fit one page, whatever their ids. *)
Lemma paginate_one_page fuel threadId item_id_param (stored : StoredThread) w :
  get (store w) threadId = Some stored ->
  ~ In item_id_param (map item_id (items stored)) ->
  List.length (items stored) <= DEFAULT_PAGE_SIZE ->
  paginateThreadItemsReverse (Datatypes.S fuel) threadId item_id_param None [] w
  = {| emitted := []; completed := Returned (None, items stored); final := w |}.
Proof.
  intros Hg Habs Hlen. cbn [paginateThreadItemsReverse].
  erewrite bind_run by (apply call_ok; apply loadThreadItems_asc; exact Hg).
  cbn [startIndexOf Page.data Page.has_more Page.after app].
  unfold slice. cbn [skipn]. rewrite firstn_all2 by exact Hlen.
  rewrite scanPage_none by exact Habs. cbn [app].
  replace (0 + DEFAULT_PAGE_SIZE <? List.length (items stored))%nat with false
    by (symmetry; apply Nat.ltb_ge; cbn; lia).
  reflexivity.
Qed.

End InMemoryFacts.

(** * The claims *)

Module Claims.
Import Widget WidgetSpec Types Emitter Store Server InMemoryStore ServerSpec.
Import WidgetFacts ServerFacts InMemoryFacts Samples.

Unset Implicit Arguments.

(** ** The diff engine *)

(** C2 (the code at the failing input): flipping the [streaming] flag of
    the text node "text" from [true] to [false], its value "Hello"
    unchanged, triggers no full replace, as the claim says, but
    [diffWidget] returns the empty list: the flip is not captured by a
    delta with an empty string and [done = true], which is what the claim,
    and the comment on the [streaming] exemption in [fullReplace],
    promise. *)
Theorem C2_streaming_flip_gives_no_delta :
  let before := cardOf 1 2 [textNode 3 "text" "Hello" true] in
  let after := cardOf 4 5 [textNode 6 "text" "Hello" false] in
  fullReplace before after = false
  /\ diffWidget before after = Ok []
  /\ diffWidget before after <> Ok [WidgetStreamingTextValueDelta "text" "" true].
Proof. repeat split; [vm_compute; reflexivity .. | discriminate]. Qed.

(** The same on every pair of snapshots that the traversal can walk and
    that differ only in that one id-bearing Text node was replaced by one
    with the same value and another [streaming] field: the loop of
    [diffWidget] pushes a delta only when the two values differ. *)
Lemma flip_alone_gives_no_delta (before after : value) (tid v : string) (s : value) :
  edited (textEdit (VStr tid) v "" s) before after = true ->
  JSString.truthy tid = true ->
  iterable before = true ->
  diffWidget before after = Ok [].
Proof.
  intros He Ht Hit.
  rewrite (@diff_edited tid v "" s before after He Ht Hit
             (or_intror eq_refl) (or_intror eq_refl)).
  reflexivity.
Qed.

(** C3, as the specification states it, fails on a Markdown node:
    extending its value from "Hello" to "Hello, world!" with every other
    field unchanged triggers a full replace, and so does a change of its
    [streaming] field alone. *)
Lemma C3_markdown_counterexample :
  let before := cardOf 1 2 [markdownNode 3 "text" "Hello" true] in
  let extended := cardOf 4 5 [markdownNode 6 "text" "Hello, world!" true] in
  let flipped := cardOf 4 5 [markdownNode 6 "text" "Hello" false] in
  JSString.startsWith "Hello, world!" "Hello" = true
  /\ fullReplace before extended = true
  /\ diffWidget before extended = Ok [WidgetRootUpdated extended]
  /\ fullReplace before flipped = true.
Proof. repeat split; vm_compute; reflexivity. Qed.

(** C3 (amended): for every pair of snapshots that differ only in that one
    Text node (a node of type "Text" whose value is a string) was replaced
    by one whose value extends the old value, or whose [streaming] field
    differs, or both, no full replace is triggered. *)
Theorem C3_text_extension_no_full_replace (before after : value)
    (id : value) (v suffix : string) (s : value) :
  edited (textEdit id v suffix s) before after = true ->
  fullReplace before after = false.
Proof.
  intros He. eapply edited_no_replace; [|exact He].
  intros b a. apply textEdit_no_replace.
Qed.

Lemma C3_text_extension_no_full_replace_witness :
  let before := cardOf 1 2 [textNode 3 "text" "Hello" true] in
  let after := cardOf 4 5 [textNode 6 "text" "Hello, world!" false] in
  edited (textEdit (VStr "text") "Hello" ", world!" (VBool false)) before after = true
  /\ fullReplace before after = false.
Proof.
  refine (conj eq_refl _).
  apply (C3_text_extension_no_full_replace
           (cardOf 1 2 [textNode 3 "text" "Hello" true])
           (cardOf 4 5 [textNode 6 "text" "Hello, world!" false])
           (VStr "text") "Hello" ", world!" (VBool false)); reflexivity.
Defined.

(** C4, as the specification states it, fails: when the value of the text
    node "text" regresses from "Hello" to "Hell", [diffWidget] does not
    fail; it returns one full replace. *)
Lemma C4_regress_counterexample :
  let before := cardOf 1 2 [textNode 3 "text" "Hello" true] in
  let after := cardOf 4 5 [textNode 6 "text" "Hell" true] in
  JSString.startsWith "Hell" "Hello" = false
  /\ diffWidget before after = Ok [WidgetRootUpdated after]
  /\ diffWidget before after <> Err (NotCumulative "text").
Proof. repeat split; [vm_compute; reflexivity .. | discriminate]. Qed.

(** C4 (amended): for every pair of snapshots in which an id-bearing Text
    node's value in the after snapshot does not start with its value in
    the before snapshot, [diffWidget] does not fail: it returns exactly
    one full-replace delta, which carries the after snapshot. *)
Theorem C4_regress_full_replace (before after : value) (tid : string) :
  located (textRegress tid) before after = true ->
  diffWidget before after = Ok [WidgetRootUpdated after].
Proof.
  intros Hl.
  assert (Hfr : fullReplace before after = true).
  { eapply located_replace; [|exact Hl]. intros b a. apply textRegress_replaces. }
  unfold diffWidget.
  destruct before; try discriminate Hl. destruct after; try discriminate Hl.
  cbn [is_nullish orb]. now rewrite Hfr.
Qed.

Lemma C4_regress_full_replace_witness :
  let before := cardOf 1 2 [textNode 3 "text" "Hello" true] in
  let after := cardOf 4 5 [textNode 6 "text" "Hell" true] in
  located (textRegress "text") before after = true
  /\ diffWidget before after = Ok [WidgetRootUpdated after].
Proof.
  refine (conj eq_refl _).
  apply (C4_regress_full_replace
           (cardOf 1 2 [textNode 3 "text" "Hello" true])
           (cardOf 4 5 [textNode 6 "text" "Hell" true]) "text"); reflexivity.
Defined.

(** C5 (the code at the failing input): in a Card, the Text node "text"
    is extended from "Hello" to "Hello, world!" and every other field of
    every node is unchanged; beside it sits a Transition, whose [children]
    is one component, as its type has it.  No full replace is triggered,
    and [diffWidget] does not return the delta ", world!": the traversal
    iterates the [children] of the Transition with [for ... of], and
    throws a [TypeError]. *)
Theorem C5_extension_beside_transition_throws :
  let before :=
    cardOf 1 2 [textNode 3 "text" "Hello" true; transitionOf 4 (textNode 5 "note" "x" false)] in
  let after :=
    cardOf 6 7 [textNode 8 "text" "Hello, world!" true;
                transitionOf 9 (textNode 10 "note" "x" false)] in
  edited (textEdit (VStr "text") "Hello" ", world!" (VBool true)) before after = true
  /\ fullReplace before after = false
  /\ diffWidget before after = Err TypeError
  /\ diffWidget before after
     <> Ok [WidgetStreamingTextValueDelta "text" ", world!" false].
Proof. repeat split; [vm_compute; reflexivity .. | discriminate]. Qed.

(** A second input on which the extension gives no delta: under the id
    "__proto__" the assignment that registers the node replaces the
    prototype of [components] and adds no entry, so the loop over the
    entries finds no node. *)
Example proto_id_registers_nothing :
  let before := cardOf 1 2 [textNode 3 "__proto__" "Hello" true] in
  let after := cardOf 4 5 [textNode 6 "__proto__" "Hello, world!" true] in
  findAllStreamingTextComponents after
  = Ok {| proto := Some (textNode 6 "__proto__" "Hello, world!" true); own := [] |}
  /\ diffWidget before after = Ok [].
Proof. split; reflexivity. Qed.

(** Away from those inputs the code does what the claim says: for every
    pair of snapshots that the traversal can walk and that differ only in
    that one id-bearing Text node (the only one registered under its id,
    which is not the name "__proto__") was replaced by one whose value is
    the old value followed by a suffix that is not empty, [diffWidget]
    returns exactly one streaming-text delta, for that id, whose [delta] is
    the suffix and whose [done] is the negation of the [streaming] field of
    the new node. *)
Lemma text_extension_single_delta (before after : value) (tid v suffix : string) (s : value) :
  edited (textEdit (VStr tid) v suffix s) before after = true ->
  JSString.truthy tid = true ->
  tid <> "__proto__" ->
  suffix <> EmptyString ->
  count_occ string_dec (textIds before) tid = 1 ->
  iterable before = true ->
  diffWidget before after
  = Ok [WidgetStreamingTextValueDelta tid suffix (negb (truthy s))].
Proof.
  intros He Ht Hk Hs Hc Hit.
  rewrite (@diff_edited tid v suffix s before after He Ht Hit (or_introl Hc) (or_introl Hk)).
  apply String.eqb_neq in Hs. now rewrite Hs.
Qed.

(** ** The emitter *)

(** C6: given a producer that yields the Text node "t" with value "" and
    then with value "Hello, world" and [streaming: false], [streamWidget]
    yields exactly three events: the item added with the first snapshot,
    one update with the delta "Hello, world" and [done = true], and the
    item done with the second snapshot; all three carry the generated
    item id. *)
Theorem C6_emitter_three_events (thread : ThreadMetadata.t) (copyText : option string)
    (itemId : string) (now : Z) (r1 r2 : nat) :
  let header := {| id := itemId; thread_id := ThreadMetadata.id thread; created_at := now |} in
  let out := streamWidget thread (Generator [emptyText r1; helloText r2]) copyText itemId now in
  out = {| events :=
             [ThreadItemAddedEvent (WidgetItem header (emptyText r1) copyText);
              ThreadItemUpdatedEvent itemId
                (WidgetUpdated (WidgetStreamingTextValueDelta "t" "Hello, world" true));
              ThreadItemDoneEvent (WidgetItem header (helloText r2) copyText)];
           ended := Ok tt |}
  /\ Forall (fun event => eventItemId event = Some itemId) (events out).
Proof.
  cbv zeta. split; [reflexivity|].
  repeat constructor.
Qed.

(** ** The server *)

(** C1 (the code at the failing inputs): a retry after the user message
    "msg_1" deletes none of the two newer items stored after it (the
    world is left as it was), and it deletes the older item stored before
    it. *)
Theorem C1_retry_removes_older_items :
  let w := worldOf [userMessage; widget1; widget2] in
  let w' := worldOf [widget1; userMessage; widget2] in
  final (retryAfterItem 5 quietServer "thr_test" "msg_1" w) = w
  /\ completed (retryAfterItem 5 quietServer "thr_test" "msg_1" w) = Returned tt
  /\ final (retryAfterItem 5 quietServer "thr_test" "msg_1" w')
     = worldOf [userMessage; widget2].
Proof. repeat split; vm_compute; reflexivity. Qed.

(** C7: when the turn source throws, before it yields anything, an error
    that is neither a [StreamError] nor a [CustomStreamError], and the
    thread can be loaded, [processEvents] emits exactly the stream
    options, one error event with code [stream_error], the default message
    and [allowRetry = true], and one [thread.updated] snapshot; it returns
    without rethrowing. *)
Theorem C7_source_throws_first {S : Type} `{Store S}
    (server : ChatKitServer) (thread : ThreadMetadata.t) (stream : TurnSource S)
    (w w' w1 w2 : World S) (e : exn) (meta : ThreadMetadata.t) (page : Page.t ThreadItem) :
  throws_first stream w = Some (e, w') ->
  (forall allowRetry, e <> StreamError allowRetry) ->
  (forall msg allowRetry, e <> CustomStreamError msg allowRetry) ->
  loadThread (ThreadMetadata.id thread) w' = (Ok meta, w1) ->
  loadThreadItems (ThreadMetadata.id thread) None DEFAULT_PAGE_SIZE asc w1 = (Ok page, w2) ->
  processEvents server thread stream w
  = {| emitted :=
         [StreamOptionsEvent (getStreamOptions server thread);
          ErrorEvent stream_error (Some DEFAULT_ERROR_MESSAGE) (Some true);
          ThreadUpdatedEvent (toThreadResponse (Thread.mk meta page))];
       completed := Returned tt;
       final := w2 |}.
Proof.
  intros Hs He1 He2 Hl1 Hl2. unfold processEvents.
  erewrite bind_run by reflexivity. cbn [app emitted completed final].
  unfold try_catch.
  erewrite bind_run_threw by (apply forAwait_throws_first; exact Hs).
  cbn [emitted completed final].
  erewrite bind_run by reflexivity. unfold threadReplaced.
  erewrite bind_run by reflexivity.
  erewrite bind_run by (eapply buildThreadResponseWithPending_ok; eauto).
  cbn [app emitted completed final world yield JSObject.values JSObject.empty map filter].
  rewrite (errorEventOf_other He1 He2), app_nil_r.
  now destruct page.
Qed.

Lemma C7_source_throws_first_witness :
  let w := worldOf [userMessage] in
  processEvents quietServer testThread (SThrow (PlainError "boom")) w
  = {| emitted :=
         [StreamOptionsEvent {| allow_cancel := true |};
          ErrorEvent stream_error (Some DEFAULT_ERROR_MESSAGE) (Some true);
          ThreadUpdatedEvent
            (toThreadResponse
               (Thread.mk testThread (Page.mk [userMessage] false (Some "msg_1"))))];
       completed := Returned tt;
       final := w |}.
Proof.
  apply (C7_source_throws_first quietServer testThread (SThrow (PlainError "boom"))
           (worldOf [userMessage]) (worldOf [userMessage]) (worldOf [userMessage])
           (worldOf [userMessage]) (PlainError "boom") testThread
           (Page.mk [userMessage] false (Some "msg_1")));
    try reflexivity; intros; discriminate.
Defined.

(** C8: over every store, the default [handleStreamCancelled] runs
    [addThreadItem] on every pending assistant message that has a part
    whose text is not blank, in order and on no other pending item, and
    then on one new [sdk_hidden_context] item whose content is "The user
    cancelled the stream. Stop responding to the prior request.".  On a
    stored thread of the in-memory store it so appends exactly these items
    to the thread, emits nothing and returns. *)
Theorem C8_cancellation_persists :
  (forall (S : Type) (St : Store S) (thread : ThreadMetadata.t)
          (pendingItems : list ThreadItem) (w : World S),
      handleStreamCancelled thread pendingItems w = cancellation thread pendingItems w)
  /\ (forall (thread : ThreadMetadata.t) (pendingItems : list ThreadItem)
             (w : World threads) (stored : StoredThread),
         get (store w) (ThreadMetadata.id thread) = Some stored ->
         handleStreamCancelled thread pendingItems w
         = {| emitted := [];
              completed := Returned tt;
              final :=
                {| store :=
                     set (store w) (ThreadMetadata.id thread)
                         {| thr := thr stored;
                            items :=
                              items stored ++ filter persistable pendingItems
                              ++ [cancelledItem thread w] |};
                   idCounter := increment (idCounter w);
                   now := now w |} |}).
Proof.
  split.
  - intros S St thread pendingItems w. apply handleStreamCancelled_cancellation.
  - intros thread pendingItems w stored Hg. now apply handleStreamCancelled_appended.
Qed.

Lemma C8_cancellation_persists_witness :
  get (store (worldOf [])) (ThreadMetadata.id testThread)
  = Some {| thr := testThread; items := [] |}
  /\ handleStreamCancelled testThread [assistant "Hello, "] (worldOf [])
     = {| emitted := [];
          completed := Returned tt;
          final :=
            {| store :=
                 [("thr_test",
                   {| thr := testThread;
                      items :=
                        [assistant "Hello, ";
                         SDKHiddenContextItem
                           {| id := "shcx_1"; thread_id := "thr_test"; created_at := 0 |}
                           "The user cancelled the stream. Stop responding to the prior request."] |})];
               idCounter := 1;
               now := 0 |} |}.
Proof.
  refine (conj eq_refl _).
  apply (proj2 C8_cancellation_persists testThread [assistant "Hello, "] (worldOf [])
           {| thr := testThread; items := [] |}).
  reflexivity.
Defined.

(** C8, the second example: a pending assistant message whose text is
    blank is not persisted; only the hidden item is. *)
Example cancellation_blank_text :
  persistable (assistant "   ") = false
  /\ items_of (final (handleStreamCancelled testThread [assistant "   "] (worldOf [])))
     = [SDKHiddenContextItem
          {| id := "shcx_1"; thread_id := "thr_test"; created_at := 0 |}
          "The user cancelled the stream. Stop responding to the prior request."].
Proof. split; reflexivity. Qed.

(** C10: a retry after an item id that no item of the stored thread
    carries completes without an error, emits no event, and leaves the
    store as it was.  (The items of the thread fit one page, or their ids
    are distinct and not empty, so that paging through them ends.) *)
Theorem C10_retry_unknown_item (server : ChatKitServer) (thread_id item_id_param : string)
    (w : World threads) (stored : StoredThread) (fuel : nat) :
  get (store w) thread_id = Some stored ->
  ~ In item_id_param (map item_id (items stored)) ->
  List.length (items stored) <= DEFAULT_PAGE_SIZE
  \/ (NoDup (map item_id (items stored))
      /\ Forall (fun i => JSString.truthy (item_id i) = true) (items stored)) ->
  List.length (items stored) < fuel ->
  retryAfterItem fuel server thread_id item_id_param w
  = {| emitted := []; completed := Returned tt; final := w |}.
Proof.
  intros Hg Habs Hpages Hfuel. unfold retryAfterItem.
  erewrite bind_run by (apply call_ok; apply loadThread_stored; exact Hg).
  destruct Hpages as [Hone|[Hnd Htr]].
  - destruct fuel as [|fuel]; [lia|].
    erewrite bind_run by (apply paginate_one_page; eauto).
    reflexivity.
  - erewrite bind_run.
    2: { apply (@paginate_absent thread_id item_id_param stored userMessage
                  Hnd Htr Habs fuel w 0 []); [exact Hg | lia | lia]. }
    reflexivity.
Qed.

Lemma C10_retry_unknown_item_witness :
  let w := worldOf [userMessage; widget1] in
  get (store w) "thr_test" = Some {| thr := testThread; items := [userMessage; widget1] |}
  /\ ~ In "msg_9" (map item_id [userMessage; widget1])
  /\ retryAfterItem 3 quietServer "thr_test" "msg_9" w
     = {| emitted := []; completed := Returned tt; final := w |}.
Proof.
  assert (Habs : ~ In "msg_9" (map item_id [userMessage; widget1])).
  { simpl. intros [E|[E|[]]]; discriminate E. }
  refine (conj eq_refl (conj Habs _)).
  apply (C10_retry_unknown_item quietServer "thr_test" "msg_9"
           (worldOf [userMessage; widget1])
           {| thr := testThread; items := [userMessage; widget1] |} 3);
    [reflexivity | exact Habs | left; simpl; unfold DEFAULT_PAGE_SIZE; lia | simpl; lia].
Defined.

End Claims.

(** * Further properties of the diff engine *)

Module DiffProperties.
Import Widget WidgetSpec DiffSpec WidgetFacts Samples.

Unset Implicit Arguments.

Lemma append_empty (s : string) : (s ++ "")%string = s.
Proof. induction s as [|c s IH]; simpl; [reflexivity | now rewrite IH]. Qed.

Lemma slice_carries (a b : string) :
  JSString.startsWith a b = true -> String.eqb b a = false ->
  JSString.truthy (JSString.slice a (String.length b)) = true.
Proof.
  intros Hp Hne. apply JSStringFacts.startsWith_split in Hp.
  destruct (JSString.slice a (String.length b)) eqn:E; [|reflexivity].
  rewrite append_empty in Hp. subst a. now rewrite String.eqb_refl in Hne.
Qed.

(** What the loop of [diffWidget] adds to [deltas]: text deltas that
    carry some text, for ids among the entries, each id at most once. *)
Lemma diffNodes_adds mb l :
  forall acc ds,
    diffNodes mb l acc = Ok ds ->
    exists new,
      ds = acc ++ new
      /\ Forall (fun u => carriesText u = true) new
      /\ (forall u, In u new -> exists id, delta_id u = Some id /\ In id (map fst l))
      /\ (NoDup (map fst l) -> NoDup (map delta_id new)).
Proof.
  induction l as [|[id na] l IH]; intros acc ds H.
  - cbn in H. inversion H; subst. exists []. rewrite app_nil_r.
    repeat split; [constructor | intros u [] | constructor].
  - cbn [diffNodes] in H.
    destruct (absent (lookup mb id)); [discriminate H|].
    destruct (toString (coalesce (valueOf (lookup mb id)) (VStr ""))) as [bv|]; [|discriminate H].
    destruct (toString (coalesce (prop na "value") (VStr ""))) as [av|]; [|discriminate H].
    destruct (String.eqb bv av) eqn:Ee; cbn [negb] in H.
    + destruct (IH _ _ H) as (new & -> & Hf & Hin & Hnd).
      exists new. repeat split; try assumption.
      * intros u Hu. destruct (Hin u Hu) as (i & Hi & Hl). exists i. split; [exact Hi | now right].
      * intros Hn. inversion Hn; subst. auto.
    + destruct (JSString.startsWith av bv) eqn:Ep; cbn [negb] in H; [|discriminate H].
      destruct (IH _ _ H) as (new & -> & Hf & Hin & Hnd).
      eexists (_ :: new). rewrite <- app_assoc. split; [reflexivity|].
      repeat split.
      * constructor; [|exact Hf]. cbn [carriesText]. now apply slice_carries.
      * intros u [<-|Hu].
        -- exists id. split; [reflexivity | now left].
        -- destruct (Hin u Hu) as (i & Hi & Hl). exists i. split; [exact Hi | now right].
      * intros Hn. inversion Hn as [|? ? Hk Hn']; subst. cbn [map delta_id].
        constructor; [|auto].
        intros Hc. apply in_map_iff in Hc as (u & Hu & Hinu).
        destruct (Hin u Hinu) as (i & Hi & Hl). rewrite Hi in Hu. inversion Hu; subst.
        now apply Hk.
Qed.

(** Whatever the two snapshots, a diff that succeeds is either the one
    full replace carrying the after snapshot, or a list of streaming-text
    deltas each of which carries some text, with no component id twice. *)
Theorem diffWidget_replace_or_deltas (before after : value) (ds : list WidgetUpdate) :
  diffWidget before after = Ok ds ->
  ds = [WidgetRootUpdated after]
  \/ (Forall (fun u => carriesText u = true) ds /\ NoDup (map delta_id ds)).
Proof.
  unfold diffWidget. intros H.
  destruct (is_nullish before || is_nullish after); [discriminate H|].
  destruct (fullReplace before after); [left; now inversion H|].
  destruct (findAllStreamingTextComponents before) as [mb|]; [|discriminate H].
  destruct (findAllStreamingTextComponents after) as [ma|] eqn:Ea; [|discriminate H].
  right. destruct (diffNodes_adds _ _ _ _ H) as (new & -> & Hf & _ & Hnd).
  split; [exact Hf|]. apply Hnd.
  eapply recurse_NoDup; [exact Ea | constructor].
Qed.

Lemma diffWidget_replace_or_deltas_witness :
  let before := cardOf 1 2 [textNode 3 "a" "Hel" true; textNode 4 "b" "Wor" true] in
  let after := cardOf 5 6 [textNode 7 "a" "Hello" true; textNode 8 "b" "World" false] in
  diffWidget before after
  = Ok [WidgetStreamingTextValueDelta "a" "lo" false; WidgetStreamingTextValueDelta "b" "ld" true]
  /\ NoDup (map delta_id
              [WidgetStreamingTextValueDelta "a" "lo" false;
               WidgetStreamingTextValueDelta "b" "ld" true]).
Proof.
  refine (conj eq_refl _).
  destruct (diffWidget_replace_or_deltas
              (cardOf 1 2 [textNode 3 "a" "Hel" true; textNode 4 "b" "Wor" true])
              (cardOf 5 6 [textNode 7 "a" "Hello" true; textNode 8 "b" "World" false])
              [WidgetStreamingTextValueDelta "a" "lo" false;
               WidgetStreamingTextValueDelta "b" "ld" true] eq_refl) as [H|[_ H]];
    [discriminate H | exact H].
Defined.

(** ** Adding or removing a child *)

Lemma childrenResized_replaces (b a : value) :
  childrenResized b a = true -> fullReplace b a = true.
Proof.
  unfold childrenResized, prop. intros H.
  destruct b as [| | | | | |rb fb]; try discriminate H. cbn [fields_of] in H.
  destruct (field fb "children") as [| | | | |rc bs|] eqn:Eb; try discriminate H.
  destruct (field (fields_of a) "children") as [| | | | |rc' as_|] eqn:Ea; try discriminate H.
  unfold fullReplace, fullReplaceBody. cbn [fields_of].
  match goal with |- (if ?c then _ else _) = _ => destruct c end; [reflexivity|].
  apply orb_true_iff. left. apply existsb_exists.
  exists ("children", VArr rc bs). split.
  - rewrite <- Eb. apply field_in, field_defined. now rewrite Eb.
  - rewrite exempt_children. unfold prop. rewrite Ea, fullReplaceValue_arr, H.
    cbn. apply orb_true_r.
Qed.

(** When a component anywhere in the tree gained or lost a child, the
    diff is the one full replace carrying the after snapshot. *)
Theorem diffWidget_children_resized (before after : value) :
  located childrenResized before after = true ->
  diffWidget before after = Ok [WidgetRootUpdated after].
Proof.
  intros Hl.
  assert (Hfr : fullReplace before after = true).
  { eapply located_replace; [|exact Hl]. exact childrenResized_replaces. }
  unfold diffWidget.
  destruct before; try discriminate Hl. destruct after; try discriminate Hl.
  cbn [is_nullish orb]. now rewrite Hfr.
Qed.

Lemma diffWidget_children_resized_witness :
  let before := cardOf 1 2 [cardOf 3 4 [textNode 5 "a" "Hello" true]] in
  let after :=
    cardOf 6 7 [cardOf 8 9 [textNode 10 "a" "Hello" true; textNode 11 "b" "" true]] in
  located childrenResized before after = true
  /\ diffWidget before after = Ok [WidgetRootUpdated after].
Proof.
  refine (conj eq_refl _).
  apply (diffWidget_children_resized
           (cardOf 1 2 [cardOf 3 4 [textNode 5 "a" "Hello" true]])
           (cardOf 6 7 [cardOf 8 9 [textNode 10 "a" "Hello" true; textNode 11 "b" "" true]]));
    reflexivity.
Defined.

(** ** The errors of the diff *)

Lemma coherent_arr r bs r' as_ :
  coherent (VArr r bs) (VArr r' as_)
  = if (r =? r')%nat then value_eqb (VArr r bs) (VArr r' as_) else coherent_list bs as_.
Proof.
  cbn [coherent]. destruct (r =? r')%nat; [reflexivity|].
  revert as_. induction bs as [|x bs IH]; intros [|y as_]; try reflexivity;
    cbn [coherent_list]; now rewrite IH.
Qed.

Lemma coherent_obj r fb r' fa :
  coherent (VObj r fb) (VObj r' fa)
  = if (r =? r')%nat then value_eqb (VObj r fb) (VObj r' fa) else coherent_fields fb fa.
Proof.
  cbn [coherent]. destruct (r =? r')%nat; [reflexivity|].
  unfold coherent_fields. induction fb as [|[k x] fb IH]; [reflexivity|].
  cbn [forallb fst snd]. now rewrite IH.
Qed.

(** Two values that are [===] are the same value. *)
Lemma strict_eq_identity x y :
  strict_eq x y = true -> coherent x y = true -> x = y.
Proof.
  destruct x, y; cbn [strict_eq]; try discriminate; intros H Hc.
  - reflexivity.
  - reflexivity.
  - apply Bool.eqb_prop in H. now subst.
  - apply String.eqb_eq in H. now subst.
  - apply String.eqb_eq in H. now subst.
  - rewrite coherent_arr, H in Hc. now apply value_eqb_eq.
  - rewrite coherent_obj, H in Hc. now apply value_eqb_eq.
Qed.

Lemma strict_eq_str x s : strict_eq x (VStr s) = true -> x = VStr s.
Proof.
  destruct x; cbn [strict_eq]; try discriminate. intros H.
  apply String.eqb_eq in H. now subst.
Qed.

Lemma strict_eq_str_l s y : strict_eq (VStr s) y = true -> y = VStr s.
Proof.
  destruct y; cbn [strict_eq]; try discriminate. intros H.
  apply String.eqb_eq in H. now subst.
Qed.

Lemma strict_eq_sym x y : strict_eq x y = strict_eq y x.
Proof.
  destruct x, y; cbn [strict_eq]; try reflexivity.
  - now destruct b, b0.
  - apply String.eqb_sym.
  - apply String.eqb_sym.
  - apply Nat.eqb_sym.
  - apply Nat.eqb_sym.
Qed.

Lemma noReplace_prim x y :
  fullReplaceValue x y = false -> is_object x = false \/ is_object y = false -> x = y.
Proof.
  intros H Hp.
  destruct x as [| |b|n|s|r bs|r fb].
  1-5: (cbn [fullReplaceValue] in H; unfold strict_neq in H; apply negb_false_iff in H;
        destruct y; cbn [strict_eq] in H; try discriminate H; try reflexivity;
        first [apply Bool.eqb_prop in H | apply String.eqb_eq in H]; now subst).
  - destruct y; try discriminate H. destruct Hp as [Hp|Hp]; discriminate Hp.
  - rewrite fullReplaceValue_obj in H.
    destruct y; destruct Hp as [Hp|Hp]; try discriminate Hp; discriminate H.
Qed.

Lemma noReplace_arr r bs a :
  fullReplaceValue (VArr r bs) a = false ->
  exists r' as_, a = VArr r' as_ /\ Forall2 (fun x y => fullReplaceValue x y = false) bs as_.
Proof.
  intros H. destruct a as [| | | | |r' as_|]; try discriminate H.
  exists r', as_. split; [reflexivity|].
  rewrite fullReplaceValue_arr in H.
  destruct (List.length bs =? List.length as_)%nat eqn:El; [|discriminate H].
  cbn [negb orb] in H. apply Nat.eqb_eq in El.
  revert as_ El H. induction bs as [|x bs IH]; intros [|y as_] El H; try discriminate El;
    constructor.
  - cbn [any2] in H. now apply orb_false_iff in H.
  - cbn [any2] in H. apply orb_false_iff in H as [_ H]. apply IH; [|exact H].
    now inversion El.
Qed.

(** What the field loop of [fullReplace] has checked when it finds
    nothing. *)
Lemma fullReplaceBody_inv rec before fb after :
  fullReplaceBody rec before fb after = false ->
  same_header before after = true
  /\ (forall k x, In (k, x) fb ->
        exempt before after k = true
        \/ (inherited (fields_of after) k = false /\ rec x (prop after k) = false))
  /\ (forall k y, In (k, y) (fields_of after) ->
        has_field fb k = true \/ exempt before after k = true
        \/ (inherited fb k = false /\ y = VUndefined)).
Proof.
  unfold fullReplaceBody, same_header, strict_neq. intros H.
  destruct (strict_eq (prop before "type") (prop after "type")); [|discriminate H].
  destruct (strict_eq (prop before "id") (prop after "id")); [|discriminate H].
  destruct (strict_eq (prop before "key") (prop after "key")); [|discriminate H].
  cbn [negb orb] in H. apply orb_false_iff in H as [H1 H2].
  split; [reflexivity|]. split.
  - intros k x Hin.
    assert (E : negb (exempt before after k)
                && (inherited (fields_of after) k || rec x (prop after k)) = false).
    { destruct (negb (exempt before after k)
                && (inherited (fields_of after) k || rec x (prop after k))) eqn:E;
        [|reflexivity].
      rewrite <- H1. symmetry. apply existsb_exists. exists (k, x). auto. }
    destruct (exempt before after k); [now left | right].
    cbn [negb andb] in E. now apply orb_false_iff in E.
  - intros k y Hin.
    assert (E : negb (has_field fb k) && negb (exempt before after k)
                && (inherited fb k || fullReplaceMissing y) = false).
    { destruct (negb (has_field fb k) && negb (exempt before after k)
                && (inherited fb k || fullReplaceMissing y)) eqn:E; [|reflexivity].
      rewrite <- H2. symmetry. apply existsb_exists. exists (k, y). auto. }
    destruct (has_field fb k); [now left|].
    destruct (exempt before after k); [right; now left|].
    right; right. cbn [negb andb] in E. apply orb_false_iff in E as [E1 E2].
    split; [exact E1|]. unfold fullReplaceMissing in E2.
    apply missing_undefined. now rewrite E2.
Qed.

Section NoReplace.
Variables (rb ra : nat) (fb fa : list (string * value)).
Hypothesis body : fullReplaceBody fullReplaceValue (VObj rb fb) fb (VObj ra fa) = false.

Let b := VObj rb fb.
Let a := VObj ra fa.

(** A field the loop did not skip is no replace trigger, owned or not. *)
Lemma noReplace_field k :
  exempt b a k = false -> fullReplaceValue (field fb k) (field fa k) = false.
Proof.
  intros He. destruct (fullReplaceBody_inv _ _ _ _ body) as (_ & H1 & H2).
  destruct (field_cases fb k) as [[Hn E]|Hin].
  - rewrite E. destruct (field_cases fa k) as [[_ E']|Hin'].
    + now rewrite E'.
    + destruct (H2 _ _ Hin') as [H|[H|[_ H]]].
      * now rewrite Hn in H.
      * fold b a in H. now rewrite He in H.
      * now rewrite H.
  - destruct (H1 _ _ Hin) as [H|[_ H]]; [fold b a in H; now rewrite He in H | exact H].
Qed.

Lemma noReplace_isStreamingText : isStreamingText b = isStreamingText a.
Proof.
  destruct (fullReplaceBody_inv _ _ _ _ body) as (Hh & _ & _).
  unfold same_header in Hh. rewrite !andb_true_iff in Hh. destruct Hh as [[Ht _] _].
  destruct (isStreamingText b) eqn:Eb, (isStreamingText a) eqn:Ea; try reflexivity.
  - assert (He : exempt b a "value" = false) by (unfold exempt; now rewrite Eb, Ea).
    assert (Hv := noReplace_field "value" He).
    unfold isStreamingText, b, a, prop in *. cbn [fields_of] in *.
    apply andb_true_iff in Eb as [Etb Evb].
    apply noReplace_prim in Hv; [|left; destruct (field fb "value"); try discriminate Evb;
                                   reflexivity].
    rewrite <- Hv, Evb, andb_true_r in Ea.
    apply strict_eq_str in Etb. rewrite Etb in Ht. apply strict_eq_str_l in Ht.
    rewrite Ht in Ea. discriminate Ea.
  - assert (He : exempt b a "value" = false) by (unfold exempt; now rewrite Eb).
    assert (Hv := noReplace_field "value" He).
    unfold isStreamingText, b, a, prop in *. cbn [fields_of] in *.
    apply andb_true_iff in Ea as [Eta Eva].
    apply noReplace_prim in Hv; [|right; destruct (field fa "value"); try discriminate Eva;
                                   reflexivity].
    rewrite Hv, Eva, andb_true_r in Eb.
    apply strict_eq_str in Eta. rewrite Eta in Ht.
    rewrite strict_eq_sym in Ht. apply strict_eq_str_l in Ht.
    rewrite Ht in Eb. discriminate Eb.
Qed.

Lemma noReplace_prefix :
  isStreamingText b = true -> isStreamingText a = true ->
  JSString.startsWith (asString (prop a "value")) (asString (prop b "value")) = true.
Proof.
  intros Eb Ea.
  destruct (exempt b a "value") eqn:He.
  - unfold exempt in He. rewrite Eb, Ea in He. cbn in He.
    now rewrite orb_false_r in He.
  - assert (Hv := noReplace_field "value" He).
    destruct (isStreamingText_obj _ Eb) as (r & fs & s & E & _ & Hs).
    inversion E; subst r fs. rewrite Hs in Hv.
    apply noReplace_prim in Hv; [|now left].
    unfold b, a, prop. cbn [fields_of]. rewrite <- Hv, Hs.
    apply JSStringFacts.startsWith_refl.
Qed.

Hypothesis coh : coherent_fields fb fa = true.

Lemma noReplace_id : prop b "id" = prop a "id".
Proof.
  destruct (fullReplaceBody_inv _ _ _ _ body) as (Hh & _ & _).
  unfold same_header in Hh. rewrite !andb_true_iff in Hh. destruct Hh as [[_ Hid] _].
  apply strict_eq_identity; [exact Hid|].
  unfold b, a, prop. cbn [fields_of].
  destruct (field_cases fb "id") as [[_ E]|Hin].
  - rewrite E. reflexivity.
  - unfold coherent_fields in coh. rewrite forallb_forall in coh. apply (coh _ Hin).
Qed.

Lemma noReplace_register cb ca :
  crel Rprefix cb ca -> relres Rprefix (register b cb) (register a ca).
Proof.
  intros Hrel. unfold register.
  rewrite <- noReplace_isStreamingText, <- noReplace_id.
  destruct (isStreamingText b) eqn:Eb; [|exact Hrel].
  destruct (truthy (prop b "id")); [|exact Hrel]. cbn [andb].
  destruct (toString (prop b "id")) as [k|]; [|exact I].
  apply assign_rel; [exact Hrel|].
  assert (Ea : isStreamingText a = true) by now rewrite <- noReplace_isStreamingText.
  repeat split; try assumption. now apply noReplace_prefix.
Qed.

Lemma noReplace_children :
  fullReplaceValue (field fb "children") (field fa "children") = false
  /\ coherent (field fb "children") (field fa "children") = true.
Proof.
  split.
  - apply noReplace_field, exempt_children.
  - destruct (field_cases fb "children") as [[_ E]|Hin].
    + rewrite E. reflexivity.
    + unfold coherent_fields in coh. rewrite forallb_forall in coh. apply (coh _ Hin).
Qed.
End NoReplace.

(** The traversals of one value, started from related records, end
    alike. *)
Lemma same_lockstep v cb ca :
  crel Rprefix cb ca ->
  relres Rprefix (recurse v cb) (recurse v ca)
  /\ relres Rprefix (forChildren v cb) (forChildren v ca).
Proof.
  intros Hrel.
  assert (HR : forall (k : string) (nb na : value),
             isStreamingText nb = true -> isStreamingText na = true ->
             prop nb "value" = prop na "value" -> k <> ""%string \/ True -> Rprefix k nb na).
  { intros k nb na Hb Ha Hv _. repeat split; try assumption.
    rewrite Hv. apply JSStringFacts.startsWith_refl. }
  split.
  - apply (@unchanged_lockstep ""%string True Rprefix HR); auto using unchanged_refl.
    intros k _. now right.
  - apply (@unchanged_lockstep_children ""%string True Rprefix HR); auto using unchanged_refl.
    intros k _. now right.
Qed.

Lemma noReplace_lockstep v :
  forall a, fullReplaceValue v a = false -> coherent v a = true ->
  forall cb ca, crel Rprefix cb ca ->
    relres Rprefix (recurse v cb) (recurse a ca)
    /\ relres Rprefix (forChildren v cb) (forChildren a ca).
Proof.
  induction v as [| |b|n|s|r elems IH|r fs IH] using value_ind; intros a H Hc cb ca Hrel.
  1-5: (apply noReplace_prim in H; [subst a; now apply same_lockstep | now left]).
  - destruct (noReplace_arr _ _ _ H) as (r' & as_ & -> & Hel).
    split; [exact Hrel|].
    rewrite coherent_arr in Hc. destruct (r =? r')%nat.
    { apply value_eqb_eq in Hc. rewrite <- Hc. now apply same_lockstep. }
    cbn [forChildren]. apply foldM_relres; [|exact Hrel]. clear cb ca Hrel H.
    revert Hc. induction Hel as [|x y bs as_ Hxy _ IHl]; intros Hc; constructor.
    + cbn [coherent_list] in Hc. apply andb_true_iff in Hc as [Hc _].
      inversion IH; subst. intros cb ca Hrel.
      match goal with Hx : forall a, _ |- _ => apply (Hx y Hxy Hc cb ca Hrel) end.
    + cbn [coherent_list] in Hc. apply andb_true_iff in Hc as [_ Hc].
      inversion IH; subst. auto.
  - rewrite fullReplaceValue_obj in H.
    destruct (strict_neq (VObj r fs) a) eqn:Hne.
    + destruct (is_object a && has_field fs "type" && has_field (fields_of a) "type") eqn:Ety;
        [|discriminate H].
      destruct a as [| | | | | |r' fa]; try (rewrite !andb_false_r in Ety; discriminate Ety);
        try discriminate Ety.
      split; [|exact I].
      rewrite coherent_obj in Hc. unfold strict_neq in Hne. cbn [strict_eq] in Hne.
      apply negb_true_iff in Hne. rewrite Hne in Hc.
      rewrite !recurse_obj.
      assert (Hreg := noReplace_register _ _ _ _ H Hc cb ca Hrel).
      unfold relres in Hreg.
      destruct (register (VObj r fs) cb) as [cb0|], (register (VObj r' fa) ca) as [ca0|];
        try contradiction; [|exact I].
      cbn [andThen].
      destruct (noReplace_children _ _ _ _ H Hc) as [Hch Hcc].
      destruct (field_cases fs "children") as [[_ E]|Hin].
      * rewrite E in Hch |- *. apply noReplace_prim in Hch; [|now left].
        rewrite <- Hch. exact Hreg.
      * rewrite Forall_forall in IH.
        destruct (IH _ Hin _ Hch Hcc cb0 ca0 Hreg) as [_ Hf]. exact Hf.
    + unfold strict_neq in Hne. apply negb_false_iff in Hne.
      apply strict_eq_identity in Hne; [|exact Hc]. subst a. now apply same_lockstep.
Qed.

Lemma toString_throws v e : toString v = Err e -> e = TypeError.
Proof.
  induction v as [| |b|n|s|r elems IH|r fs IH] using value_ind; try discriminate.
  - rewrite toString_arr. generalize ""%string as sep.
    induction IH as [|x xs Hx _ IHxs]; intros sep H; [discriminate H|].
    cbn [join] in H.
    destruct (elemString x) eqn:Ex.
    + destruct (join xs ",") eqn:Ej; [discriminate H|].
      inversion H; subst. now apply (IHxs ","%string).
    + inversion H; subst. apply Hx. unfold elemString in Ex.
      destruct x; try discriminate Ex; exact Ex.
  - cbn [toString]. destruct (has_field fs "toString"); [|discriminate].
    now intros [= <-].
Qed.

Lemma register_throws comp acc e : register comp acc = Err e -> e = TypeError.
Proof.
  unfold register. destruct (isStreamingText comp && truthy (prop comp "id")); [|discriminate].
  destruct (toString (prop comp "id")) eqn:E; [discriminate|].
  intros [= <-]. now apply toString_throws in E.
Qed.

Lemma recurse_throws v :
  (forall acc e, recurse v acc = Err e -> e = TypeError)
  /\ (forall acc e, forChildren v acc = Err e -> e = TypeError).
Proof.
  induction v as [| |b|n|s|r elems IH|r fs IH] using value_ind;
    (split; intros acc e H); try discriminate H; try (now inversion H).
  - cbn [forChildren] in H. revert acc H.
    induction IH as [|x xs [Hx _] _ IHxs]; intros acc H; [discriminate H|].
    cbn [foldM] in H. destruct (recurse x acc) eqn:E; [now apply IHxs in H|].
    inversion H; subst. now apply Hx in E.
  - rewrite recurse_obj in H.
    destruct (register (VObj r fs) acc) as [acc0|e0] eqn:Er.
    + cbn [andThen] in H.
      destruct (field_cases fs "children") as [[_ E]|Hin].
      * rewrite E in H. discriminate H.
      * rewrite Forall_forall in IH. destruct (IH _ Hin) as [_ Hc]. now apply Hc in H.
    + cbn [andThen] in H. inversion H; subst. now apply register_throws in Er.
Qed.

(** ** Snapshots with the same content *)

Lemma register_registrable comp acc acc' :
  register comp acc = Ok acc' -> registrable comp = true.
Proof.
  unfold registrable, register.
  destruct (isStreamingText comp && truthy (prop comp "id")); [|reflexivity].
  destruct (toString (prop comp "id")); [reflexivity | discriminate].
Qed.

(** The traversal returns on the trees it can walk only. *)
Lemma recurse_iterable v :
  (forall acc acc', recurse v acc = Ok acc' -> iterable v = true)
  /\ (forall acc acc', forChildren v acc = Ok acc' -> iterable_children v = true).
Proof.
  induction v as [| |b|n|s|r elems IH|r fs IH] using value_ind;
    (split; intros acc acc' H); try reflexivity; try discriminate H.
  - cbn [forChildren] in H. cbn [iterable_children]. revert acc H.
    induction IH as [|x xs [Hx _] _ IHxs]; intros acc H; [reflexivity|].
    cbn [foldM] in H. destruct (recurse x acc) as [acc1|] eqn:E; [|discriminate H].
    cbn [forallb]. rewrite (Hx _ _ E). exact (IHxs _ H).
  - rewrite recurse_obj in H. rewrite iterable_obj.
    destruct (register (VObj r fs) acc) as [acc0|e0] eqn:Er; [|discriminate H].
    rewrite (@register_registrable _ _ _ Er). cbn [andThen andb] in *.
    destruct (field_cases fs "children") as [[_ E]|Hin].
    + now rewrite E.
    + rewrite Forall_forall in IH. destruct (IH _ Hin) as [_ Hc]. exact (Hc _ _ H).
Qed.

(** The diff of two snapshots that are different objects with unchanged
    content: the second is the first rebuilt, its arrays and its
    components (the objects with a [type]) made anew from unchanged
    parts, an object without a [type] being the very same object in both.
    When the traversal can walk the tree (every [children] is absent,
    [null], a string or an array of such trees, and every id can be
    turned into a key) the diff is empty: no delta and no full replace.
    When it cannot, as on a component whose [children] is one component,
    the diff throws a [TypeError]. *)
Theorem diffWidget_same_content (before after : value) :
  unchanged before after = true ->
  has_field (fields_of before) "type" = true ->
  strict_neq before after = true ->
  diffWidget before after = if iterable before then Ok [] else Err TypeError.
Proof.
  intros Hu Ht Hne.
  destruct before as [| | | | | |rb fb]; try discriminate Ht.
  destruct after as [| | | | | |ra fa]; try discriminate Hu.
  assert (Hfr : fullReplace (VObj rb fb) (VObj ra fa) = false).
  { assert (Hv := unchanged_no_replace _ _ Hu).
    rewrite fullReplaceValue_obj, Hne in Hv.
    rewrite unchanged_obj in Hu. apply orb_true_iff in Hu as [Hu|Hu].
    - apply value_eqb_eq in Hu. rewrite Hu in Hne. unfold strict_neq in Hne.
      now rewrite strict_eq_refl in Hne.
    - rewrite !andb_true_iff in Hu. destruct Hu as [[[Htb Hta] _] _].
      cbn [is_object fields_of] in Hv. now rewrite Htb, Hta in Hv. }
  assert (Hls : relres Rsame (findAllStreamingTextComponents (VObj rb fb))
                  (findAllStreamingTextComponents (VObj ra fa))).
  { unfold findAllStreamingTextComponents.
    apply (@unchanged_lockstep ""%string True Rsame).
    - intros k nb na Hb Ha Hv _. repeat split; try assumption. now rewrite Hv.
    - exact Hu.
    - intros k _. now right.
    - constructor. }
  unfold diffWidget. cbn [is_nullish orb]. rewrite Hfr.
  destruct (findAllStreamingTextComponents (VObj rb fb)) as [mb|e] eqn:Emb.
  - rewrite (proj1 (recurse_iterable _) _ _ Emb).
    unfold relres in Hls.
    destruct (findAllStreamingTextComponents (VObj ra fa)) as [ma|] eqn:Ema; [|contradiction].
    assert (Hnd : NoDup (JSObject.keys (own ma))).
    { eapply recurse_NoDup; [exact Ema | constructor]. }
    apply diffNodes_none.
    eapply Forall_impl; [|exact (JSObjectFacts.rel_entries Hls Hnd)].
    intros [k na] (nb & Hg & Hb & Ha & Hv). exists nb. auto.
  - rewrite (proj1 (recurse_throws _) _ _ Emb).
    destruct (iterable (VObj rb fb)) eqn:Hit; [|reflexivity].
    destruct (iterable_findAll _ Hit) as [m Em]. congruence.
Qed.

Lemma diffWidget_same_content_witness :
  let before := cardOf 1 2 [textNode 3 "text" "Hello" true] in
  let after := cardOf 4 5 [textNode 6 "text" "Hello" true] in
  unchanged before after = true
  /\ diffWidget before after = Ok [].
Proof.
  refine (conj eq_refl _).
  apply (diffWidget_same_content
           (cardOf 1 2 [textNode 3 "text" "Hello" true])
           (cardOf 4 5 [textNode 6 "text" "Hello" true])); reflexivity.
Defined.

(** On a Card that holds a Transition whose [children] is one component,
    the diff of a rebuilt snapshot throws. *)
Example same_content_with_transition_throws :
  let before := cardOf 1 2 [transitionOf 3 (textNode 4 "note" "x" false)] in
  let after := cardOf 5 6 [transitionOf 7 (textNode 8 "note" "x" false)] in
  unchanged before after = true
  /\ iterable before = false
  /\ diffWidget before after = Err TypeError.
Proof. repeat split. Qed.

(** An object without a [type] that is made anew, here the [padding] of
    a Card, is a change: the diff is the full replace. *)
Example rebuilt_plain_object_replaces :
  let before := VObj 1 [("type", VStr "Card"); ("padding", VObj 2 [("x", VNum "1")])] in
  let after := VObj 3 [("type", VStr "Card"); ("padding", VObj 4 [("x", VNum "1")])] in
  unchanged before after = false
  /\ diffWidget before after = Ok [WidgetRootUpdated after].
Proof. repeat split. Qed.

Lemma diffNodes_prefix (mb : components) l :
  Forall (fun kb => exists nb, JSObject.get (own mb) (fst kb) = Some nb
                               /\ Rprefix (fst kb) nb (snd kb)) l ->
  forall acc, exists ds, diffNodes mb l acc = Ok ds.
Proof.
  induction 1 as [|[k na] l (nb & Hg & Hb & Ha & Hp) _ IH]; intros acc;
    [eexists; reflexivity|].
  cbn [fst snd] in *. rewrite (@diffNodes_step mb k nb na l acc Hg Hb Ha). cbn zeta.
  rewrite Hp. cbn [negb].
  destruct (negb (String.eqb (asString (prop nb "value")) (asString (prop na "value"))));
    apply IH.
Qed.

(** When no full replace is needed, the traversals of the two roots
    register the same ids, and under each id two streaming texts the second
    of which extends the first. *)
Lemma noReplace_findAll (rb ra : nat) (fb fa : list (string * value)) :
  coherent (VObj rb fb) (VObj ra fa) = true ->
  fullReplace (VObj rb fb) (VObj ra fa) = false ->
  relres Rprefix (findAllStreamingTextComponents (VObj rb fb))
    (findAllStreamingTextComponents (VObj ra fa)).
Proof.
  intros Hc Hfr. unfold findAllStreamingTextComponents.
  assert (Hrel : crel Rprefix noComponents noComponents) by constructor.
  rewrite coherent_obj in Hc. destruct (rb =? ra)%nat.
  - apply value_eqb_eq in Hc. rewrite <- Hc. now apply same_lockstep.
  - unfold fullReplace in Hfr. cbn [fields_of] in Hfr. rewrite !recurse_obj.
    assert (Hreg := noReplace_register _ _ _ _ Hfr Hc _ _ Hrel).
    unfold relres in Hreg.
    destruct (register (VObj rb fb) noComponents) as [cb0|],
             (register (VObj ra fa) noComponents) as [ca0|];
      try contradiction; [|exact I].
    cbn [andThen].
    destruct (noReplace_children _ _ _ _ Hfr Hc) as [Hch Hcc].
    apply (noReplace_lockstep _ _ Hch Hcc cb0 ca0 Hreg).
Qed.

(** On two widget roots of one heap, the diff returns a list of updates
    or fails with the [TypeError] of a traversal that met [null],
    [undefined], children that cannot be iterated or an id that cannot be
    converted: neither of the two errors that [diffWidget] constructs is
    ever thrown. *)
Theorem diffWidget_throws_only_TypeError (rb ra : nat) (fb fa : list (string * value)) :
  coherent (VObj rb fb) (VObj ra fa) = true ->
  (exists ds, diffWidget (VObj rb fb) (VObj ra fa) = Ok ds)
  \/ diffWidget (VObj rb fb) (VObj ra fa) = Err TypeError.
Proof.
  intros Hc. unfold diffWidget. cbn [is_nullish orb].
  destruct (fullReplace (VObj rb fb) (VObj ra fa)) eqn:Hfr; [left; eexists; reflexivity|].
  assert (Hls := noReplace_findAll rb ra fb fa Hc Hfr).
  unfold relres in Hls.
  destruct (findAllStreamingTextComponents (VObj rb fb)) as [mb|e] eqn:Eb.
  - destruct (findAllStreamingTextComponents (VObj ra fa)) as [ma|] eqn:Ea; [|contradiction].
    left. apply diffNodes_prefix.
    apply (JSObjectFacts.rel_entries Hls).
    eapply recurse_NoDup; [exact Ea | constructor].
  - right. f_equal. eapply (proj1 (recurse_throws _)). exact Eb.
Qed.

Lemma diffWidget_throws_only_TypeError_witness :
  coherent (cardOf 1 2 [VNull]) (cardOf 3 4 [VNull]) = true
  /\ ((exists ds, diffWidget (cardOf 1 2 [VNull]) (cardOf 3 4 [VNull]) = Ok ds)
      \/ diffWidget (cardOf 1 2 [VNull]) (cardOf 3 4 [VNull]) = Err TypeError).
Proof.
  refine (conj eq_refl _).
  apply (diffWidget_throws_only_TypeError 1 3
           [("type", VStr "Card"); ("children", VArr 2 [VNull])]
           [("type", VStr "Card"); ("children", VArr 4 [VNull])]).
  reflexivity.
Defined.

(** ** What the deltas say *)

Lemma append_cancel (a d1 d2 : string) : (a ++ d1)%string = (a ++ d2)%string -> d1 = d2.
Proof.
  intros E. rewrite <- (JSStringFacts.slice_app a d1), E. apply JSStringFacts.slice_app.
Qed.

Lemma get_in (r : JSObject.record value) k v : JSObject.get r k = Some v -> In (k, v) r.
Proof.
  induction r as [|[k' v'] r IH]; cbn; [discriminate|].
  destruct (String.eqb k' k) eqn:E.
  - intros [= ->]. apply String.eqb_eq in E. subst. now left.
  - intros H. right. now apply IH.
Qed.

(** The deltas that the loop of [diffWidget] adds, when it meets under
    each id two streaming texts the second of which extends the first:
    one delta for each id whose text grew, with the text that was added. *)
Lemma diffNodes_exact (mb : components) l :
  Forall (fun kb => exists nb, JSObject.get (own mb) (fst kb) = Some nb
                               /\ Rprefix (fst kb) nb (snd kb)) l ->
  forall acc ds,
    diffNodes mb l acc = Ok ds ->
    exists new,
      ds = acc ++ new
      /\ forall id delta done,
           In (WidgetStreamingTextValueDelta id delta done) new
           <-> exists nb na,
                 In (id, na) l /\ JSObject.get (own mb) id = Some nb
                 /\ asString (prop na "value") = (asString (prop nb "value") ++ delta)%string
                 /\ delta <> ""%string
                 /\ done = negb (truthy (prop na "streaming")).
Proof.
  induction 1 as [|[k na] l (nb & Hg & Hb & Ha & Hp) _ IH]; intros acc ds H.
  - cbn in H. inversion H; subst. exists []. rewrite app_nil_r. split; [reflexivity|].
    intros id delta done. split; [intros [] | intros (? & ? & [] & _)].
  - cbn [fst snd] in *. rewrite (@diffNodes_step mb k nb na l acc Hg Hb Ha) in H.
    cbn zeta in H. rewrite Hp in H. cbn [negb] in H.
    assert (Hsplit := JSStringFacts.startsWith_split _ _ Hp).
    destruct (String.eqb (asString (prop nb "value")) (asString (prop na "value"))) eqn:Ee;
      cbn [negb] in H.
    + apply String.eqb_eq in Ee.
      destruct (IH _ _ H) as (new & -> & Hnew). exists new. split; [reflexivity|].
      intros id delta done. rewrite Hnew. split.
      * intros (nb' & na' & Hin & Hrest). exists nb', na'. split; [now right | exact Hrest].
      * intros (nb' & na' & [Hin|Hin] & Hg' & Hv & Hd & Hdone).
        -- inversion Hin; subst. rewrite Hg in Hg'. inversion Hg'; subst.
           rewrite <- Ee in Hv. rewrite <- (append_empty (asString (prop nb' "value"))) in Hv at 1.
           apply append_cancel in Hv. now elim Hd.
        -- exists nb', na'. auto.
    + destruct (IH _ _ H) as (new & -> & Hnew).
      eexists (_ :: new). rewrite <- app_assoc. split; [reflexivity|].
      intros id delta done. cbn [In]. rewrite Hnew. split.
      * intros [E|(nb' & na' & Hin & Hrest)].
        -- inversion E; subst. exists nb, na. repeat split; try assumption.
           ++ now left.
           ++ intros E0. rewrite E0, append_empty in Hsplit.
              rewrite Hsplit, String.eqb_refl in Ee. discriminate Ee.
        -- exists nb', na'. split; [now right | exact Hrest].
      * intros (nb' & na' & [Hin|Hin] & Hg' & Hv & Hd & Hdone).
        -- inversion Hin; subst. rewrite Hg in Hg'. inversion Hg'; subst. left.
           rewrite Hv, JSStringFacts.slice_app. reflexivity.
        -- right. exists nb', na'. auto.
Qed.

(** When the diff of two widget roots of one heap needs no full replace
    and succeeds, its deltas say exactly how the texts grew: there is a
    delta for an id just when the text nodes registered under that id in
    the two snapshots differ, the delta string is what the after text adds
    to the before text (before text followed by the delta is the after
    text), and [done] is the negation of the after node's [streaming]. *)
Theorem diffWidget_deltas_extend_texts (rb ra : nat) (fb fa : list (string * value))
    (ds : list WidgetUpdate) :
  coherent (VObj rb fb) (VObj ra fa) = true ->
  fullReplace (VObj rb fb) (VObj ra fa) = false ->
  diffWidget (VObj rb fb) (VObj ra fa) = Ok ds ->
  exists beforeNodes afterNodes,
    findAllStreamingTextComponents (VObj rb fb) = Ok beforeNodes
    /\ findAllStreamingTextComponents (VObj ra fa) = Ok afterNodes
    /\ forall id delta done,
         In (WidgetStreamingTextValueDelta id delta done) ds
         <-> exists nb na,
               JSObject.get (own beforeNodes) id = Some nb
               /\ JSObject.get (own afterNodes) id = Some na
               /\ asString (prop na "value") = (asString (prop nb "value") ++ delta)%string
               /\ delta <> ""%string
               /\ done = negb (truthy (prop na "streaming")).
Proof.
  intros Hc Hfr H.
  assert (Hls := noReplace_findAll rb ra fb fa Hc Hfr).
  unfold diffWidget in H. cbn [is_nullish orb] in H. rewrite Hfr in H.
  unfold relres in Hls.
  destruct (findAllStreamingTextComponents (VObj rb fb)) as [mb|] eqn:Eb; [|discriminate H].
  destruct (findAllStreamingTextComponents (VObj ra fa)) as [ma|] eqn:Ea; [|contradiction].
  assert (Hnd : NoDup (JSObject.keys (own ma))).
  { eapply recurse_NoDup; [exact Ea | constructor]. }
  destruct (diffNodes_exact mb _ (JSObjectFacts.rel_entries Hls Hnd) _ _ H)
    as (new & -> & Hnew).
  exists mb, ma. split; [reflexivity|]. split; [reflexivity|].
  intros id delta done. cbn [app]. rewrite Hnew. split.
  - intros (nb & na & Hin & Hg & Hrest). exists nb, na. split; [exact Hg|].
    split; [|exact Hrest]. now apply JSObjectFacts.get_in_NoDup.
  - intros (nb & na & Hg & Hga & Hrest). exists nb, na. split; [|split; [exact Hg | exact Hrest]].
    now apply get_in.
Qed.

Lemma diffWidget_deltas_extend_texts_witness :
  let before := cardOf 1 2 [textNode 3 "a" "Hel" true; textNode 4 "b" "World" true] in
  let after := cardOf 5 6 [textNode 7 "a" "Hello" false; textNode 8 "b" "World" true] in
  exists beforeNodes afterNodes,
    findAllStreamingTextComponents before = Ok beforeNodes
    /\ findAllStreamingTextComponents after = Ok afterNodes
    /\ forall id delta done,
         In (WidgetStreamingTextValueDelta id delta done)
            [WidgetStreamingTextValueDelta "a" "lo" true]
         <-> exists nb na,
               JSObject.get (own beforeNodes) id = Some nb
               /\ JSObject.get (own afterNodes) id = Some na
               /\ asString (prop na "value") = (asString (prop nb "value") ++ delta)%string
               /\ delta <> ""%string
               /\ done = negb (truthy (prop na "streaming")).
Proof.
  apply (diffWidget_deltas_extend_texts 1 5
           [("type", VStr "Card");
            ("children", VArr 2 [textNode 3 "a" "Hel" true; textNode 4 "b" "World" true])]
           [("type", VStr "Card");
            ("children", VArr 6 [textNode 7 "a" "Hello" false; textNode 8 "b" "World" true])]
           [WidgetStreamingTextValueDelta "a" "lo" true]);
    reflexivity.
Defined.

End DiffProperties.

(** * Properties of the emitter *)

Module EmitterProperties.
Import Widget Types Emitter Server ServerSpec EmitterSpec Samples.

Unset Implicit Arguments.

Lemma streamUpdates_shape itemId states :
  forall lastState events final,
    streamUpdates itemId lastState states = (events, final) ->
    (exists updates,
        events = map (fun update => ThreadItemUpdatedEvent itemId (WidgetUpdated update)) updates)
    /\ match final with
       | Ok state => state = lastSnapshot lastState states
       | Err e => exists before after, diffWidget before after = Err e
       end.
Proof.
  induction states as [|nextState rest IH]; intros lastState events final Hs;
    cbn [streamUpdates lastSnapshot] in *.
  - inversion Hs; subst. split; [now exists [] | reflexivity].
  - destruct (truthy nextState); cbn [negb] in Hs.
    + destruct (diffWidget lastState nextState) as [updates|e] eqn:Ed.
      * destruct (streamUpdates itemId nextState rest) as [more final'] eqn:Er.
        inversion Hs; subst.
        destruct (IH _ _ _ Er) as [[updates' ->] Hf].
        split; [|exact Hf]. exists (updates ++ updates'). now rewrite map_app.
      * inversion Hs; subst. split; [now exists []|]. now exists lastState, nextState.
    + inversion Hs; subst. split; [now exists [] | reflexivity].
Qed.

(** Every event that [streamWidget] yields, whatever the widget or the
    producer, is about the one item whose id was generated at the start. *)
Theorem streamWidget_events_carry_item_id (thread : ThreadMetadata.t) (widget : WidgetSource)
    (copyText : option string) (itemId : string) (now : Z) :
  Forall (fun event => eventItemId event = Some itemId)
         (events (streamWidget thread widget copyText itemId now)).
Proof.
  unfold streamWidget. destruct widget as [w|[|initialState rest]]; cbn [events].
  - repeat constructor.
  - constructor.
  - destruct (truthy initialState); cbn [negb events]; [|constructor].
    destruct (streamUpdates itemId initialState rest) as [updates final] eqn:Es.
    destruct (streamUpdates_shape _ _ _ _ _ Es) as [[us ->] _].
    assert (Hu : Forall (fun event => eventItemId event = Some itemId)
                   (map (fun update => ThreadItemUpdatedEvent itemId (WidgetUpdated update)) us)).
    { apply Forall_forall. intros e Hin. apply in_map_iff in Hin as (u & <- & _). reflexivity. }
    destruct final; cbn [events]; constructor; try reflexivity; [|exact Hu].
    apply Forall_app. split; [exact Hu | repeat constructor].
Qed.

(** A producer whose first snapshot is truthy and whose diffs all
    succeed makes [streamWidget] yield the added event with the first
    snapshot, then only widget updates, then one done event that carries
    the last snapshot the producer gave. *)
Theorem streamWidget_done_carries_last_snapshot (thread : ThreadMetadata.t)
    (initialState : value) (rest : list value) (copyText : option string)
    (itemId : string) (now : Z) :
  truthy initialState = true ->
  ended (streamWidget thread (Generator (initialState :: rest)) copyText itemId now) = Ok tt ->
  let header := {| id := itemId; thread_id := ThreadMetadata.id thread; created_at := now |} in
  exists updates,
    events (streamWidget thread (Generator (initialState :: rest)) copyText itemId now)
    = ThreadItemAddedEvent (WidgetItem header initialState copyText)
      :: map (fun update => ThreadItemUpdatedEvent itemId (WidgetUpdated update)) updates
      ++ [ThreadItemDoneEvent
            (WidgetItem header (lastSnapshot initialState rest) copyText)].
Proof.
  intros Ht. unfold streamWidget. rewrite Ht. cbn [negb].
  destruct (streamUpdates itemId initialState rest) as [updates final] eqn:Es.
  destruct (streamUpdates_shape _ _ _ _ _ Es) as [[us ->] Hf].
  destruct final as [state|e]; cbn [ended events]; [|discriminate].
  intros _. exists us. now rewrite Hf.
Qed.

Lemma streamWidget_done_carries_last_snapshot_witness :
  exists updates,
    events (streamWidget testThread (Generator [emptyText 1; helloText 2; VNull; emptyText 3])
              None "msg_1" 0)
    = ThreadItemAddedEvent (WidgetItem (header "msg_1") (emptyText 1) None)
      :: map (fun update => ThreadItemUpdatedEvent "msg_1" (WidgetUpdated update)) updates
      ++ [ThreadItemDoneEvent (WidgetItem (header "msg_1") (helloText 2) None)].
Proof.
  apply (streamWidget_done_carries_last_snapshot testThread (emptyText 1)
           [helloText 2; VNull; emptyText 3] None "msg_1" 0); reflexivity.
Defined.

(** *** A producer that can fail *)

(** On a producer that never rejects, the emitter is the emitter of the
    list of its snapshots. *)
Lemma streamUpdates_resolves itemId states :
  forall lastState,
    Producer.streamUpdates itemId lastState (Producer.resolves states Producer.Finished)
    = streamUpdates itemId lastState states.
Proof.
  induction states as [|nextState rest IH]; intros lastState;
    cbn [Producer.resolves Producer.streamUpdates streamUpdates]; [reflexivity|].
  destruct (negb (truthy nextState)); [reflexivity|].
  destruct (diffWidget lastState nextState); [|reflexivity]. now rewrite IH.
Qed.

Lemma streamWidget_resolves thread states copyText itemId now :
  Producer.streamWidget thread (Producer.resolves states Producer.Finished)
    copyText itemId now
  = streamWidget thread (Generator states) copyText itemId now.
Proof.
  destruct states as [|initialState rest]; [reflexivity|].
  cbn [Producer.resolves]. unfold Producer.streamWidget, streamWidget.
  now rewrite streamUpdates_resolves.
Qed.

(** A loop that ends with an error: the producer rejected with it after
    truthy snapshots, or the diff of two consecutive snapshots threw it. *)
Lemma streamUpdates_failure itemId producer :
  forall lastState events e,
    truthy lastState = true ->
    Producer.streamUpdates itemId lastState producer = (events, Err e) ->
    (exists updates,
        events = map (fun update => ThreadItemUpdatedEvent itemId (WidgetUpdated update)) updates)
    /\ ((exists earlier,
            producer = Producer.resolves earlier (Producer.Rejects e)
            /\ forallb truthy earlier = true)
        \/ (exists earlier before after later,
               Producer.Resolves lastState producer
               = Producer.resolves (earlier ++ [before; after]) later
               /\ forallb truthy (earlier ++ [before; after]) = true
               /\ diffWidget before after = Err e)).
Proof.
  induction producer as [|error|nextState rest IH]; intros lastState events e Hl Hs;
    cbn [Producer.streamUpdates] in Hs.
  - discriminate Hs.
  - inversion Hs; subst. split; [now exists []|]. left. now exists [].
  - destruct (truthy nextState) eqn:Hn; cbn [negb] in Hs; [|discriminate Hs].
    destruct (diffWidget lastState nextState) as [updates|e'] eqn:Ed.
    + destruct (Producer.streamUpdates itemId nextState rest) as [more final] eqn:Er.
      inversion Hs; subst.
      destruct (IH _ _ _ Hn Er) as [[updates' ->] Hc].
      split; [exists (updates ++ updates'); now rewrite map_app|].
      destruct Hc as [(earlier & -> & Ht)|(earlier & before & after & later & Hp & Ht & Hd)].
      * left. exists (nextState :: earlier). split; [reflexivity|].
        cbn [forallb]. now rewrite Hn.
      * right. exists (lastState :: earlier), before, after, later.
        repeat split; [|cbn [app forallb]; now rewrite Hl|exact Hd].
        cbn [app Producer.resolves]. now rewrite Hp.
    + inversion Hs; subst. split; [now exists []|].
      right. exists [], lastState, nextState, rest.
      repeat split; [|exact Ed]. cbn [app forallb]. now rewrite Hl, Hn.
Qed.

(** When [streamWidget] ends with an error, the producer rejected with
    that error after truthy snapshots, or [diffWidget] threw it on two
    consecutive snapshots that the producer resolved to after truthy ones.
    No done event was yielded; when the producer gave a first snapshot,
    what was yielded is the added event with that snapshot and then only
    widget updates: the item is left open. *)
Theorem streamWidget_failure_leaves_item_open (thread : ThreadMetadata.t)
    (producer : Producer.t) (copyText : option string) (itemId : string) (now : Z)
    (e : exn) :
  ended (Producer.streamWidget thread producer copyText itemId now) = Err e ->
  let header := {| id := itemId; thread_id := ThreadMetadata.id thread; created_at := now |} in
  let yielded := events (Producer.streamWidget thread producer copyText itemId now) in
  existsb isDone yielded = false
  /\ (forall initialState rest,
         producer = Producer.Resolves initialState rest ->
         exists updates,
           yielded
           = ThreadItemAddedEvent (WidgetItem header initialState copyText)
             :: map (fun update => ThreadItemUpdatedEvent itemId (WidgetUpdated update))
                  updates)
  /\ (producer = Producer.Rejects e -> yielded = [])
  /\ ((exists earlier,
          producer = Producer.resolves earlier (Producer.Rejects e)
          /\ forallb truthy earlier = true)
      \/ (exists earlier before after later,
             producer = Producer.resolves (earlier ++ [before; after]) later
             /\ forallb truthy (earlier ++ [before; after]) = true
             /\ diffWidget before after = Err e)).
Proof.
  unfold Producer.streamWidget.
  destruct producer as [|error|initialState rest]; cbn [ended events]; try discriminate.
  - intros [= ->]. repeat split; [discriminate|]. left. now exists [].
  - destruct (truthy initialState) eqn:Hi; cbn [negb ended]; [|discriminate].
    destruct (Producer.streamUpdates itemId initialState rest) as [updates final] eqn:Es.
    destruct final as [state|e']; cbn [ended events]; [discriminate|].
    intros [= ->].
    destruct (streamUpdates_failure _ _ _ _ _ Hi Es) as [[us ->] Hc].
    repeat split.
    + cbn [existsb isDone orb]. clear Es. induction us as [|u us IH]; [reflexivity | exact IH].
    + intros initialState' rest' [= <- <-]. now exists us.
    + discriminate.
    + destruct Hc as [(earlier & -> & Ht)|Hc]; [left | right; exact Hc].
      exists (initialState :: earlier). split; [reflexivity|].
      cbn [forallb]. now rewrite Hi.
Qed.

Lemma streamWidget_failure_leaves_item_open_witness :
  let producer :=
    Producer.resolves [helloText 1; cardOf 2 3 [VNull]; cardOf 4 5 [VNull]]
      Producer.Finished in
  let yielded := events (Producer.streamWidget testThread producer None "msg_1" 0) in
  existsb isDone yielded = false
  /\ (forall initialState rest,
         producer = Producer.Resolves initialState rest ->
         exists updates,
           yielded
           = ThreadItemAddedEvent (WidgetItem (header "msg_1") initialState None)
             :: map (fun update => ThreadItemUpdatedEvent "msg_1" (WidgetUpdated update))
                  updates)
  /\ (producer = Producer.Rejects TypeError -> yielded = [])
  /\ ((exists earlier,
          producer = Producer.resolves earlier (Producer.Rejects TypeError)
          /\ forallb truthy earlier = true)
      \/ (exists earlier before after later,
             producer = Producer.resolves (earlier ++ [before; after]) later
             /\ forallb truthy (earlier ++ [before; after]) = true
             /\ diffWidget before after = Err TypeError)).
Proof.
  apply (streamWidget_failure_leaves_item_open testThread
           (Producer.resolves [helloText 1; cardOf 2 3 [VNull]; cardOf 4 5 [VNull]]
              Producer.Finished)
           None "msg_1" 0 TypeError).
  reflexivity.
Defined.

End EmitterProperties.

(** * Properties of assistant-message updates *)

Module MessageProperties.
Import Widget Types Server EmitterSpec.

Unset Implicit Arguments.

Lemma append_assoc (a b c : string) : ((a ++ b) ++ c)%string = (a ++ b ++ c)%string.
Proof. induction a as [|x a IH]; cbn; [reflexivity | now rewrite IH]. Qed.

Lemma setPart_length content i part : List.length (setPart content i part) = List.length content.
Proof.
  revert i. induction content as [|c rest IH]; intros [|i]; cbn; try reflexivity.
  now rewrite IH.
Qed.

Lemma setPart_other content i part j :
  j <> i -> nth_error (setPart content i part) j = nth_error content j.
Proof.
  revert i j. induction content as [|c rest IH]; intros [|i] [|j] Hne; cbn;
    try reflexivity; try congruence.
  apply IH. congruence.
Qed.

Lemma setPart_same content i part :
  i < List.length content ->
  nth_error (setPart content i part) i = Some (part (nth i content emptyPart)).
Proof.
  revert i. induction content as [|c rest IH]; intros [|i] Hlt; cbn in *; try lia.
  - reflexivity.
  - apply IH. lia.
Qed.

Lemma setPart_setPart content i f g :
  setPart (setPart content i f) i g = setPart content i (fun c => g (f c)).
Proof.
  revert i. induction content as [|c rest IH]; intros [|i]; cbn; try reflexivity.
  now rewrite IH.
Qed.

Lemma setPart_ext content i f g :
  (forall c, f c = g c) -> setPart content i f = setPart content i g.
Proof.
  intros E. revert i. induction content as [|c rest IH]; intros [|i]; cbn; try reflexivity.
  - now rewrite E.
  - now rewrite IH.
Qed.

Lemma padContent_length content i :
  List.length (padContent content i) = Nat.max (List.length content) (S i).
Proof. unfold padContent. rewrite length_app, repeat_length. lia. Qed.

Lemma padContent_padded content i :
  i < List.length content -> padContent content i = content.
Proof.
  intros Hlt. unfold padContent.
  replace (S i - List.length content) with 0 by lia. apply app_nil_r.
Qed.

Lemma padContent_nth content i : nth i (padContent content i) emptyPart = nth i content emptyPart.
Proof.
  unfold padContent. destruct (Nat.lt_ge_cases i (List.length content)) as [Hlt|Hge].
  - now rewrite app_nth1.
  - rewrite app_nth2 by exact Hge. rewrite (nth_overflow content) by exact Hge.
    apply nth_repeat.
Qed.

(** What an update does at its index, as a function on the part there. *)
Lemma applyAssistantMessageUpdate_setPart content update :
  exists part,
    applyAssistantMessageUpdate content update
    = setPart (padContent content (content_index update)) (content_index update) part.
Proof. destruct update; cbn; eexists; reflexivity. Qed.

(** An update grows the content just enough to hold its index and leaves
    every other part as it was: the parts that existed are unchanged, and
    the parts the padding adds below the index are empty. *)
Theorem applyAssistantMessageUpdate_frame (content : list AssistantMessageContent)
    (update : AssistantMessageUpdate) :
  let i := content_index update in
  List.length (applyAssistantMessageUpdate content update)
  = Nat.max (List.length content) (S i)
  /\ (forall j, j <> i -> j < List.length content ->
        nth_error (applyAssistantMessageUpdate content update) j = nth_error content j)
  /\ (forall j, List.length content <= j -> j < i ->
        nth_error (applyAssistantMessageUpdate content update) j = Some emptyPart).
Proof.
  cbv zeta. destruct (applyAssistantMessageUpdate_setPart content update) as [part ->].
  split; [|split].
  - now rewrite setPart_length, padContent_length.
  - intros j Hne Hlt. rewrite setPart_other by exact Hne.
    unfold padContent. now rewrite nth_error_app1.
  - intros j Hge Hlt. rewrite setPart_other by lia.
    unfold padContent. rewrite nth_error_app2 by exact Hge.
    rewrite nth_error_repeat by lia. reflexivity.
Qed.

(** Two text deltas for the same part, applied one after the other,
    give what one delta with the two texts joined gives. *)
Theorem text_deltas_compose (content : list AssistantMessageContent) (i : nat)
    (delta1 delta2 : string) :
  applyAssistantMessageUpdate
    (applyAssistantMessageUpdate content (ContentPartTextDelta i delta1))
    (ContentPartTextDelta i delta2)
  = applyAssistantMessageUpdate content (ContentPartTextDelta i (delta1 ++ delta2)).
Proof.
  cbn [applyAssistantMessageUpdate].
  rewrite (padContent_padded (setPart _ _ _)).
  2: { rewrite setPart_length, padContent_length. lia. }
  rewrite setPart_setPart. apply setPart_ext. intros c. cbn.
  now rewrite append_assoc.
Qed.

(** A text delta appends to the text of the part it names, which is the
    empty text when the part did not exist, and keeps the annotations. *)
Theorem text_delta_appends (content : list AssistantMessageContent) (i : nat) (delta : string) :
  nth_error (applyAssistantMessageUpdate content (ContentPartTextDelta i delta)) i
  = Some {| text := (text (partAt content i) ++ delta)%string;
            annotations := annotations (partAt content i) |}.
Proof.
  cbn [applyAssistantMessageUpdate].
  rewrite setPart_same by (rewrite padContent_length; lia).
  unfold partAt. now rewrite padContent_nth.
Qed.

(** An added annotation lands at its index when the index is within the
    annotations of the part, and at the end otherwise; the annotations that
    were there keep their order around it. *)
Theorem annotation_added_at_clamped_index (content : list AssistantMessageContent)
    (i j : nat) (a : value) :
  let old := annotations (partAt content i) in
  let at_ := Nat.min j (List.length old) in
  nth_error (applyAssistantMessageUpdate content (ContentPartAnnotationAdded i j a)) i
  = Some {| text := text (partAt content i);
            annotations := firstn at_ old ++ a :: skipn at_ old |}.
Proof.
  cbv zeta. cbn [applyAssistantMessageUpdate].
  rewrite setPart_same by (rewrite padContent_length; lia).
  rewrite padContent_nth. fold (partAt content i). cbn [text annotations].
  do 2 f_equal. unfold insertAnnotation.
  destruct (j <=? List.length (annotations (partAt content i)))%nat eqn:E.
  - apply Nat.leb_le in E. now rewrite Nat.min_l by exact E.
  - apply Nat.leb_gt in E. rewrite Nat.min_r by lia.
    now rewrite firstn_all, skipn_all.
Qed.

End MessageProperties.

(** * Further properties of the server *)

Module CoordinatorProperties.
Import Widget Types Store Server InMemoryStore ServerSpec CoordinatorSpec.
Import ServerFacts InMemoryFacts Samples.

Unset Implicit Arguments.

Lemma bind_cases {St A B} (m : Gen St A) (k : A -> Gen St B) st :
  bind m k st
  = match completed (m st) with
    | Returned a =>
        {| emitted := emitted (m st) ++ emitted (k a (final (m st)));
           completed := completed (k a (final (m st)));
           final := final (k a (final (m st))) |}
    | Threw e => {| emitted := emitted (m st); completed := Threw e; final := final (m st) |}
    | OutOfFuel => {| emitted := emitted (m st); completed := OutOfFuel; final := final (m st) |}
    end.
Proof. reflexivity. Qed.

Section Finishes.
Context {St : Type}.

Lemma finishes_ret {A} (a : A) : finishes (ret (St := St) a).
Proof. intros st. discriminate. Qed.

Lemma finishes_yield ev : finishes (yield (St := St) ev).
Proof. intros st. discriminate. Qed.

Lemma finishes_gets {A} (f : St -> A) : finishes (gets f).
Proof. intros st. discriminate. Qed.

Lemma finishes_modify (f : St -> St) : finishes (modify f).
Proof. intros st. discriminate. Qed.

Lemma finishes_throw {A} e : finishes (throw (St := St) (A := A) e).
Proof. intros st. discriminate. Qed.

Lemma finishes_bind {A B} (m : Gen St A) (k : A -> Gen St B) :
  finishes m -> (forall a, finishes (k a)) -> finishes (bind m k).
Proof.
  intros Hm Hk st. rewrite bind_cases. specialize (Hm st).
  destruct (completed (m st)) as [a| |]; cbn [completed]; try discriminate.
  - apply Hk.
  - congruence.
Qed.
End Finishes.

Section Coordinator.
Context {S : Type} `{Store S}.

Lemma finishes_call {A} (method : World S -> result A * World S) : finishes (call method).
Proof. intros w. unfold call. destruct (method w) as [[a|e] w']; discriminate. Qed.

Lemma finishes_inWorld {A} (m : Gen (World S) A) : finishes m -> finishes (inWorld m).
Proof. intros Hm t. unfold inWorld. cbn [completed]. apply Hm. Qed.

Lemma finishes_build thread : finishes (buildThreadResponseWithPending thread).
Proof.
  unfold buildThreadResponseWithPending, loadFullThread.
  repeat first [ apply finishes_bind; [|intros ?] | apply finishes_inWorld
               | apply finishes_call | apply finishes_ret | apply finishes_gets ].
Qed.

Lemma finishes_processEvent thread event : finishes (processEvent thread event).
Proof.
  unfold processEvent, setPending, deletePending, threadReplaced.
  apply finishes_bind; [destruct event; first [apply finishes_modify | apply finishes_ret]|].
  intros _. apply finishes_bind.
  - destruct event;
      repeat first [ apply finishes_bind; [|intros ?] | apply finishes_inWorld
                   | apply finishes_call | apply finishes_ret | apply finishes_gets
                   | apply finishes_modify
                   | match goal with
                     | |- finishes (match ?x with _ => _ end) => destruct x
                     end ].
  - intros b. apply finishes_bind.
    + destruct (negb (shouldSwallowEvent event)); [apply finishes_yield | apply finishes_ret].
    + intros _. destruct (b || false); [|apply finishes_ret].
      apply finishes_bind; [apply finishes_ret|]. intros _.
      apply finishes_bind; [apply finishes_build|]. intros ?. apply finishes_yield.
Qed.

Lemma finishes_forAwait thread (stream : TurnSource S) : finishes (forAwait thread stream).
Proof.
  induction stream as [|e|event rest IH|effect rest IH]; cbn [forAwait].
  - apply finishes_ret.
  - apply finishes_throw.
  - apply finishes_bind; [apply finishes_processEvent | intros _; exact IH].
  - intros t. apply IH.
Qed.

Lemma build_total thread :
  loadable thread ->
  forall t, exists snapshot t',
    buildThreadResponseWithPending thread t
    = {| emitted := []; completed := Returned snapshot; final := t' |}
    /\ noHidden snapshot = true.
Proof.
  intros Hl [w pending]. destruct (Hl w) as (meta & w1 & page & w2 & H1 & H2).
  eexists. eexists. split.
  - eapply buildThreadResponseWithPending_ok; eassumption.
  - apply toThreadResponse_noHidden.
Qed.

(** When the thread can be loaded, [processEvents] always returns, and
    never throws, whatever the turn source yields or throws and whatever
    the store's writes do: it emits the stream options first and a
    [thread.updated] snapshot without hidden items last. *)
Theorem processEvents_ends_with_snapshot (server : ChatKitServer)
    (thread : ThreadMetadata.t) (stream : TurnSource S) (w : World S) :
  loadable thread ->
  completed (processEvents server thread stream w) = Returned tt
  /\ exists events snapshot,
       emitted (processEvents server thread stream w)
       = StreamOptionsEvent (getStreamOptions server thread)
         :: events ++ [ThreadUpdatedEvent snapshot]
       /\ noHidden snapshot = true.
Proof.
  intros Hl. unfold processEvents.
  erewrite bind_run by reflexivity. cbn [app emitted completed final].
  unfold try_catch. rewrite bind_cases.
  assert (Hfin := finishes_forAwait thread stream
                    {| world := w; pendingItems := JSObject.empty |}).
  destruct (forAwait thread stream {| world := w; pendingItems := JSObject.empty |})
    as [evs [[]|e|] t1]; cbn [emitted completed final] in *; [| |congruence].
  - destruct (build_total thread Hl t1) as (snapshot & t2 & Hb & Hn).
    erewrite bind_run by exact Hb. cbn [app emitted completed final yield].
    split; [reflexivity|]. exists evs, snapshot. split; [reflexivity | exact Hn].
  - erewrite bind_run by reflexivity. unfold threadReplaced.
    erewrite bind_run by reflexivity.
    destruct (build_total thread Hl t1) as (snapshot & t2 & Hb & Hn).
    erewrite bind_run by exact Hb. cbn [app emitted completed final yield].
    split; [reflexivity|]. exists (evs ++ [errorEventOf e]), snapshot.
    split; [|exact Hn]. now rewrite <- app_assoc.
Qed.


Lemma processEvents_throws_first (server : ChatKitServer)
    (thread : ThreadMetadata.t) (stream : TurnSource S) (w w' w1 w2 : World S) (e : exn)
    (meta : ThreadMetadata.t) (page : Page.t ThreadItem) :
  throws_first stream w = Some (e, w') ->
  loadThread (ThreadMetadata.id thread) w' = (Ok meta, w1) ->
  loadThreadItems (ThreadMetadata.id thread) None DEFAULT_PAGE_SIZE asc w1 = (Ok page, w2) ->
  processEvents server thread stream w
  = {| emitted := [StreamOptionsEvent (getStreamOptions server thread);
                   errorEventOf e;
                   ThreadUpdatedEvent (toThreadResponse (Thread.mk meta page))];
       completed := Returned tt;
       final := w2 |}.
Proof.
  intros Hs Hl1 Hl2. unfold processEvents.
  erewrite bind_run by reflexivity. cbn [app emitted completed final].
  unfold try_catch.
  erewrite bind_run_threw by (apply forAwait_throws_first; exact Hs).
  cbn [emitted completed final].
  erewrite bind_run by reflexivity. unfold threadReplaced.
  erewrite bind_run by reflexivity.
  erewrite bind_run by (eapply buildThreadResponseWithPending_ok; eauto).
  cbn [app emitted completed final world yield JSObject.values JSObject.empty map filter].
  rewrite app_nil_r. destruct page; reflexivity.
Qed.

(** A [StreamError] that the turn source throws before it yields, built
    with a code of the enum [ErrorCode], reaches the client as an error
    event with code [stream_error], no message, and the retry flag given
    to the constructor, or, when none is given, the entry of the code in
    [DEFAULT_ALLOW_RETRY], which is [true]; the snapshot of the thread
    follows. *)
Theorem processEvents_reports_StreamError (server : ChatKitServer)
    (thread : ThreadMetadata.t) (stream : TurnSource S) (w w' w1 w2 : World S)
    (code : Errors.ErrorCode) (allowRetry : option bool)
    (meta : ThreadMetadata.t) (page : Page.t ThreadItem) :
  throws_first stream w = Some (Errors.newStreamError code allowRetry, w') ->
  loadThread (ThreadMetadata.id thread) w' = (Ok meta, w1) ->
  loadThreadItems (ThreadMetadata.id thread) None DEFAULT_PAGE_SIZE asc w1 = (Ok page, w2) ->
  JSObject.get Errors.DEFAULT_ALLOW_RETRY (Errors.ErrorCode_value code) = Some true
  /\ processEvents server thread stream w
     = {| emitted := [StreamOptionsEvent (getStreamOptions server thread);
                      ErrorEvent stream_error None
                        (Some (match allowRetry with
                               | Some b => b
                               | None => true
                               end));
                      ThreadUpdatedEvent (toThreadResponse (Thread.mk meta page))];
          completed := Returned tt;
          final := w2 |}.
Proof.
  intros Hs Hl1 Hl2. split; [now destruct code|].
  rewrite (processEvents_throws_first _ _ _ _ _ _ _ _ _ _ Hs Hl1 Hl2).
  destruct code, allowRetry as [b|]; reflexivity.
Qed.

(** A [CustomStreamError] that the turn source throws before it yields
    reaches the client as an error event with code [custom], the message
    of the error, and the retry flag given to the constructor, which
    defaults to [false]; the snapshot of the thread follows. *)
Theorem processEvents_reports_CustomStreamError (server : ChatKitServer)
    (thread : ThreadMetadata.t) (stream : TurnSource S) (w w' w1 w2 : World S)
    (message : string) (allowRetry : option bool)
    (meta : ThreadMetadata.t) (page : Page.t ThreadItem) :
  throws_first stream w = Some (Errors.newCustomStreamError message allowRetry, w') ->
  loadThread (ThreadMetadata.id thread) w' = (Ok meta, w1) ->
  loadThreadItems (ThreadMetadata.id thread) None DEFAULT_PAGE_SIZE asc w1 = (Ok page, w2) ->
  processEvents server thread stream w
  = {| emitted := [StreamOptionsEvent (getStreamOptions server thread);
                   ErrorEvent custom (Some message)
                     (Some (match allowRetry with
                            | Some b => b
                            | None => false
                            end));
                   ThreadUpdatedEvent (toThreadResponse (Thread.mk meta page))];
       completed := Returned tt;
       final := w2 |}.
Proof.
  intros Hs Hl1 Hl2. rewrite (processEvents_throws_first _ _ _ _ _ _ _ _ _ _ Hs Hl1 Hl2).
  reflexivity.
Qed.

End Coordinator.

Lemma mem_loadable (thread : ThreadMetadata.t) : loadable (S := threads) thread.
Proof.
  intros w. cbn. unfold mem_loadThread, mem_loadThreadItems.
  destruct (get (store w) (ThreadMetadata.id thread));
    eexists; eexists; eexists; eexists; split; reflexivity.
Qed.

Lemma processEvents_ends_with_snapshot_witness :
  let stream :=
    SYield (ThreadItemAddedEvent (assistant "Hi"))
      (SYield (ThreadItemDoneEvent hiddenItem) (SThrow (StreamError false))) in
  completed (processEvents quietServer testThread stream (worldOf [userMessage])) = Returned tt
  /\ exists events snapshot,
       emitted (processEvents quietServer testThread stream (worldOf [userMessage]))
       = StreamOptionsEvent (getStreamOptions quietServer testThread)
         :: events ++ [ThreadUpdatedEvent snapshot]
       /\ noHidden snapshot = true.
Proof.
  exact (processEvents_ends_with_snapshot quietServer testThread
           (SYield (ThreadItemAddedEvent (assistant "Hi"))
              (SYield (ThreadItemDoneEvent hiddenItem) (SThrow (StreamError false))))
           (worldOf [userMessage]) (mem_loadable testThread)).
Defined.

Lemma processEvents_reports_StreamError_witness :
  processEvents quietServer testThread
    (SThrow (Errors.newStreamError Errors.STREAM_ERROR None))
    (worldOf [userMessage; hiddenItem])
  = {| emitted := [StreamOptionsEvent {| allow_cancel := true |};
                   ErrorEvent stream_error None (Some true);
                   ThreadUpdatedEvent
                     (Thread.mk testThread (Page.mk [userMessage] false (Some "hc_1")))];
       completed := Returned tt;
       final := worldOf [userMessage; hiddenItem] |}.
Proof.
  apply (processEvents_reports_StreamError quietServer testThread
           (SThrow (Errors.newStreamError Errors.STREAM_ERROR None))
           (worldOf [userMessage; hiddenItem]) (worldOf [userMessage; hiddenItem])
           (worldOf [userMessage; hiddenItem]) (worldOf [userMessage; hiddenItem])
           Errors.STREAM_ERROR None
           testThread (Page.mk [userMessage; hiddenItem] false (Some "hc_1")));
    reflexivity.
Defined.

Lemma processEvents_reports_CustomStreamError_witness :
  processEvents quietServer testThread
    (SThrow (Errors.newCustomStreamError "Out of quota" None))
    (worldOf [userMessage; hiddenItem])
  = {| emitted := [StreamOptionsEvent {| allow_cancel := true |};
                   ErrorEvent custom (Some "Out of quota") (Some false);
                   ThreadUpdatedEvent
                     (Thread.mk testThread (Page.mk [userMessage] false (Some "hc_1")))];
       completed := Returned tt;
       final := worldOf [userMessage; hiddenItem] |}.
Proof.
  apply (processEvents_reports_CustomStreamError quietServer testThread
           (SThrow (Errors.newCustomStreamError "Out of quota" None))
           (worldOf [userMessage; hiddenItem]) (worldOf [userMessage; hiddenItem])
           (worldOf [userMessage; hiddenItem]) (worldOf [userMessage; hiddenItem])
           "Out of quota" None
           testThread (Page.mk [userMessage; hiddenItem] false (Some "hc_1")));
    reflexivity.
Defined.

End CoordinatorProperties.

(** * Properties of the id generator and of the in-memory store *)

Module StoreProperties.
Import Types Store InMemoryStore Server ServerSpec StoreSpec.
Import InMemoryFacts Samples.

Unset Implicit Arguments.

(** ** Generated ids *)

Lemma hex_digit_value_digit d : (d < 16)%N -> hex_digit_value (JSString.hex_digit d) = d.
Proof.
  intros Hd. destruct d as [|p]; [reflexivity|].
  repeat (destruct p as [p|p|]; try reflexivity; try lia).
Qed.

Lemma hex_value_pos fuel :
  forall n acc, (n < 16 ^ N.of_nat fuel)%N ->
    hex_value 0 (JSString.hex_pos fuel n acc) = hex_value n acc.
Proof.
  induction fuel as [|fuel IH]; intros n acc Hn.
  - cbn in Hn. assert (n = 0%N) by lia. subst. reflexivity.
  - cbn [JSString.hex_pos].
    assert (Hm : (n mod 16 < 16)%N) by (apply N.mod_lt; lia).
    assert (Hdiv : n = (16 * (n / 16) + n mod 16)%N) by (apply N.div_mod; lia).
    destruct (n / 16 =? 0)%N eqn:E.
    + apply N.eqb_eq in E. cbn [hex_value]. rewrite hex_digit_value_digit by exact Hm.
      f_equal. lia.
    + rewrite IH.
      * cbn [hex_value]. rewrite hex_digit_value_digit by exact Hm. f_equal. lia.
      * rewrite Nat2N.inj_succ, N.pow_succ_r' in Hn.
        apply N.Div0.div_lt_upper_bound. exact Hn.
Qed.

Lemma hex_value_toString16 n : hex_value 0 (JSString.toString16 n) = n.
Proof.
  unfold JSString.toString16. apply hex_value_pos.
  rewrite Nat2N.inj_succ, N2Nat.id.
  destruct n as [|p]; [reflexivity|].
  assert (H1 : (N.pos p < 2 ^ N.succ (N.log2 (N.pos p)))%N).
  { apply N.log2_spec. lia. }
  assert (H2 : (2 ^ N.succ (N.log2 (N.pos p)) <= 16 ^ N.succ (N.log2 (N.pos p)))%N).
  { apply N.pow_le_mono_l. lia. }
  lia.
Qed.

Lemma afterUnderscore_id itemType h :
  afterUnderscore (ID_PREFIXES itemType ++ "_" ++ h) = h.
Proof. destruct itemType; reflexivity. Qed.

(** The counter value that an id was made from. *)
Lemma defaultGenerateId_number {S : Type} itemType (w : World S) :
  hex_value 0 (afterUnderscore (fst (defaultGenerateId itemType w)))
  = increment (idCounter w)
  /\ idCounter (snd (defaultGenerateId itemType w)) = increment (idCounter w).
Proof.
  unfold defaultGenerateId. cbn [fst snd idCounter].
  now rewrite afterUnderscore_id, hex_value_toString16.
Qed.

Lemma generateIds_numbers {S : Type} itemTypes :
  forall (w : World S),
    (idCounter w + N.of_nat (List.length itemTypes) <= 9007199254740992)%N ->
    map (fun id => hex_value 0 (afterUnderscore id)) (fst (generateIds itemTypes w))
    = map (fun k => (idCounter w + N.of_nat k)%N) (seq 1 (List.length itemTypes)).
Proof.
  induction itemTypes as [|itemType rest IH]; intros w Hb; [reflexivity|].
  cbn [generateIds].
  destruct (defaultGenerateId_number itemType w) as [Hn Hc].
  destruct (defaultGenerateId itemType w) as [id w1] eqn:Eg. cbn [fst snd] in Hn, Hc.
  specialize (IH w1).
  destruct (generateIds rest w1) as [ids w2]. cbn [fst map List.length seq] in *.
  assert (Hi : increment (idCounter w) = (idCounter w + 1)%N).
  { unfold increment. destruct (idCounter w <? 9007199254740992)%N eqn:E; [reflexivity|].
    apply N.ltb_ge in E. lia. }
  rewrite Hn, Hi. f_equal.
  rewrite IH by lia. rewrite <- (seq_shift (List.length rest) 1), map_map.
  apply map_ext. intros k. lia.
Qed.

(** The ids that [defaultGenerateId] returns are pairwise distinct,
    whatever kinds of item they are for, as long as the counter stays
    within the integers that a number counts exactly. *)
Theorem generateIds_distinct {S : Type} (itemTypes : list StoreItemType) (w : World S) :
  (idCounter w + N.of_nat (List.length itemTypes) <= 9007199254740992)%N ->
  NoDup (fst (generateIds itemTypes w)).
Proof.
  intros Hb. apply (NoDup_map_inv (fun id => hex_value 0 (afterUnderscore id))).
  rewrite generateIds_numbers by exact Hb.
  generalize (seq_NoDup (List.length itemTypes) 1).
  induction 1 as [|k l Hk _ IH]; cbn [map]; constructor; [|exact IH].
  intros Hin. apply in_map_iff in Hin as (k' & E & Hin').
  assert (k' = k) by lia. now subst.
Qed.

Lemma generateIds_distinct_witness :
  NoDup (fst (generateIds [message; thread; message; tool_call] (worldOf []))).
Proof.
  apply (generateIds_distinct [message; thread; message; tool_call] (worldOf [])).
  vm_compute. discriminate.
Defined.

(** Beyond that, the counter no longer moves and the same id comes
    back. *)
Theorem defaultGenerateId_repeats_at_limit {S : Type} (itemType : StoreItemType)
    (w : World S) :
  (9007199254740992 <= idCounter w)%N ->
  defaultGenerateId itemType (snd (defaultGenerateId itemType w))
  = defaultGenerateId itemType w.
Proof.
  intros Hb. unfold defaultGenerateId. cbn [fst snd idCounter store now].
  assert (Hi : increment (idCounter w) = idCounter w).
  { unfold increment. destruct (idCounter w <? 9007199254740992)%N eqn:E; [|reflexivity].
    apply N.ltb_lt in E. lia. }
  now rewrite !Hi.
Qed.

Lemma defaultGenerateId_repeats_at_limit_witness :
  let w := {| store := tt; idCounter := 9007199254740992; now := 0 |} in
  defaultGenerateId message (snd (defaultGenerateId message w)) = defaultGenerateId message w.
Proof.
  apply (defaultGenerateId_repeats_at_limit message
           {| store := tt; idCounter := 9007199254740992; now := 0 |}).
  cbn. lia.
Defined.

(** ** Pages *)

Lemma findIndex_absent all id :
  ~ In id (map item_id all) -> findIndex all id = None.
Proof.
  induction all as [|i rest IH]; intros Hn; cbn; [reflexivity|].
  destruct (String.eqb (item_id i) id) eqn:E.
  - apply String.eqb_eq in E. elim Hn. now left.
  - rewrite IH; [reflexivity|]. intros Hin. apply Hn. now right.
Qed.

(** A cursor that names no item of the thread is ignored: the store
    answers with the first page, in either order. *)
Theorem loadThreadItems_unknown_cursor (threadId after : string) (limit : nat) (order : Order)
    (w : World threads) :
  ~ In after (map item_id (itemsOf w threadId)) ->
  loadThreadItems threadId (Some after) limit order w
  = loadThreadItems threadId None limit order w.
Proof.
  intros Hn. cbn. unfold mem_loadThreadItems, itemsOf in *.
  destruct (JSString.truthy after); [|reflexivity].
  rewrite findIndex_absent; [reflexivity|].
  destruct order; [exact Hn|].
  intros Hin. apply Hn. rewrite map_rev in Hin. now apply in_rev.
Qed.

Lemma loadThreadItems_unknown_cursor_witness :
  loadThreadItems "thr_test" (Some "msg_9") 1 desc (worldOf [userMessage; widget1])
  = loadThreadItems "thr_test" None 1 desc (worldOf [userMessage; widget1]).
Proof.
  apply (loadThreadItems_unknown_cursor "thr_test" "msg_9" 1 desc
           (worldOf [userMessage; widget1])).
  cbn. intros [E|[E|[]]]; discriminate E.
Defined.

(** ** Items *)

Lemma replaceItem_find all item l :
  replaceItem all item = Some l ->
  find (fun i => String.eqb (item_id i) (item_id item)) l = Some item
  /\ List.length l = List.length all
  /\ forall id, id <> item_id item ->
       find (fun i => String.eqb (item_id i) id) l
       = find (fun i => String.eqb (item_id i) id) all.
Proof.
  revert l. induction all as [|i rest IH]; intros l Hr; cbn in Hr; [discriminate|].
  destruct (String.eqb (item_id i) (item_id item)) eqn:E.
  - inversion Hr; subst. cbn. rewrite String.eqb_refl. repeat split.
    intros id Hne. apply String.eqb_eq in E.
    destruct (String.eqb (item_id item) id) eqn:E1;
      [apply String.eqb_eq in E1; congruence|].
    rewrite E. now rewrite E1.
  - destruct (replaceItem rest item) as [rest'|]; [|discriminate].
    inversion Hr; subst. destruct (IH _ eq_refl) as (H1 & H2 & H3).
    cbn. rewrite E. repeat split; [exact H1 | now rewrite H2 |].
    intros id Hne. rewrite H3 by exact Hne. reflexivity.
Qed.

Lemma replaceItem_none all item :
  replaceItem all item = None ->
  find (fun i => String.eqb (item_id i) (item_id item)) all = None.
Proof.
  induction all as [|i rest IH]; intros Hr; cbn in *; [reflexivity|].
  destruct (String.eqb (item_id i) (item_id item)); [discriminate|].
  destruct (replaceItem rest item); [discriminate|]. now apply IH.
Qed.

Lemma find_app_none (f : ThreadItem -> bool) l1 l2 :
  find f l1 = None -> find f (l1 ++ l2) = find f l2.
Proof.
  induction l1 as [|x l1 IH]; cbn; [reflexivity|].
  destruct (f x); [discriminate | exact IH].
Qed.

Lemma find_app_some (f : ThreadItem -> bool) l1 l2 x :
  find f l1 = Some x -> find f (l1 ++ l2) = Some x.
Proof.
  induction l1 as [|y l1 IH]; cbn; [discriminate|].
  destruct (f y); [trivial | exact IH].
Qed.

(** An item saved in a stored thread is the item that [loadItem] returns
    for its id, whether it replaced an item or was appended; the items
    under the other ids are found as before. *)
Theorem saveItem_then_loadItem (threadId : string) (item : ThreadItem) (w : World threads)
    (stored : StoredThread) :
  get (store w) threadId = Some stored ->
  let w' := snd (saveItem threadId item w) in
  fst (saveItem threadId item w) = Ok tt
  /\ loadItem threadId (item_id item) w' = (Ok item, w')
  /\ forall id, id <> item_id item ->
       fst (loadItem threadId id w') = fst (loadItem threadId id w).
Proof.
  intros Hg. cbn. unfold mem_saveItem, mem_loadItem. rewrite Hg. cbn [fst snd].
  unfold with_store. cbn [store]. rewrite get_set_same. cbn [items].
  split; [reflexivity|].
  destruct (replaceItem (items stored) item) as [l|] eqn:Er.
  - destruct (replaceItem_find _ _ _ Er) as (H1 & _ & H3). rewrite H1.
    split; [reflexivity|]. intros id Hne. rewrite H3 by exact Hne.
    now destruct (find (fun i => String.eqb (item_id i) id) (items stored)).
  - apply replaceItem_none in Er. rewrite find_app_none by exact Er.
    cbn [find]. rewrite String.eqb_refl. split; [reflexivity|].
    intros id Hne.
    destruct (find (fun i => String.eqb (item_id i) id) (items stored)) as [x|] eqn:Ef.
    + now rewrite (find_app_some _ _ _ _ Ef).
    + rewrite find_app_none by exact Ef. cbn [find].
      destruct (String.eqb (item_id item) id) eqn:E; [|reflexivity].
      apply String.eqb_eq in E. congruence.
Qed.

Lemma saveItem_then_loadItem_witness :
  let w := worldOf [userMessage; assistant "Hi"] in
  let w' := snd (saveItem "thr_test" (assistant "Hello") w) in
  fst (saveItem "thr_test" (assistant "Hello") w) = Ok tt
  /\ loadItem "thr_test" (item_id (assistant "Hello")) w' = (Ok (assistant "Hello"), w')
  /\ forall id, id <> item_id (assistant "Hello") ->
       fst (loadItem "thr_test" id w') = fst (loadItem "thr_test" id w).
Proof.
  apply (saveItem_then_loadItem "thr_test" (assistant "Hello")
           (worldOf [userMessage; assistant "Hi"])
           {| thr := testThread; items := [userMessage; assistant "Hi"] |}).
  reflexivity.
Defined.

Lemma find_filter_other (all : list ThreadItem) itemId id :
  id <> itemId ->
  find (fun i => String.eqb (item_id i) id)
       (filter (fun i => negb (String.eqb (item_id i) itemId)) all)
  = find (fun i => String.eqb (item_id i) id) all.
Proof.
  intros Hne. induction all as [|i rest IH]; cbn; [reflexivity|].
  destruct (String.eqb (item_id i) itemId) eqn:E; cbn.
  - apply String.eqb_eq in E.
    destruct (String.eqb (item_id i) id) eqn:E1; [apply String.eqb_eq in E1; congruence|].
    exact IH.
  - destruct (String.eqb (item_id i) id); [reflexivity | exact IH].
Qed.

Lemma find_filter_same (all : list ThreadItem) itemId :
  find (fun i => String.eqb (item_id i) itemId)
       (filter (fun i => negb (String.eqb (item_id i) itemId)) all) = None.
Proof.
  induction all as [|i rest IH]; cbn; [reflexivity|].
  destruct (String.eqb (item_id i) itemId) eqn:E; cbn; [exact IH|]. now rewrite E.
Qed.

(** After [deleteThreadItem], [loadItem] finds no item under the deleted
    id and throws; the items under the other ids are found as before. *)
Theorem deleteThreadItem_then_loadItem (threadId itemId : string) (w : World threads)
    (stored : StoredThread) :
  get (store w) threadId = Some stored ->
  let w' := snd (deleteThreadItem threadId itemId w) in
  loadItem threadId itemId w'
  = (Err (PlainError ("Item " ++ itemId ++ " not found in thread " ++ threadId)), w')
  /\ forall id, id <> itemId ->
       fst (loadItem threadId id w') = fst (loadItem threadId id w).
Proof.
  intros Hg. cbn. unfold mem_deleteThreadItem, mem_loadItem. rewrite Hg. cbn [fst snd].
  unfold with_store. cbn [store]. rewrite get_set_same. cbn [items].
  rewrite find_filter_same. split; [reflexivity|].
  intros id Hne. rewrite find_filter_other by exact Hne.
  now destruct (find (fun i => String.eqb (item_id i) id) (items stored)).
Qed.

Lemma deleteThreadItem_then_loadItem_witness :
  let w := worldOf [userMessage; widget1] in
  let w' := snd (deleteThreadItem "thr_test" "widget_1" w) in
  loadItem "thr_test" "widget_1" w'
  = (Err (PlainError ("Item " ++ "widget_1" ++ " not found in thread " ++ "thr_test")), w')
  /\ forall id, id <> "widget_1"%string ->
       fst (loadItem "thr_test" id w') = fst (loadItem "thr_test" id w).
Proof.
  apply (deleteThreadItem_then_loadItem "thr_test" "widget_1"
           (worldOf [userMessage; widget1])
           {| thr := testThread; items := [userMessage; widget1] |}).
  reflexivity.
Defined.

End StoreProperties.

(** * Properties of the request handlers *)

Module RequestProperties.
Import Widget Types Store Server InMemoryStore ServerSpec CoordinatorSpec Requests ToolOutput.
Import StoreSpec ServerFacts InMemoryFacts CoordinatorProperties Samples RequestSamples.

Unset Implicit Arguments.

(** ** Deleting items of a stored thread *)

Lemma run_eta {St A} (r : run St A) :
  {| emitted := emitted r; completed := completed r; final := final r |} = r.
Proof. now destruct r. Qed.

Lemma withItems_self w threadId stored :
  get (store w) threadId = Some stored -> withItems w threadId stored (items stored) = w.
Proof.
  intros Hg. unfold withItems, with_store.
  replace {| thr := thr stored; items := items stored |} with stored by now destruct stored.
  rewrite set_get by exact Hg. now destruct w.
Qed.

Lemma withItems_get w threadId stored all :
  get (store (withItems w threadId stored all)) threadId
  = Some {| thr := thr stored; items := all |}.
Proof. unfold withItems, with_store. cbn [store]. apply get_set_same. Qed.

Lemma withItems_withItems w threadId stored all stored' all' :
  thr stored' = thr stored ->
  withItems (withItems w threadId stored all) threadId stored' all'
  = withItems w threadId stored all'.
Proof.
  intros E. unfold withItems, with_store. cbn [store idCounter now].
  now rewrite set_set, E.
Qed.

Lemma without_nil all : without [] all = all.
Proof.
  unfold without. induction all as [|i rest IH]; cbn in *; [reflexivity | now rewrite IH].
Qed.

Lemma without_cons id ids all :
  without (id :: ids) all
  = without ids (filter (fun i => negb (String.eqb (item_id i) id)) all).
Proof.
  unfold without. induction all as [|i rest IH]; simpl in *; [reflexivity|].
  destruct (String.eqb (item_id i) id); simpl; [exact IH|].
  destruct (negb (existsb (String.eqb (item_id i)) ids)); now rewrite IH.
Qed.

Lemma deleteThreadItem_withItems w threadId stored all itemId :
  deleteThreadItem threadId itemId (withItems w threadId stored all)
  = (Ok tt, withItems w threadId stored
              (filter (fun i => negb (String.eqb (item_id i) itemId)) all)).
Proof.
  cbn. unfold mem_deleteThreadItem. rewrite withItems_get. cbn [thr items].
  f_equal. apply (withItems_withItems w threadId stored all
                    {| thr := thr stored; items := all |}). reflexivity.
Qed.

Lemma deleteItems_withItems threadId stored itemsToRemove :
  forall w all,
    deleteItems threadId itemsToRemove (withItems w threadId stored all)
    = {| emitted := []; completed := Returned tt;
         final := withItems w threadId stored (without (map item_id itemsToRemove) all) |}.
Proof.
  induction itemsToRemove as [|item rest IH]; intros w all; cbn [deleteItems map].
  - now rewrite without_nil.
  - erewrite bind_run by (apply call_ok; apply deleteThreadItem_withItems).
    rewrite IH, without_cons. reflexivity.
Qed.

Lemma cleanupItems_withItems threadId stored data :
  forall w all,
    cleanupItems threadId data (withItems w threadId stored all)
    = {| emitted := []; completed := Returned tt;
         final := withItems w threadId stored
                    (without (map item_id (filter isPendingClientToolCall data)) all) |}.
Proof.
  induction data as [|toolCall rest IH]; intros w all; cbn [cleanupItems filter map].
  - now rewrite without_nil.
  - unfold isPendingClientToolCall at 1.
    destruct (String.eqb (item_type toolCall) "client_tool_call"); cbn [negb andb].
    + destruct (item_status toolCall) as [[|]|].
      * erewrite bind_run by (apply call_ok; apply deleteThreadItem_withItems).
        cbn [map]. rewrite IH, without_cons. reflexivity.
      * rewrite bind_ret_l. apply IH.
      * rewrite bind_ret_l. apply IH.
    + rewrite bind_ret_l. apply IH.
Qed.

Lemma loadThreadItems_desc w threadId stored :
  get (store w) threadId = Some stored ->
  exists has_more after,
    loadThreadItems threadId None DEFAULT_PAGE_SIZE desc w
    = (Ok (Page.mk (firstn DEFAULT_PAGE_SIZE (rev (items stored))) has_more after), w).
Proof.
  intros Hg. cbn. unfold mem_loadThreadItems. rewrite Hg. eexists. eexists. reflexivity.
Qed.

Lemma cleanup_run (thread : ThreadMetadata.t) (w : World threads) (stored : StoredThread) :
  get (store w) (ThreadMetadata.id thread) = Some stored ->
  cleanupPendingClientToolCall thread w
  = {| emitted := []; completed := Returned tt;
       final := withItems w (ThreadMetadata.id thread) stored
                  (without (recentPending (items stored)) (items stored)) |}.
Proof.
  intros Hg. unfold cleanupPendingClientToolCall.
  destruct (loadThreadItems_desc w _ stored Hg) as (hm & af & Hl).
  erewrite bind_run by (apply call_ok; exact Hl). cbn [Page.data app].
  assert (Hc := cleanupItems_withItems (ThreadMetadata.id thread) stored
                  (firstn DEFAULT_PAGE_SIZE (rev (items stored))) w (items stored)).
  rewrite (withItems_self w _ stored Hg) in Hc. rewrite Hc. reflexivity.
Qed.

(** [cleanupPendingClientToolCall] removes from a stored thread every
    item that shares its id with a pending client tool call among the
    twenty most recent items, and nothing else: the other items stay, in
    their order, and so does a pending call that is older than those. *)
Theorem cleanup_removes_recent_pending_calls (thread : ThreadMetadata.t)
    (w : World threads) (stored : StoredThread) :
  get (store w) (ThreadMetadata.id thread) = Some stored ->
  cleanupPendingClientToolCall thread w
  = {| emitted := []; completed := Returned tt;
       final := withItems w (ThreadMetadata.id thread) stored
                  (without (recentPending (items stored)) (items stored)) |}.
Proof.
  intros Hg. unfold cleanupPendingClientToolCall.
  destruct (loadThreadItems_desc w _ stored Hg) as (hm & af & Hl).
  erewrite bind_run by (apply call_ok; exact Hl). cbn [Page.data app].
  assert (Hc := cleanupItems_withItems (ThreadMetadata.id thread) stored
                  (firstn DEFAULT_PAGE_SIZE (rev (items stored))) w (items stored)).
  rewrite (withItems_self w _ stored Hg) in Hc. rewrite Hc. reflexivity.
Qed.

Lemma cleanup_removes_recent_pending_calls_witness :
  let all := [toolCall "tc_1" Pending; userMessage; toolCall "tc_2" Completed;
              toolCall "tc_3" Pending; widget1] in
  cleanupPendingClientToolCall testThread (worldOf all)
  = {| emitted := []; completed := Returned tt;
       final := worldOf [userMessage; toolCall "tc_2" Completed; widget1] |}.
Proof.
  exact (cleanup_removes_recent_pending_calls testThread
           (worldOf [toolCall "tc_1" Pending; userMessage; toolCall "tc_2" Completed;
                     toolCall "tc_3" Pending; widget1])
           {| thr := testThread;
              items := [toolCall "tc_1" Pending; userMessage; toolCall "tc_2" Completed;
                        toolCall "tc_3" Pending; widget1] |}
           eq_refl).
Defined.

(** A new user message is appended to the stored thread, the pending
    client tool calls among the most recent items are removed, and the
    done event of the message is sent before the turn starts on the store
    so changed. *)
Theorem processNewThreadItemRespond_stores_then_announces (server : ChatKitServer)
    (thread : ThreadMetadata.t) (item : ThreadItem) (w : World threads)
    (stored : StoredThread) :
  get (store w) (ThreadMetadata.id thread) = Some stored ->
  let all := items stored ++ [item] in
  let turn :=
    processEvents server thread (respond server thread (Some item))
      (withItems w (ThreadMetadata.id thread) stored (without (recentPending all) all)) in
  processNewThreadItemRespond server thread item w
  = {| emitted := ThreadItemDoneEvent item :: emitted turn;
       completed := completed turn;
       final := final turn |}.
Proof.
  intros Hg. cbv zeta. unfold processNewThreadItemRespond.
  assert (Ha : addThreadItem (ThreadMetadata.id thread) item w
               = (Ok tt, withItems w (ThreadMetadata.id thread) stored (items stored ++ [item]))).
  { cbn. unfold mem_addThreadItem. now rewrite Hg. }
  erewrite bind_run by (apply call_ok; exact Ha). cbn [app].
  erewrite bind_run.
  2: { apply (cleanup_run thread _ {| thr := thr stored; items := items stored ++ [item] |}).
       apply withItems_get. }
  cbn [app items thr].
  rewrite (withItems_withItems w _ stored _ {| thr := thr stored; items := items stored ++ [item] |})
    by reflexivity.
  erewrite bind_run by reflexivity. reflexivity.
Qed.

Lemma processNewThreadItemRespond_stores_then_announces_witness :
  let w := worldOf [widget1; toolCall "tc_1" Pending] in
  let turn :=
    processEvents quietServer testThread (respond quietServer testThread (Some userMessage))
      (worldOf [widget1; userMessage]) in
  processNewThreadItemRespond quietServer testThread userMessage w
  = {| emitted := ThreadItemDoneEvent userMessage :: emitted turn;
       completed := completed turn;
       final := final turn |}.
Proof.
  exact (processNewThreadItemRespond_stores_then_announces quietServer testThread userMessage
           (worldOf [widget1; toolCall "tc_1" Pending])
           {| thr := testThread; items := [widget1; toolCall "tc_1" Pending] |}
           eq_refl).
Defined.

(** ** Retrying after an item the thread holds *)

Lemma scanPage_found item_id_param target pre post :
  item_id target = item_id_param ->
  ~ In item_id_param (map item_id pre) ->
  forall itemsToRemove,
    scanPage item_id_param (pre ++ target :: post) itemsToRemove
    = if String.eqb (item_type target) "user_message"
      then Ok (Some target, itemsToRemove ++ pre)
      else Err (PlainError ("Item " ++ item_id_param ++ " is not a user message")).
Proof.
  intros Hid. induction pre as [|item pre IH]; intros Hn acc; cbn [app scanPage].
  - rewrite Hid, String.eqb_refl, app_nil_r. reflexivity.
  - destruct (String.eqb (item_id item) item_id_param) eqn:E.
    + apply String.eqb_eq in E. elim Hn. now left.
    + rewrite IH by (intros Hin; apply Hn; now right).
      now rewrite <- app_assoc.
Qed.

Lemma firstn_firstn_skipn {A} (l : list A) a b :
  firstn a l ++ firstn b (skipn a l) = firstn (a + b) l.
Proof.
  revert l. induction a as [|a IH]; intros [|x l]; cbn; try reflexivity.
  - now rewrite firstn_nil.
  - now rewrite IH.
Qed.

Lemma filter_absent (all : list ThreadItem) id :
  ~ In id (map item_id all) ->
  filter (fun i => negb (String.eqb (item_id i) id)) all = all.
Proof.
  induction all as [|i rest IH]; intros Hn; cbn; [reflexivity|].
  destruct (String.eqb (item_id i) id) eqn:E.
  - apply String.eqb_eq in E. elim Hn. now left.
  - cbn. rewrite IH; [reflexivity|]. intros Hin. apply Hn. now right.
Qed.

Lemma without_firstn (all : list ThreadItem) :
  NoDup (map item_id all) ->
  forall n, without (map item_id (firstn n all)) all = skipn n all.
Proof.
  induction all as [|x l IH]; intros Hnd [|n]; cbn [firstn map skipn];
    try apply without_nil.
  inversion Hnd as [|? ? Hx Hl]; subst.
  rewrite without_cons. cbn [filter]. rewrite String.eqb_refl. cbn [negb].
  rewrite filter_absent by exact Hx. now apply IH.
Qed.

Section RetryFound.
Variables (threadId : string) (stored : StoredThread) (d : ThreadItem).
Variables (n : nat) (target : ThreadItem).
Hypothesis no_dup : NoDup (map item_id (items stored)).
Hypothesis ids_truthy : Forall (fun i => JSString.truthy (item_id i) = true) (items stored).
Hypothesis at_n : nth_error (items stored) n = Some target.

Lemma target_split :
  exists pre post,
    items stored = pre ++ target :: post /\ List.length pre = n
    /\ ~ In (item_id target) (map item_id pre).
Proof.
  destruct (nth_error_split _ _ at_n) as (pre & post & E & Hlen).
  exists pre, post. repeat split; try assumption.
  rewrite E, map_app in no_dup. cbn [map] in no_dup.
  apply NoDup_remove_2 in no_dup. intros Hin. apply no_dup.
  apply in_or_app. now left.
Qed.

(** Paging from position [start] on, at or before the target, collects
    the items before the target and stops at it. *)
Lemma paginate_found fuel :
  forall w start itemsToRemove,
    get (store w) threadId = Some stored ->
    start <= n ->
    List.length (items stored) - start < fuel ->
    paginateThreadItemsReverse fuel threadId (item_id target)
      (cursor (items stored) start d) itemsToRemove w
    = {| emitted := [];
         completed :=
           if String.eqb (item_type target) "user_message"
           then Returned (Some target,
                          itemsToRemove ++ firstn (n - start) (skipn start (items stored)))
           else Threw (PlainError ("Item " ++ item_id target ++ " is not a user message"));
         final := w |}.
Proof.
  destruct target_split as (pre & post & E & Hlen & Hpre).
  assert (Hn : n < List.length (items stored)).
  { apply nth_error_Some. rewrite at_n. discriminate. }
  induction fuel as [|fuel IH]; intros w start acc Hg Hle Hf; [lia|].
  cbn [paginateThreadItemsReverse].
  erewrite bind_run by (apply call_ok; apply loadThreadItems_asc; exact Hg).
  rewrite startIndexOf_cursor by (auto; lia).
  cbn [Page.data Page.has_more Page.after app].
  unfold slice, DEFAULT_PAGE_SIZE.
  assert (Hsk : skipn start (items stored)
                = firstn (n - start) (skipn start (items stored))
                  ++ target :: skipn (Datatypes.S n) (items stored)).
  { assert (Ht : nth_error (skipn start (items stored)) (n - start) = Some target).
    { rewrite nth_error_skipn. now replace (start + (n - start)) with n by lia. }
    destruct (nth_error_split _ _ Ht) as (l1 & l2 & E1 & Hl1).
    rewrite E1 at 1. rewrite E1, firstn_app, <- Hl1, firstn_all, Nat.sub_diag.
    cbn [firstn]. rewrite app_nil_r. do 2 f_equal.
    assert (E2 : skipn (Datatypes.S (List.length l1)) (skipn start (items stored)) = l2).
    { rewrite E1, skipn_app, skipn_all2 by lia.
      replace (Datatypes.S (List.length l1) - List.length l1) with 1 by lia. reflexivity. }
    rewrite <- E2, skipn_skipn. f_equal. lia. }
  assert (Hbefore : ~ In (item_id target)
                      (map item_id (firstn (n - start) (skipn start (items stored))))).
  { intros Hin. apply Hpre.
    assert (Hsub : forall x, In x (firstn (n - start) (skipn start (items stored))) -> In x pre).
    { intros x Hx.
      assert (Epre : pre = firstn n (items stored)).
      { rewrite E, firstn_app, <- Hlen, firstn_all, Nat.sub_diag. cbn. now rewrite app_nil_r. }
      rewrite Epre.
      replace n with (start + (n - start)) at 1 by lia.
      rewrite <- firstn_firstn_skipn. apply in_or_app. now right. }
    apply in_map_iff in Hin as (x & Ex & Hx). apply in_map_iff. exists x. auto. }
  destruct (Nat.lt_ge_cases n (start + 20)) as [Hin|Hout].
  - (* the target is on this page *)
    rewrite Hsk, firstn_app, length_firstn, length_skipn.
    replace (Nat.min (n - start) (List.length (items stored) - start)) with (n - start) by lia.
    rewrite firstn_firstn.
    replace (Nat.min 20 (n - start)) with (n - start) by lia.
    replace (20 - (n - start)) with (Datatypes.S (19 - (n - start))) by lia.
    cbn [firstn]. rewrite <- Hsk.
    rewrite scanPage_found by (auto; exact Hbefore).
    destruct (String.eqb (item_type target) "user_message"); reflexivity.
  - (* the target is on a later page *)
    rewrite scanPage_none.
    2: { intros Hin. apply Hbefore.
         replace (n - start) with (20 + (n - start - 20)) by lia.
         rewrite <- firstn_firstn_skipn, map_app. apply in_or_app. now left. }
    replace (start + 20 <? List.length (items stored))%nat with true
      by (symmetry; apply Nat.ltb_lt; lia).
    cbn [negb].
    assert (Hlen20 : List.length (firstn 20 (skipn start (items stored))) = 20).
    { rewrite length_firstn, length_skipn. lia. }
    rewrite (@last_map_Some _ d) by (intros E0; rewrite E0 in Hlen20; discriminate).
    rewrite Hlen20. cbn [Nat.sub].
    replace (Some (item_id (nth 19 (firstn 20 (skipn start (items stored))) d)))
      with (cursor (items stored) (start + 20) d).
    2: { replace (start + 20) with (Datatypes.S (start + 19)) by lia. cbn [cursor].
         rewrite nth_firstn. cbn. rewrite nth_skipn. reflexivity. }
    rewrite IH by (auto; lia). cbn [emitted completed final app].
    destruct (String.eqb (item_type target) "user_message"); [|reflexivity].
    rewrite <- app_assoc. do 4 f_equal.
    replace (n - start) with (20 + (n - (start + 20))) by lia.
    rewrite <- firstn_firstn_skipn, skipn_skipn. do 3 f_equal. lia.
Qed.
End RetryFound.

(** A retry after a user message of a stored thread whose items have
    distinct, non-empty ids deletes the items stored before that message,
    keeps the message and the items stored after it, and runs the turn on
    the user message. *)
Theorem retry_deletes_items_stored_before (server : ChatKitServer) (thread_id : string)
    (target : ThreadItem) (n : nat) (w : World threads) (stored : StoredThread) (fuel : nat) :
  get (store w) thread_id = Some stored ->
  NoDup (map item_id (items stored)) ->
  Forall (fun i => JSString.truthy (item_id i) = true) (items stored) ->
  nth_error (items stored) n = Some target ->
  item_type target = "user_message"%string ->
  List.length (items stored) < fuel ->
  retryAfterItem fuel server thread_id (item_id target) w
  = processEvents server (thr stored) (respond server (thr stored) (Some target))
      (withItems w thread_id stored (skipn n (items stored))).
Proof.
  intros Hg Hnd Htr Hn Hty Hfuel. unfold retryAfterItem.
  erewrite bind_run by (apply call_ok; apply loadThread_stored; exact Hg).
  assert (Hp := @paginate_found thread_id stored target n target Hnd Htr Hn fuel w 0 []
                  Hg (Nat.le_0_l n)).
  rewrite Hty, String.eqb_refl, Nat.sub_0_r in Hp. cbn [cursor app skipn] in Hp.
  erewrite bind_run by (apply Hp; lia).
  cbv beta iota. cbn [app emitted completed final]. rewrite ?Nat.sub_0_r.
  assert (Hd := deleteItems_withItems thread_id stored (firstn n (items stored))
                  w (items stored)).
  rewrite (withItems_self w _ stored Hg) in Hd.
  erewrite bind_run by exact Hd. cbn [app emitted completed final].
  rewrite without_firstn by exact Hnd. rewrite !run_eta. reflexivity.
Qed.

Lemma retry_deletes_items_stored_before_witness :
  retryAfterItem 5 quietServer "thr_test" "msg_1" (worldOf [widget1; userMessage; widget2])
  = processEvents quietServer testThread (respond quietServer testThread (Some userMessage))
      (worldOf [userMessage; widget2]).
Proof.
  apply (retry_deletes_items_stored_before quietServer "thr_test" userMessage 1
           (worldOf [widget1; userMessage; widget2])
           {| thr := testThread; items := [widget1; userMessage; widget2] |} 5);
    try reflexivity.
  - repeat constructor; cbn; intuition discriminate.
  - repeat constructor.
  - cbn. lia.
Defined.

(** A retry after an item that is not a user message throws, emits no
    event and deletes nothing. *)
Theorem retry_rejects_other_items (server : ChatKitServer) (thread_id : string)
    (target : ThreadItem) (n : nat) (w : World threads) (stored : StoredThread) (fuel : nat) :
  get (store w) thread_id = Some stored ->
  NoDup (map item_id (items stored)) ->
  Forall (fun i => JSString.truthy (item_id i) = true) (items stored) ->
  nth_error (items stored) n = Some target ->
  item_type target <> "user_message"%string ->
  List.length (items stored) < fuel ->
  retryAfterItem fuel server thread_id (item_id target) w
  = {| emitted := [];
       completed := Threw (PlainError ("Item " ++ item_id target ++ " is not a user message"));
       final := w |}.
Proof.
  intros Hg Hnd Htr Hn Hty Hfuel. unfold retryAfterItem.
  erewrite bind_run by (apply call_ok; apply loadThread_stored; exact Hg).
  assert (Hp := @paginate_found thread_id stored target n target Hnd Htr Hn fuel w 0 []
                  Hg (Nat.le_0_l n)).
  destruct (String.eqb (item_type target) "user_message") eqn:E;
    [apply String.eqb_eq in E; contradiction|].
  cbn [cursor] in Hp.
  erewrite bind_run_threw by (apply Hp; lia). reflexivity.
Qed.

Lemma retry_rejects_other_items_witness :
  retryAfterItem 5 quietServer "thr_test" "widget_1"
    (worldOf [userMessage; widget1; widget2])
  = {| emitted := [];
       completed := Threw (PlainError "Item widget_1 is not a user message");
       final := worldOf [userMessage; widget1; widget2] |}.
Proof.
  apply (retry_rejects_other_items quietServer "thr_test" widget1 1
           (worldOf [userMessage; widget1; widget2])
           {| thr := testThread; items := [userMessage; widget1; widget2] |} 5);
    try reflexivity.
  - repeat constructor; cbn; intuition discriminate.
  - repeat constructor.
  - discriminate.
  - cbn. lia.
Defined.

(** ** What a turn writes to the store *)

Lemma inWorld_call_ok {A} (method : World threads -> result A * World threads)
    (t : Turn) a w' :
  method (world t) = (Ok a, w') ->
  inWorld (call method) t
  = {| emitted := []; completed := Returned a;
       final := {| world := w'; pendingItems := pendingItems t |} |}.
Proof. intros E. unfold inWorld, call. rewrite E. reflexivity. Qed.

Section TurnWrites.
Variables (thread : ThreadMetadata.t) (w : World threads) (stored : StoredThread).

Local Abbreviation tid := (ThreadMetadata.id thread).

Lemma build_keeps_store all pending :
  exists snapshot,
    buildThreadResponseWithPending thread
      {| world := withItems w tid stored all; pendingItems := pending |}
    = {| emitted := []; completed := Returned snapshot;
         final := {| world := withItems w tid stored all; pendingItems := pending |} |}.
Proof.
  eexists. eapply buildThreadResponseWithPending_ok.
  - apply loadThread_stored. apply withItems_get.
  - apply loadThreadItems_asc. apply withItems_get.
Qed.

Lemma snapshot_keeps_store all pending :
  exists events,
    (fullThread <- buildThreadResponseWithPending thread ;;
     yield (ThreadUpdatedEvent fullThread))
      {| world := withItems w tid stored all; pendingItems := pending |}
    = {| emitted := events; completed := Returned tt;
         final := {| world := withItems w tid stored all; pendingItems := pending |} |}.
Proof.
  destruct (build_keeps_store all pending) as [snapshot Hb].
  eexists. erewrite bind_run by exact Hb. reflexivity.
Qed.

Lemma addThreadItem_withItems all item :
  addThreadItem tid item (withItems w tid stored all)
  = (Ok tt, withItems w tid stored (all ++ [item])).
Proof.
  cbn. unfold mem_addThreadItem. rewrite withItems_get. cbn [thr items]. f_equal.
  apply (withItems_withItems w tid stored all {| thr := thr stored; items := all |}).
  reflexivity.
Qed.

Lemma saveItem_withItems all item :
  saveItem tid item (withItems w tid stored all)
  = (Ok tt, withItems w tid stored (storedAfter all (ThreadItemReplacedEvent item))).
Proof.
  cbn. unfold mem_saveItem. rewrite withItems_get. cbn [thr items]. f_equal.
  apply (withItems_withItems w tid stored all {| thr := thr stored; items := all |}).
  reflexivity.
Qed.

(** One event: the store holds what the event asks for, and the body of
    the loop returns. *)
Lemma processEvent_writes event all pending :
  exists events pending',
    processEvent thread event
      {| world := withItems w tid stored all; pendingItems := pending |}
    = {| emitted := events; completed := Returned tt;
         final := {| world := withItems w tid stored (storedAfter all event);
                     pendingItems := pending' |} |}.
Proof.
  unfold processEvent, threadReplaced, setPending, deletePending.
  destruct event as [t|t|item|id update|item|id|item|o|txt|n d|c m r];
    cbn [storedAfter shouldSwallowEvent negb orb].
  1, 2, 8, 9, 10, 11:
    (repeat first [rewrite bind_ret_l | erewrite bind_run by reflexivity];
     eexists; eexists; reflexivity).
  - (* added *)
    repeat first [rewrite bind_ret_l | erewrite bind_run by reflexivity].
    cbn [orb app emitted completed final world pendingItems]. rewrite !bind_ret_l.
    destruct (snapshot_keeps_store all (JSObject.set pending (item_id item) item))
      as [evs Hs].
    rewrite Hs. eexists. eexists. reflexivity.
  - (* updated *)
    rewrite bind_ret_l. rewrite !bind_cases.
    cbn [gets emitted completed final pendingItems].
    destruct (JSObject.get pending id) as [[h content| | | | | | | |]|];
      cbn; eexists; eexists; reflexivity.
  - (* done *)
    rewrite bind_ret_l.
    erewrite bind_run.
    2: { erewrite bind_run by (apply inWorld_call_ok; apply addThreadItem_withItems).
         erewrite bind_run by reflexivity.
         cbn [ret app emitted completed final]. reflexivity. }
    cbn [app emitted completed final world pendingItems].
    destruct (snapshot_keeps_store (all ++ [item]) (JSObject.delete pending (item_id item)))
      as [evs Hs].
    destruct (String.eqb (item_type item) "hidden_context"
              || String.eqb (item_type item) "sdk_hidden_context");
      cbn [negb]; [rewrite bind_ret_l | erewrite bind_run by reflexivity];
      cbn [orb app emitted completed final world pendingItems];
      rewrite bind_ret_l, Hs; eexists; eexists; reflexivity.
  - (* removed *)
    rewrite bind_ret_l.
    erewrite bind_run.
    2: { erewrite bind_run by (apply inWorld_call_ok; apply deleteThreadItem_withItems).
         erewrite bind_run by reflexivity.
         cbn [ret app emitted completed final]. reflexivity. }
    cbn [app emitted completed final world pendingItems].
    erewrite bind_run by reflexivity.
    cbn [orb app emitted completed final world pendingItems]. rewrite bind_ret_l.
    destruct (snapshot_keeps_store
                (filter (fun i => negb (String.eqb (item_id i) id)) all)
                (JSObject.delete pending id)) as [evs Hs].
    rewrite Hs. eexists. eexists. reflexivity.
  - (* replaced *)
    rewrite bind_ret_l.
    erewrite bind_run.
    2: { erewrite bind_run by (apply inWorld_call_ok; apply saveItem_withItems).
         erewrite bind_run by reflexivity.
         cbn [ret app emitted completed final]. reflexivity. }
    cbn [app emitted completed final world pendingItems].
    erewrite bind_run by reflexivity.
    cbn [orb app emitted completed final world pendingItems]. rewrite bind_ret_l.
    destruct (snapshot_keeps_store (storedAfter all (ThreadItemReplacedEvent item))
                (JSObject.delete pending (item_id item))) as [evs Hs].
    rewrite Hs. eexists. eexists. reflexivity.
Qed.

Lemma forAwait_writes events :
  forall all pending,
    exists emitted' pending',
      forAwait thread (yieldAll events)
        {| world := withItems w tid stored all; pendingItems := pending |}
      = {| emitted := emitted'; completed := Returned tt;
           final := {| world := withItems w tid stored (fold_left storedAfter events all);
                       pendingItems := pending' |} |}.
Proof.
  induction events as [|event rest IH]; intros all pending; cbn [yieldAll forAwait fold_left].
  - eexists. eexists. reflexivity.
  - destruct (processEvent_writes event all pending) as (evs & pending1 & Hp).
    destruct (IH (storedAfter all event) pending1) as (evs' & pending2 & Hr).
    erewrite bind_run by exact Hp. rewrite Hr. eexists. eexists. reflexivity.
Qed.

(** The same when the source, after its events, returns or throws: the
    loop ends as the source does. *)
Lemma forAwait_yieldThen events (ending : TurnSource threads) :
  isEnding ending = true ->
  forall all pending,
    exists emitted' pending',
      forAwait thread (yieldThen events ending)
        {| world := withItems w tid stored all; pendingItems := pending |}
      = {| emitted := emitted';
           completed := match ending with
                        | SThrow e => Threw e
                        | _ => Returned tt
                        end;
           final := {| world := withItems w tid stored (fold_left storedAfter events all);
                       pendingItems := pending' |} |}.
Proof.
  intros He.
  induction events as [|event rest IH]; intros all pending; cbn [yieldThen forAwait fold_left].
  - destruct ending; try discriminate He; eexists; eexists; reflexivity.
  - destruct (processEvent_writes event all pending) as (evs & pending1 & Hp).
    destruct (IH (storedAfter all event) pending1) as (evs' & pending2 & Hr).
    erewrite bind_run by exact Hp. rewrite Hr. eexists. eexists. reflexivity.
Qed.
End TurnWrites.

(** Over the in-memory store, a turn whose source yields a list of
    events and returns leaves in the stored thread exactly what the events
    ask for, in their order: each done item appended (a hidden one too),
    each removed item dropped, each replaced item put in the place of the
    item with its id; added and updated items, and the snapshots that are
    sent, write nothing.  [processEvents] returns. *)
Theorem processEvents_writes_what_events_say (server : ChatKitServer)
    (thread : ThreadMetadata.t) (events : list ThreadStreamEvent)
    (w : World threads) (stored : StoredThread) :
  get (store w) (ThreadMetadata.id thread) = Some stored ->
  completed (processEvents server thread (yieldAll events) w) = Returned tt
  /\ final (processEvents server thread (yieldAll events) w)
     = withItems w (ThreadMetadata.id thread) stored
         (fold_left storedAfter events (items stored)).
Proof.
  intros Hg. unfold processEvents.
  erewrite bind_run by reflexivity. cbn [app emitted completed final].
  unfold try_catch.
  destruct (forAwait_writes thread w stored events (items stored) JSObject.empty)
    as (evs & pending & Hf).
  rewrite (withItems_self w _ stored Hg) in Hf.
  erewrite bind_run by exact Hf.
  destruct (snapshot_keeps_store thread w stored
              (fold_left storedAfter events (items stored)) pending) as [evs' Hs].
  rewrite Hs. cbn [emitted completed final world]. split; reflexivity.
Qed.

(** A turn whose source yields a list of events and then returns or
    throws: [processEvents] returns, and the stored thread holds what the
    events ask for. *)
Lemma processEvents_yieldThen (server : ChatKitServer) (thread : ThreadMetadata.t)
    (events : list ThreadStreamEvent) (ending : TurnSource threads)
    (w : World threads) (stored : StoredThread) :
  isEnding ending = true ->
  get (store w) (ThreadMetadata.id thread) = Some stored ->
  completed (processEvents server thread (yieldThen events ending) w) = Returned tt
  /\ final (processEvents server thread (yieldThen events ending) w)
     = withItems w (ThreadMetadata.id thread) stored
         (fold_left storedAfter events (items stored)).
Proof.
  intros He Hg. unfold processEvents.
  erewrite bind_run by reflexivity. cbn [app emitted completed final].
  unfold try_catch.
  destruct (forAwait_yieldThen thread w stored events ending He (items stored) JSObject.empty)
    as (evs & pending & Hf).
  rewrite (withItems_self w _ stored Hg) in Hf.
  destruct (snapshot_keeps_store thread w stored
              (fold_left storedAfter events (items stored)) pending) as [evs' Hs].
  destruct ending as [|e| |]; try discriminate He.
  - erewrite bind_run by exact Hf.
    rewrite Hs. cbn [emitted completed final world]. split; reflexivity.
  - erewrite bind_run_threw by exact Hf.
    cbn [emitted completed final].
    erewrite bind_run by reflexivity. unfold threadReplaced.
    erewrite bind_run by reflexivity.
    cbn [emitted completed final]. rewrite Hs.
    cbn [emitted completed final world]. split; reflexivity.
Qed.

Lemma processEvents_writes_what_events_say_witness :
  let events :=
    [ThreadItemAddedEvent (assistant "Hi"); ThreadItemDoneEvent (assistant "Hi");
     ThreadItemDoneEvent hiddenItem; ThreadItemRemovedEvent "msg_1";
     ThreadItemReplacedEvent (assistant "Hello")] in
  completed (processEvents quietServer testThread (yieldAll events)
               (worldOf [userMessage; widget1])) = Returned tt
  /\ final (processEvents quietServer testThread (yieldAll events)
              (worldOf [userMessage; widget1]))
     = worldOf [widget1; assistant "Hello"; hiddenItem].
Proof.
  exact (processEvents_writes_what_events_say quietServer testThread
           [ThreadItemAddedEvent (assistant "Hi"); ThreadItemDoneEvent (assistant "Hi");
            ThreadItemDoneEvent hiddenItem; ThreadItemRemovedEvent "msg_1";
            ThreadItemReplacedEvent (assistant "Hello")]
           (worldOf [userMessage; widget1])
           {| thr := testThread; items := [userMessage; widget1] |} eq_refl).
Defined.

(** ** Custom actions *)

Section CustomAction.
Context {S : Type} `{Store S}.

(** A custom action whose sender is an item without a widget is refused
    with a single error event that does not allow a retry: the [action]
    method is not called, and neither stream options nor a snapshot are
    sent. *)
Theorem customAction_refuses_sender_without_widget (server : ChatKitServer)
    (action : Action) (thread_id id : string) (action_param : value)
    (w w1 w2 : World S) (meta : ThreadMetadata.t) (sender : ThreadItem) :
  loadThread thread_id w = (Ok meta, w1) ->
  JSString.truthy id = true ->
  loadItem thread_id id w1 = (Ok sender, w2) ->
  widgetUndefined sender = true ->
  customAction server action thread_id (Some id) action_param w
  = {| emitted := [ErrorEvent stream_error None (Some false)];
       completed := Returned tt;
       final := w2 |}.
Proof.
  intros Hl Ht Hi Hw. unfold customAction.
  erewrite bind_run by (apply call_ok; exact Hl). rewrite Ht.
  erewrite bind_run.
  2: { erewrite bind_run by (apply call_ok; exact Hi). reflexivity. }
  cbn [app emitted completed final ret]. rewrite Hw. reflexivity.
Qed.

(** A custom action without a sender, on a server that does not
    override [action]: the error that the method throws is caught, and the
    client gets the stream options, an error event with the default
    message that allows a retry, and the snapshot of the thread. *)
Theorem customAction_not_overridden (server : ChatKitServer)
    (thread_id : string) (action_param : value)
    (w w1 w2 w3 : World S) (meta meta' : ThreadMetadata.t) (page : Page.t ThreadItem) :
  loadThread thread_id w = (Ok meta, w1) ->
  loadThread (ThreadMetadata.id meta) w1 = (Ok meta', w2) ->
  loadThreadItems (ThreadMetadata.id meta) None DEFAULT_PAGE_SIZE asc w2 = (Ok page, w3) ->
  customAction server defaultAction thread_id None action_param w
  = {| emitted :=
         [StreamOptionsEvent (getStreamOptions server meta);
          ErrorEvent stream_error (Some DEFAULT_ERROR_MESSAGE) (Some true);
          ThreadUpdatedEvent (toThreadResponse (Thread.mk meta' page))];
       completed := Returned tt;
       final := w3 |}.
Proof.
  intros Hl Hl1 Hl2. unfold customAction.
  erewrite bind_run by (apply call_ok; exact Hl).
  rewrite bind_ret_l. cbn [app]. unfold defaultAction, processEvents.
  erewrite bind_run by reflexivity. cbn [app emitted completed final].
  unfold try_catch.
  erewrite bind_run_threw by reflexivity.
  cbn [emitted completed final].
  erewrite bind_run by reflexivity. unfold threadReplaced.
  erewrite bind_run by reflexivity.
  erewrite bind_run by (eapply buildThreadResponseWithPending_ok; eauto).
  cbn [app emitted completed final world yield JSObject.values JSObject.empty map filter
       errorEventOf].
  rewrite app_nil_r. destruct page; reflexivity.
Qed.
End CustomAction.

Lemma customAction_refuses_sender_without_widget_witness :
  customAction quietServer defaultAction "thr_test" (Some "msg_1") VNull
    (worldOf [userMessage; widget1])
  = {| emitted := [ErrorEvent stream_error None (Some false)];
       completed := Returned tt;
       final := worldOf [userMessage; widget1] |}.
Proof.
  apply (customAction_refuses_sender_without_widget quietServer defaultAction
           "thr_test" "msg_1" VNull
           (worldOf [userMessage; widget1]) (worldOf [userMessage; widget1])
           (worldOf [userMessage; widget1]) testThread userMessage);
    reflexivity.
Defined.

Lemma customAction_not_overridden_witness :
  customAction quietServer defaultAction "thr_test" None VNull (worldOf [userMessage; hiddenItem])
  = {| emitted :=
         [StreamOptionsEvent {| allow_cancel := true |};
          ErrorEvent stream_error (Some DEFAULT_ERROR_MESSAGE) (Some true);
          ThreadUpdatedEvent
            (Thread.mk testThread (Page.mk [userMessage] false (Some "hc_1")))];
       completed := Returned tt;
       final := worldOf [userMessage; hiddenItem] |}.
Proof.
  apply (customAction_not_overridden quietServer "thr_test" VNull
           (worldOf [userMessage; hiddenItem]) (worldOf [userMessage; hiddenItem])
           (worldOf [userMessage; hiddenItem]) (worldOf [userMessage; hiddenItem])
           testThread testThread (Page.mk [userMessage; hiddenItem] false (Some "hc_1")));
    reflexivity.
Defined.

(** ** Renaming a thread *)

(** ["threads.update"] on a stored thread: the thread is stored with the
    new title and is loaded back with it, its other metadata and its items
    are kept, and the response carries the renamed thread without any of
    its items. *)
Theorem threadsUpdate_renames (thread_id : string) (title : option string)
    (w : World threads) (stored : StoredThread) :
  get (store w) thread_id = Some stored ->
  ThreadMetadata.id (thr stored) = thread_id ->
  let renamed :=
    ThreadMetadata.mk thread_id title (ThreadMetadata.created_at (thr stored))
      (ThreadMetadata.status (thr stored)) (ThreadMetadata.metadata (thr stored)) in
  let r := threadsUpdate thread_id title w in
  emitted r = []
  /\ completed r = Returned (Thread.mk renamed (Page.mk [] false None))
  /\ loadThread thread_id (final r) = (Ok renamed, final r)
  /\ itemsOf (final r) thread_id = items stored.
Proof.
  intros Hg Hid. cbv zeta. unfold threadsUpdate.
  erewrite bind_run by (apply call_ok; apply loadThread_stored; exact Hg).
  assert (Hs : saveThread
                 (ThreadMetadata.mk (ThreadMetadata.id (thr stored)) title
                    (ThreadMetadata.created_at (thr stored))
                    (ThreadMetadata.status (thr stored))
                    (ThreadMetadata.metadata (thr stored))) w
               = (Ok tt,
                  with_store w
                    (set (store w) thread_id
                       {| thr := ThreadMetadata.mk thread_id title
                                   (ThreadMetadata.created_at (thr stored))
                                   (ThreadMetadata.status (thr stored))
                                   (ThreadMetadata.metadata (thr stored));
                          items := items stored |}))).
  { cbn. unfold mem_saveThread. cbn [ThreadMetadata.id]. rewrite Hid, Hg. reflexivity. }
  erewrite bind_run by (apply call_ok; exact Hs).
  cbn [app emitted completed final ret]. rewrite Hid.
  repeat split.
  - cbn. unfold mem_loadThread, with_store. cbn [store]. now rewrite get_set_same.
  - unfold itemsOf, with_store. cbn [store]. now rewrite get_set_same.
Qed.

Lemma threadsUpdate_renames_witness :
  let r := threadsUpdate "thr_test" (Some "Renamed") (worldOf [userMessage; widget1]) in
  emitted r = []
  /\ completed r = Returned (Thread.mk (renamed "Renamed") (Page.mk [] false None))
  /\ loadThread "thr_test" (final r) = (Ok (renamed "Renamed"), final r)
  /\ itemsOf (final r) "thr_test" = [userMessage; widget1].
Proof.
  apply (threadsUpdate_renames "thr_test" (Some "Renamed") (worldOf [userMessage; widget1])
           {| thr := testThread; items := [userMessage; widget1] |});
    reflexivity.
Defined.

(** ** The output of a client tool call *)

Lemma loadThreadItems_last w threadId stored :
  get (store w) threadId = Some stored ->
  exists has_more after,
    loadThreadItems threadId None 1 desc w
    = (Ok (Page.mk (firstn 1 (rev (items stored))) has_more after), w).
Proof.
  intros Hg. cbn. unfold mem_loadThreadItems. rewrite Hg. eexists. eexists. reflexivity.
Qed.

Lemma replaceItem_last rest item item' :
  item_id item' = item_id item ->
  ~ In (item_id item) (map item_id rest) ->
  replaceItem (rest ++ [item]) item' = Some (rest ++ [item']).
Proof.
  intros Hid Hn. induction rest as [|i rest IH]; cbn [app replaceItem].
  - now rewrite Hid, String.eqb_refl.
  - destruct (String.eqb (item_id i) (item_id item')) eqn:E.
    + apply String.eqb_eq in E. elim Hn. left. congruence.
    + rewrite IH; [reflexivity|]. intros Hin. apply Hn. now right.
Qed.

Lemma completeToolCall_id toolCall result :
  item_id (completeToolCall toolCall result) = item_id toolCall.
Proof. now destruct toolCall. Qed.

(** A tool output for a thread whose last stored item is not a pending
    client tool call, or that has no item, is refused: the handler throws,
    emits no event and leaves the store as it was.  Only the last item is
    looked at, so that a pending call stored before it does not count. *)
Theorem addClientToolOutput_needs_pending_call_last (server : ChatKitServer)
    (thread_id : string) (result : value) (w : World threads) (stored : StoredThread) :
  get (store w) thread_id = Some stored ->
  ThreadMetadata.id (thr stored) = thread_id ->
  (forall rest lastItem,
      items stored = rest ++ [lastItem] -> isPendingClientToolCall lastItem = false) ->
  addClientToolOutput server thread_id result w
  = {| emitted := [];
       completed :=
         Threw (PlainError ("Last thread item in " ++ thread_id
                            ++ " was not a ClientToolCallItem"));
       final := w |}.
Proof.
  intros Hg Hid Hlast. unfold addClientToolOutput.
  erewrite bind_run by (apply call_ok; apply loadThread_stored; exact Hg).
  rewrite Hid.
  destruct (loadThreadItems_last w thread_id stored Hg) as (hm & af & Hl).
  erewrite bind_run by (apply call_ok; exact Hl). cbn [Page.data app].
  assert (Hf : find isPendingClientToolCall (firstn 1 (rev (items stored))) = None).
  { destruct (items stored) as [|x l] eqn:E using rev_ind; [reflexivity|].
    rewrite rev_app_distr. cbn [rev app firstn find].
    now rewrite (Hlast l x eq_refl). }
  rewrite Hf. reflexivity.
Qed.

Lemma addClientToolOutput_needs_pending_call_last_witness :
  addClientToolOutput quietServer "thr_test" (VStr "42")
    (worldOf [toolCall "tc_1" Pending; userMessage])
  = {| emitted := [];
       completed :=
         Threw (PlainError "Last thread item in thr_test was not a ClientToolCallItem");
       final := worldOf [toolCall "tc_1" Pending; userMessage] |}.
Proof.
  apply (addClientToolOutput_needs_pending_call_last quietServer "thr_test" (VStr "42")
           (worldOf [toolCall "tc_1" Pending; userMessage])
           {| thr := testThread; items := [toolCall "tc_1" Pending; userMessage] |});
    try reflexivity.
  intros rest lastItem E. cbn [items] in E.
  destruct rest as [|a [|b [|c rest]]]; cbn in E; inversion E; subst; try reflexivity.
Defined.

(** A tool output for a thread whose last stored item is a pending
    client tool call, the only item with its id: the call is stored as
    completed with the output, the other pending calls among the most
    recent items are removed, and the turn runs without an input
    message. *)
Theorem addClientToolOutput_completes_last_call (server : ChatKitServer)
    (thread_id : string) (result : value) (w : World threads) (stored : StoredThread)
    (rest : list ThreadItem) (pending : ThreadItem) :
  get (store w) thread_id = Some stored ->
  ThreadMetadata.id (thr stored) = thread_id ->
  items stored = rest ++ [pending] ->
  isPendingClientToolCall pending = true ->
  ~ In (item_id pending) (map item_id rest) ->
  let all := rest ++ [completeToolCall pending result] in
  addClientToolOutput server thread_id result w
  = processEvents server (thr stored) (respond server (thr stored) None)
      (withItems w thread_id stored (without (recentPending all) all)).
Proof.
  intros Hg Hid Hitems Hpend Hfresh. cbv zeta. unfold addClientToolOutput.
  erewrite bind_run by (apply call_ok; apply loadThread_stored; exact Hg).
  rewrite Hid.
  destruct (loadThreadItems_last w thread_id stored Hg) as (hm & af & Hl).
  erewrite bind_run by (apply call_ok; exact Hl). cbn [Page.data app].
  rewrite Hitems, rev_app_distr. cbn [rev app firstn find]. rewrite Hpend.
  assert (Hm : assignLast thread_id (completeToolCall pending result) w
               = withItems w thread_id stored (rest ++ [completeToolCall pending result])).
  { unfold assignLast. rewrite Hg, Hitems, removelast_last. reflexivity. }
  erewrite bind_run by (unfold modify; rewrite Hm; reflexivity).
  assert (Hs : saveItem thread_id (completeToolCall pending result)
                 (withItems w thread_id stored (rest ++ [completeToolCall pending result]))
               = (Ok tt,
                  withItems w thread_id stored (rest ++ [completeToolCall pending result]))).
  { cbn. unfold mem_saveItem. rewrite withItems_get. cbn [items thr].
    rewrite replaceItem_last.
    - f_equal. apply (withItems_withItems w thread_id stored _
                        {| thr := thr stored;
                           items := rest ++ [completeToolCall pending result] |}).
      reflexivity.
    - reflexivity.
    - rewrite completeToolCall_id. exact Hfresh. }
  erewrite bind_run by (apply call_ok; exact Hs).
  erewrite bind_run.
  2: { apply (cleanup_run (thr stored) _
                {| thr := thr stored; items := rest ++ [completeToolCall pending result] |}).
       rewrite Hid. apply withItems_get. }
  cbn [app emitted completed final items thr]. rewrite Hid.
  rewrite (withItems_withItems w thread_id stored _
             {| thr := thr stored; items := rest ++ [completeToolCall pending result] |})
    by reflexivity.
  apply run_eta.
Qed.

Lemma addClientToolOutput_completes_last_call_witness :
  addClientToolOutput quietServer "thr_test" (VStr "42")
    (worldOf [toolCall "tc_1" Pending; userMessage; toolCall "tc_2" Pending])
  = processEvents quietServer testThread (respond quietServer testThread None)
      (worldOf [userMessage;
                ClientToolCallItem (header "tc_2") "call_tc_2" "lookup" VNull (VStr "42")
                  Completed]).
Proof.
  apply (addClientToolOutput_completes_last_call quietServer "thr_test" (VStr "42")
           (worldOf [toolCall "tc_1" Pending; userMessage; toolCall "tc_2" Pending])
           {| thr := testThread;
              items := [toolCall "tc_1" Pending; userMessage; toolCall "tc_2" Pending] |}
           [toolCall "tc_1" Pending; userMessage] (toolCall "tc_2" Pending));
    try reflexivity.
  cbn. intros [E|[E|[]]]; discriminate E.
Defined.

End RequestProperties.

(** * Properties of the event queue *)

Module QueueProperties.
Import AsyncQueue.

Unset Implicit Arguments.

Section Queue.
Context {T : Type}.

Local Abbreviation op := (operation (T := T)).

Lemma run_snoc (ops : list op) o : run (ops ++ [o]) = step (run ops) o.
Proof. unfold run. now rewrite fold_left_app. Qed.

Lemma accepted_snoc (ops : list op) o :
  accepted (ops ++ [o])
  = match o with
    | Enqueue item => if existsb isComplete ops then accepted ops else accepted ops ++ [item]
    | _ => accepted ops
    end.
Proof.
  induction ops as [|x ops IH]; cbn [app accepted existsb].
  - destruct o; reflexivity.
  - destruct x; cbn [isComplete orb].
    + rewrite IH. destruct o; try reflexivity. now destruct (existsb isComplete ops).
    + destruct o; reflexivity.
    + exact IH.
Qed.

Lemma nth_error_snoc (l : list T) x p :
  nth_error (l ++ [x]) p
  = if (p <? List.length l)%nat then nth_error l p
    else if (p =? List.length l)%nat then Some x else None.
Proof.
  destruct (p <? List.length l)%nat eqn:E.
  - apply Nat.ltb_lt in E. now apply nth_error_app1.
  - apply Nat.ltb_ge in E. rewrite nth_error_app2 by exact E.
    destruct (p =? List.length l)%nat eqn:E1.
    + apply Nat.eqb_eq in E1. subst. now rewrite Nat.sub_diag.
    + apply Nat.eqb_neq in E1. destruct (p - List.length l) as [|k] eqn:Ek; [lia|].
      cbn. now destruct k.
Qed.

Lemma expected_pending (acc : list T) p r :
  List.length acc <= p -> ~ expected acc false p r.
Proof.
  intros Hge. unfold expected. rewrite (proj2 (nth_error_None acc p)) by exact Hge.
  intros [E _]. discriminate E.
Qed.

Lemma expected_snoc (acc : list T) x c p r :
  p < List.length acc -> (expected (acc ++ [x]) c p r <-> expected acc c p r).
Proof.
  intros Hlt. unfold expected. rewrite nth_error_snoc.
  replace (p <? List.length acc)%nat with true by (symmetry; apply Nat.ltb_lt; lia).
  reflexivity.
Qed.

Lemma NoDup_snoc (l : list nat) x : NoDup l -> ~ In x l -> NoDup (l ++ [x]).
Proof.
  intros Hl Hx. apply NoDup_app; repeat split; [exact Hl | repeat constructor; intros [] |].
  intros y Hy [E|[]]. subst y. now apply Hx.
Qed.

Lemma resolved_fresh (acc : list T) n c (st : trace (T := T)) p :
  consistent acc n c st -> n <= p -> ~ In p (map fst (resolved st)).
Proof.
  intros (_ & _ & _ & _ & _ & Hlog) Hp Hin.
  apply in_map_iff in Hin as ([p' r] & E & Hin). cbn in E. subst p'.
  apply Hlog in Hin. lia.
Qed.

Lemma resolved_pending (acc : list T) n (st : trace (T := T)) p :
  consistent acc n false st -> List.length acc <= p -> ~ In p (map fst (resolved st)).
Proof.
  intros (_ & _ & _ & _ & _ & Hlog) Hp Hin.
  apply in_map_iff in Hin as ([p' r] & E & Hin). cbn in E. subst p'.
  apply Hlog in Hin as [_ Hm]. now apply expected_pending in Hm.
Qed.

(** An item enqueued after the completion changes nothing. *)
Lemma enqueue_completed (acc : list T) n st x :
  consistent acc n true st -> consistent acc n true (step st (Enqueue x)).
Proof.
  intros Hcons.
  assert (E : step st (Enqueue x) = st).
  { destruct Hcons as (_ & Hd & _). destruct st as [q k log]. cbn in *.
    unfold enqueue. rewrite Hd. now rewrite app_nil_r. }
  now rewrite E.
Qed.

Lemma enqueue_open (acc : list T) n st x :
  consistent acc n false st -> consistent (acc ++ [x]) n false (step st (Enqueue x)).
Proof.
  intros Hcons. assert (Hp := resolved_pending acc n st (List.length acc) Hcons (Nat.le_refl _)).
  destruct Hcons as (Hc & Hd & Hi & Hr & Hnd & Hlog).
  unfold consistent. cbn [step]. unfold enqueue. rewrite Hd, Hr, length_app.
  cbn [List.length].
  destruct (Nat.le_gt_cases n (List.length acc)) as [Hle|Hgt].
  - replace (n - List.length acc) with 0 by lia.
    replace (n - (List.length acc + 1)) with 0 by lia.
    cbn [seq queue calls resolved items resolvers done]. rewrite app_nil_r, Hi.
    split; [exact Hc|]. split; [reflexivity|].
    split; [now rewrite skipn_app, (proj2 (Nat.sub_0_le _ _)) by exact Hle|].
    split; [reflexivity|]. split; [exact Hnd|].
    intros p r. rewrite Hlog. split; intros [H1 H2]; (split; [exact H1|]);
      apply (expected_snoc acc x false p r); (lia || assumption).
  - replace (n - List.length acc) with (S (n - List.length acc - 1)) by lia.
    replace (n - (List.length acc + 1)) with (n - List.length acc - 1) by lia.
    replace (List.length acc + 1) with (S (List.length acc)) by lia.
    cbn [seq queue calls resolved items resolvers done]. rewrite Hi.
    split; [exact Hc|]. split; [reflexivity|].
    split; [rewrite !skipn_all2; [reflexivity | rewrite length_app; cbn; lia | lia]|].
    split; [reflexivity|].
    split; [rewrite map_app; apply NoDup_snoc; assumption|].
    intros p r. rewrite in_app_iff, Hlog. cbn [In]. unfold expected at 2.
    rewrite nth_error_snoc.
    destruct (p <? List.length acc)%nat eqn:E.
    + apply Nat.ltb_lt in E. unfold expected. split.
      * intros [H|[H|[]]]; [exact H|]. inversion H; subst. lia.
      * intros H. now left.
    + apply Nat.ltb_ge in E. split.
      * intros [[_ H]|[H|[]]]; [now apply expected_pending in H|].
        inversion H; subst. rewrite Nat.eqb_refl. split; [lia | reflexivity].
      * intros [H1 H2]. destruct (p =? List.length acc)%nat eqn:E1.
        -- apply Nat.eqb_eq in E1. subst. right. left. reflexivity.
        -- destruct H2 as [H2 _]. discriminate H2.
Qed.

Lemma complete_consistent (acc : list T) n c st :
  consistent acc n c st -> consistent acc n true (step st Complete).
Proof.
  intros Hcons. destruct c.
  - assert (E : step st Complete = st).
    { destruct Hcons as (_ & Hd & _). destruct st as [q k log]. cbn in *.
      unfold complete. rewrite Hd. now rewrite app_nil_r. }
    now rewrite E.
  - assert (Hp := fun p => resolved_pending acc n st p Hcons).
    destruct Hcons as (Hc & Hd & Hi & Hr & Hnd & Hlog).
    unfold consistent. cbn [step]. unfold complete. rewrite Hd, Hr.
    cbn [queue calls resolved items resolvers done].
    split; [exact Hc|]. split; [reflexivity|]. split; [exact Hi|]. split; [reflexivity|].
    split.
    + rewrite map_app, map_map. cbn [fst]. rewrite map_id.
      apply NoDup_app; repeat split; [exact Hnd | apply seq_NoDup |].
      intros x Hx Hs. apply in_seq in Hs. apply (Hp x); [lia | exact Hx].
    + intros p r. rewrite in_app_iff, Hlog, in_map_iff. unfold expected.
      destruct (nth_error acc p) as [item|] eqn:En.
      * split.
        -- intros [H|(x & E & Hs)]; [exact H|]. inversion E; subst.
           apply in_seq in Hs. assert (p < List.length acc); [|lia].
           apply nth_error_Some. rewrite En. discriminate.
        -- intros H. now left.
      * apply nth_error_None in En. split.
        -- intros [[_ [H _]]|(x & E & Hs)]; [discriminate H|]. inversion E; subst.
           apply in_seq in Hs. split; [lia | now split].
        -- intros [H1 [_ ->]]. right. exists p. split; [reflexivity|]. apply in_seq. lia.
Qed.

Lemma next_consistent (acc : list T) n c st :
  consistent acc n c st -> consistent acc (S n) c (step st Next).
Proof.
  intros Hcons. assert (Hf := resolved_fresh acc n c st n Hcons (Nat.le_refl _)).
  destruct Hcons as (Hc & Hd & Hi & Hr & Hnd & Hlog).
  unfold consistent. cbn [step]. unfold next. rewrite Hi, Hc.
  destruct (skipn n acc) as [|value rest] eqn:Es.
  - assert (Hge : List.length acc <= n).
    { destruct (Nat.le_gt_cases (List.length acc) n) as [Hle|Hgt]; [exact Hle|].
      assert (Hl := length_skipn n acc). rewrite Es in Hl. cbn in Hl. lia. }
    assert (En : nth_error acc n = None) by now apply nth_error_None.
    rewrite Hd. destruct c.
    + cbn [queue calls resolved]. rewrite Hi, Hd, Hr.
      split; [reflexivity|]. split; [reflexivity|].
      split; [symmetry; apply skipn_all2; lia|]. split; [reflexivity|].
      split; [rewrite map_app; apply NoDup_snoc; assumption|].
      intros p r. rewrite in_app_iff, Hlog. cbn [In]. split.
      * intros [[H1 H2]|[H|[]]]; [split; [lia | exact H2]|].
        inversion H; subst. split; [lia|]. unfold expected. rewrite En. now split.
      * intros [H1 H2]. destruct (Nat.eq_dec p n) as [->|Hne].
        -- right. left. unfold expected in H2. rewrite En in H2. destruct H2 as [_ ->].
           reflexivity.
        -- left. split; [lia | exact H2].
    + cbn [queue calls resolved items resolvers done]. rewrite Hr, app_nil_r.
      split; [reflexivity|]. split; [reflexivity|].
      split; [symmetry; apply skipn_all2; lia|].
      split.
      { replace (S n - List.length acc) with (S (n - List.length acc)) by lia.
        rewrite seq_S. do 2 f_equal. lia. }
      split; [exact Hnd|].
      intros p r. rewrite Hlog. split.
      * intros [H1 H2]. split; [lia | exact H2].
      * intros [H1 H2]. split; [|exact H2].
        destruct (Nat.eq_dec p n) as [->|Hne]; [|lia].
        now apply expected_pending in H2.
  - assert (Hlt : n < List.length acc).
    { destruct (Nat.le_gt_cases (List.length acc) n) as [Hle|Hgt]; [|exact Hgt].
      rewrite skipn_all2 in Es by exact Hle. discriminate Es. }
    assert (Hv : nth_error acc n = Some value).
    { rewrite <- (Nat.add_0_r n), <- nth_error_skipn, Es. reflexivity. }
    cbn [queue calls resolved items resolvers done]. rewrite Hd, Hr.
    split; [reflexivity|]. split; [reflexivity|].
    split; [change (S n) with (1 + n); now rewrite <- skipn_skipn, Es|].
    split.
    { destruct c; [reflexivity|].
      replace (n - List.length acc) with 0 by lia.
      now replace (S n - List.length acc) with 0 by lia. }
    split; [rewrite map_app; apply NoDup_snoc; assumption|].
    intros p r. rewrite in_app_iff, Hlog. cbn [In]. split.
    + intros [[H1 H2]|[H|[]]]; [split; [lia | exact H2]|].
      inversion H; subst. split; [lia|]. unfold expected. now rewrite Hv.
    + intros [H1 H2]. destruct (Nat.eq_dec p n) as [->|Hne].
      * right. left. unfold expected in H2. rewrite Hv in H2. now subst.
      * left. split; [lia | exact H2].
Qed.

(** What the queue holds after a run, and which promises it has
    resolved. *)
Lemma run_consistent (ops : list op) :
  consistent (accepted ops) (List.length (filter isNext ops)) (existsb isComplete ops)
    (run ops).
Proof.
  induction ops as [|o ops IH] using rev_ind.
  - cbn. unfold consistent. cbn. repeat split; try constructor; try (intros []; fail); lia.
  - rewrite run_snoc, accepted_snoc, filter_app, length_app, existsb_app.
    destruct o as [item| |]; cbn [filter isNext isComplete existsb orb List.length].
    + rewrite Nat.add_0_r, orb_false_r.
      destruct (existsb isComplete ops); [now apply enqueue_completed | now apply enqueue_open].
    + rewrite Nat.add_0_r, orb_true_r. eapply complete_consistent. exact IH.
    + rewrite orb_false_r. replace (List.length (filter isNext ops) + 1)
        with (S (List.length (filter isNext ops))) by lia.
      now apply next_consistent.
Qed.

(** Whatever a producer and its consumers call on a new queue, and in
    whatever order, the promise of the [p]-th call of [next()] is resolved
    with the [p]-th item that was enqueued before the queue was
    completed; when there is no such item, it is resolved as finished once
    the queue is completed, and stays pending until then.  No promise is
    resolved twice, and an item enqueued after the completion reaches
    nobody. *)
Theorem queue_delivers_in_order (ops : list op) :
  NoDup (map fst (resolved (run ops)))
  /\ forall p r,
       In (p, r) (resolved (run ops))
       <-> p < List.length (filter isNext ops)
           /\ match nth_error (accepted ops) p with
              | Some item => r = Value item
              | None => existsb isComplete ops = true /\ r = Finished
              end.
Proof.
  destruct (run_consistent ops) as (_ & _ & _ & _ & Hnd & Hlog).
  split; [exact Hnd | exact Hlog].
Qed.

End Queue.

End QueueProperties.

(** * Hidden items *)

Module HiddenItems.
Import Widget Types Store Server InMemoryStore ServerSpec CoordinatorSpec.
Import StoreSpec ServerFacts InMemoryFacts RequestProperties Samples.

Unset Implicit Arguments.

Lemma bind_assoc {St A B C} (m : Gen St A) (k : A -> Gen St B) (k' : B -> Gen St C) st :
  bind (bind m k) k' st = bind m (fun a => bind (k a) k') st.
Proof.
  unfold bind. destruct (m st) as [l [a|e|] st']; cbn [emitted completed final];
    [|reflexivity..].
  destruct (k a st') as [l' [b|e'|] st'']; cbn [emitted completed final];
    [|reflexivity..].
  now rewrite app_assoc.
Qed.

Lemma try_catch_bind_run {St A B} (m : Gen St A) (k : A -> Gen St B)
    (handler : exn -> Gen St B) st l a st' :
  m st = {| emitted := l; completed := Returned a; final := st' |} ->
  try_catch (bind m k) handler st
  = {| emitted := l ++ emitted (try_catch (k a) handler st');
       completed := completed (try_catch (k a) handler st');
       final := final (try_catch (k a) handler st') |}.
Proof.
  intros E. unfold try_catch, bind. rewrite E. cbn [emitted completed final].
  destruct (k a st') as [l' [b|e'|] st'']; cbn [emitted completed final];
    rewrite ?app_assoc; reflexivity.
Qed.

Section AnyStore.
Context {S : Type} `{Store S}.

(** The loop over a source that yields a list of events and goes on as
    [source] is the loop over the events followed by the loop over
    [source]. *)
Lemma forAwait_yieldThen_split thread events (source : TurnSource S) t :
  forAwait thread (yieldThen events source) t
  = bind (forAwait thread (yieldAll events)) (fun _ => forAwait thread source) t.
Proof.
  revert t. induction events as [|event rest IH]; intros t; cbn [yieldThen yieldAll forAwait].
  - now rewrite bind_ret_l.
  - rewrite bind_assoc. apply bind_ext_r. intros [] t'. apply IH.
Qed.

(** [processEvents] is the stream options followed by the rest of the
    turn, started with no pending item. *)
Lemma processEvents_remainder (server : ChatKitServer) thread (stream : TurnSource S) w :
  processEvents server thread stream w
  = let r := remainder thread stream {| world := w; pendingItems := JSObject.empty |} in
    {| emitted := StreamOptionsEvent (getStreamOptions server thread) :: emitted r;
       completed := completed r;
       final := world (final r) |}.
Proof. reflexivity. Qed.

(** Once the loop is through the events before it, the done event of a
    hidden item makes the coordinator call [addThreadItem] on the item;
    it emits the snapshot only and goes on with the rest of the turn from
    the world the store is left in. *)
Lemma remainder_hidden_done thread (earlier : list ThreadStreamEvent) (item : ThreadItem)
    (rest : TurnSource S) (t t1 : Turn) (before : list ThreadStreamEvent)
    (w1 w2 w3 : World S) (meta : ThreadMetadata.t) (page : Page.t ThreadItem) :
  isHidden item = true ->
  forAwait thread (yieldAll earlier) t
  = {| emitted := before; completed := Returned tt; final := t1 |} ->
  addThreadItem (ThreadMetadata.id thread) item (world t1) = (Ok tt, w1) ->
  loadThread (ThreadMetadata.id thread) w1 = (Ok meta, w2) ->
  loadThreadItems (ThreadMetadata.id thread) None DEFAULT_PAGE_SIZE asc w2 = (Ok page, w3) ->
  exists snapshot,
    noHidden snapshot = true
    /\ remainder thread (yieldThen earlier (SYield (ThreadItemDoneEvent item) rest)) t
       = let r :=
           remainder thread rest
             {| world := w3;
                pendingItems := JSObject.delete (pendingItems t1) (item_id item) |} in
         {| emitted := before ++ ThreadUpdatedEvent snapshot :: emitted r;
            completed := completed r;
            final := final r |}.
Proof.
  intros Hh He Ha Hl Hi.
  destruct (processEvent_done thread item t1 Ha Hl Hi) as (snapshot & E & Hc).
  rewrite Hh in E. cbn [app] in E.
  exists snapshot. split; [exact Hc|].
  unfold remainder.
  assert (Hloop :
    forall k : unit -> Gen Turn unit,
      bind (forAwait thread (yieldThen earlier (SYield (ThreadItemDoneEvent item) rest))) k t
      = bind (forAwait thread (yieldAll earlier))
          (fun _ => bind (processEvent thread (ThreadItemDoneEvent item))
                      (fun _ => bind (forAwait thread rest) k)) t).
  { intros k.
    rewrite (bind_ext_l _ _ k t (forAwait_yieldThen_split thread earlier _ t)).
    rewrite bind_assoc. apply bind_ext_r. intros [] t'.
    cbn [forAwait]. apply bind_assoc. }
  unfold try_catch at 1. rewrite Hloop.
  erewrite bind_run by exact He. erewrite bind_run by exact E.
  cbn [emitted completed final app].
  unfold try_catch.
  destruct ((forAwait thread rest ;;
             fullThreadAtEnd <- buildThreadResponseWithPending thread ;;
             yield (ThreadUpdatedEvent fullThreadAtEnd))
              {| world := w3;
                 pendingItems := JSObject.delete (pendingItems t1) (item_id item) |})
    as [l [a|e|] t2];
    cbn [emitted completed final]; rewrite <- ?app_assoc; reflexivity.
Qed.

End AnyStore.

(** C9, as the specification states it, fails: a [thread.updated] event
    that the turn source itself yields is forwarded as it is, and the
    snapshot it carries can list a hidden item. *)
Lemma C9_source_snapshot_counterexample :
  let leaked := Thread.mk testThread (Page.mk [hiddenItem] false None) in
  let turn :=
    processEvents quietServer testThread
      (SYield (ThreadUpdatedEvent leaked) SReturn) (worldOf [userMessage]) in
  isHidden hiddenItem = true
  /\ noHidden leaked = false
  /\ emitted turn
     = [StreamOptionsEvent {| allow_cancel := true |};
        ThreadUpdatedEvent leaked;
        ThreadUpdatedEvent (Thread.mk testThread (Page.mk [userMessage] false (Some "msg_1")))].
Proof. repeat split. Qed.

(** C9, amended: an item-done event whose item is of kind
    [hidden_context] or [sdk_hidden_context] is never among the events
    [processEvents] emits, and it is persisted.  For every store: once
    the loop is through the events the source yielded before it,
    [processEvents] calls [addThreadItem] on the item, emits the snapshot
    and not the event, and does the rest of the turn from the world the
    store is left in.  Over the in-memory store: a turn whose source
    yields such an event among others and then returns or throws ends
    with the item appended to the stored thread, where the later events
    of the turn find it, and [processEvents] returns.  Every
    [thread.updated] event emitted lists no hidden item, unless it is an
    event the turn source itself yielded, which is passed on as it is; and
    the page an [items.list] request returns lists no hidden item. *)
Theorem C9_hidden_items_suppressed :
  (forall (S : Type) (St : Store S) (server : ChatKitServer) (thread : ThreadMetadata.t)
          (stream : TurnSource S) (w : World S) (event : ThreadStreamEvent),
      In event (emitted (processEvents server thread stream w)) ->
      (forall item, event = ThreadItemDoneEvent item -> isHidden item = false)
      /\ (forall snapshot, event = ThreadUpdatedEvent snapshot ->
                           noHidden snapshot = true \/ yields stream event))
  /\ (forall (S : Type) (St : Store S) (server : ChatKitServer) (thread : ThreadMetadata.t)
             (earlier : list ThreadStreamEvent) (item : ThreadItem) (rest : TurnSource S)
             (w : World S) (before : list ThreadStreamEvent) (t1 : Turn)
             (w1 w2 w3 : World S) (meta : ThreadMetadata.t) (page : Page.t ThreadItem),
         isHidden item = true ->
         forAwait thread (yieldAll earlier) {| world := w; pendingItems := JSObject.empty |}
         = {| emitted := before; completed := Returned tt; final := t1 |} ->
         addThreadItem (ThreadMetadata.id thread) item (world t1) = (Ok tt, w1) ->
         loadThread (ThreadMetadata.id thread) w1 = (Ok meta, w2) ->
         loadThreadItems (ThreadMetadata.id thread) None DEFAULT_PAGE_SIZE asc w2
         = (Ok page, w3) ->
         exists snapshot,
           noHidden snapshot = true
           /\ processEvents server thread
                (yieldThen earlier (SYield (ThreadItemDoneEvent item) rest)) w
              = let r :=
                  remainder thread rest
                    {| world := w3;
                       pendingItems := JSObject.delete (pendingItems t1) (item_id item) |} in
                {| emitted := StreamOptionsEvent (getStreamOptions server thread)
                              :: before ++ ThreadUpdatedEvent snapshot :: emitted r;
                   completed := completed r;
                   final := world (final r) |})
  /\ (forall (server : ChatKitServer) (thread : ThreadMetadata.t)
             (earlier later : list ThreadStreamEvent) (item : ThreadItem)
             (ending : TurnSource threads) (w : World threads) (stored : StoredThread),
         isHidden item = true ->
         isEnding ending = true ->
         get (store w) (ThreadMetadata.id thread) = Some stored ->
         let turn :=
           processEvents server thread
             (yieldThen (earlier ++ ThreadItemDoneEvent item :: later) ending) w in
         completed turn = Returned tt
         /\ final turn
            = withItems w (ThreadMetadata.id thread) stored
                (fold_left storedAfter later
                   (fold_left storedAfter earlier (items stored) ++ [item]))
         /\ ~ In (ThreadItemDoneEvent item) (emitted turn))
  /\ (forall (S : Type) (St : Store S) (thread_id : string) (after : option string)
             (limit : option nat) (order : option Order) (w : World S)
             (page : Page.t ThreadItem),
         completed (itemsList thread_id after limit order w) = Returned page ->
         forallb (fun item => negb (isHidden item)) (Page.data page) = true).
Proof.
  assert (Hemit :
    forall (S : Type) (St : Store S) (server : ChatKitServer) (thread : ThreadMetadata.t)
           (stream : TurnSource S) (w : World S) (event : ThreadStreamEvent),
      In event (emitted (processEvents server thread stream w)) ->
      (forall item, event = ThreadItemDoneEvent item -> isHidden item = false)
      /\ (forall snapshot, event = ThreadUpdatedEvent snapshot ->
                           noHidden snapshot = true \/ yields stream event)).
  { intros S St server thread stream w event Hin.
    apply processEvents_emits in Hin. destruct Hin as [Hc|[[t0 Ht] Hy]].
    - split.
      + intros item ->. cbn [clean] in Hc. now apply negb_true_iff in Hc.
      + intros snapshot ->. now left.
    - split.
      + intros item ->. discriminate Ht.
      + intros snapshot _. now right. }
  split; [exact Hemit | split; [|split]].
  - intros S St server thread earlier item rest w before t1 w1 w2 w3 meta page
           Hh He Ha Hl Hi.
    destruct (remainder_hidden_done thread earlier item rest _ t1 before w1 w2 w3 meta page
                Hh He Ha Hl Hi) as (snapshot & Hc & E).
    exists snapshot. split; [exact Hc|].
    rewrite processEvents_remainder. cbv zeta. rewrite E. reflexivity.
  - intros server thread earlier later item ending w stored Hh He Hg turn.
    destruct (processEvents_yieldThen server thread
                (earlier ++ ThreadItemDoneEvent item :: later) ending w stored He Hg)
      as [Hc Hf].
    split; [exact Hc | split].
    + subst turn. rewrite Hf, fold_left_app. reflexivity.
    + intros Hin. apply Hemit in Hin. destruct Hin as [Hd _].
      rewrite (Hd item eq_refl) in Hh. discriminate Hh.
  - intros S St thread_id after limit order w page Hc. eapply itemsList_clean; eauto.
Qed.

Lemma C9_hidden_items_suppressed_witness :
  (let turn :=
     processEvents quietServer testThread
       (yieldThen ([ThreadItemAddedEvent (assistant "Hi")]
                   ++ ThreadItemDoneEvent hiddenItem :: [ThreadItemDoneEvent (assistant "Hi")])
          (SThrow (StreamError true)))
       (worldOf [userMessage]) in
   completed turn = Returned tt
   /\ final turn = worldOf [userMessage; hiddenItem; assistant "Hi"]
   /\ ~ In (ThreadItemDoneEvent hiddenItem) (emitted turn))
  /\ (exists snapshot,
         noHidden snapshot = true
         /\ processEvents quietServer testThread
              (yieldThen [] (SYield (ThreadItemDoneEvent hiddenItem) SReturn))
              (worldOf [userMessage])
            = let r :=
                remainder testThread SReturn
                  {| world := worldOf [userMessage; hiddenItem];
                     pendingItems := JSObject.delete JSObject.empty (item_id hiddenItem) |} in
              {| emitted := StreamOptionsEvent (getStreamOptions quietServer testThread)
                            :: [] ++ ThreadUpdatedEvent snapshot :: emitted r;
                 completed := completed r;
                 final := world (final r) |}).
Proof.
  split.
  - apply (proj1 (proj2 (proj2 C9_hidden_items_suppressed)) quietServer testThread
             [ThreadItemAddedEvent (assistant "Hi")] [ThreadItemDoneEvent (assistant "Hi")]
             hiddenItem (SThrow (StreamError true)) (worldOf [userMessage])
             {| thr := testThread; items := [userMessage] |});
      reflexivity.
  - apply (proj1 (proj2 C9_hidden_items_suppressed) threads InMemoryStore quietServer
             testThread [] hiddenItem SReturn (worldOf [userMessage]) []
             {| world := worldOf [userMessage]; pendingItems := JSObject.empty |}
             (worldOf [userMessage; hiddenItem]) (worldOf [userMessage; hiddenItem])
             (worldOf [userMessage; hiddenItem]) testThread
             (Page.mk [userMessage; hiddenItem] false (Some "hc_1")));
      reflexivity.
Defined.

End HiddenItems.
